(** * zap: the MicroPython raw-REPL driver (pkg/repl/repl.go)

    A shallow embedding of the protocol driver of [zap] and the
    properties of its framing reader, executor and chunked file
    transfer.

    The serial port, the remote interpreter, the sink handed to the
    reader and the local file system are the environment of the code.
    They are modelled as an explicit [World] that every operation takes
    and returns, together with a ghost [trace] of the operations the
    driver performed, in order. *)

From Stdlib Require Import List NArith ZArith Arith Lia Bool.
From Stdlib Require Import Strings.Byte.
From Stdlib Require Strings.String.
Import ListNotations.
Import String.StringSyntax.
Bind Scope string_scope with String.string.

Set Implicit Arguments.
Local Open Scope list_scope.

(** ** Byte strings *)

Definition bytes := list byte.

(** Go string and []byte literals. *)
Definition bs (s : String.string) : bytes := String.list_byte_of_string s.

Definition EOT : byte := x04.  (* "\x04" *)
Definition LF : byte := x0a.   (* "\n" *)
Definition CR : byte := x0d.   (* "\r" *)
Definition DQ : byte := x22.   (* the double quote *)
Definition SP : byte := x20.   (* " " *)

(** [b != 0x04] *)
Definition not_EOT (b : byte) : bool := negb (Byte.eqb b EOT).

Fixpoint bytes_eqb (a b : bytes) : bool :=
  match a, b with
  | [], [] => true
  | x :: a', y :: b' => Byte.eqb x y && bytes_eqb a' b'
  | _, _ => false
  end.

(** bytes.Equal *)
Definition Equal (a b : bytes) : bool := bytes_eqb a b.

(** bytes.HasSuffix:
    [len(s) >= len(suffix) && Equal(s[len(s)-len(suffix):], suffix)] *)
Definition HasSuffix (s suffix : bytes) : bool :=
  (length suffix <=? length s) &&
  Equal (skipn (length s - length suffix) s) suffix.

(** ** Errors

    Go's [error] values that the driver can see or make. *)
Inductive error : Type :=
| ErrTimeout                  (* the port saw no byte within its read timeout *)
| ErrPort (code : nat)        (* any other error of the serial port *)
| EOF                         (* io.EOF *)
| ErrUnexpectedEOF            (* io.ErrUnexpectedEOF *)
| ErrorsNew (msg : bytes)     (* errors.New(msg) *)
| CorruptInputError           (* base64.CorruptInputError *)
| ErrWriter (code : nat)      (* an error of the io.Writer sink *)
| PathError (path : bytes).   (* *os.PathError of the local file system *)

(** ** The environment *)

(** What one [Port.Read] into a one-byte buffer delivers. *)
Inductive rd : Type :=
| Got (b : byte)
| Fail (e : error).

(** The operations the driver performs on its environment. *)
Inductive event : Type :=
| EvRead (r : rd)                              (* Port.Read *)
| EvWrite (data : bytes) (r : option error)    (* Port.Write *)
| EvSink (data : bytes) (r : option error)     (* w.Write *)
| EvFile (path : bytes) (data : bytes).        (* f.Write on a local file *)

(** The payloads of the port writes of a trace, in order. *)
Definition writes_of (tr : list event) : list bytes :=
  flat_map (fun e => match e with EvWrite d _ => [d] | _ => [] end) tr.

(** The chunks written to local files in a trace, in order. *)
Definition file_writes (tr : list event) : list bytes :=
  flat_map (fun e => match e with EvFile _ d => [d] | _ => [] end) tr.

(** An [io.Writer]: what it has received so far and how many more
    writes it accepts ([None]: any number, as a bytes.Buffer or a
    strings.Builder). *)
Record Writer : Type := mkWriter {
  wbuf : bytes;
  wroom : option nat
}.

Definition NewBuffer : Writer := mkWriter [] None.

(** An entry of the local file system. *)
Inductive node : Type :=
| File (content : bytes)
| Dir.

Definition Disk := bytes -> option node.

Definition disk_set (d : Disk) (path : bytes) (n : node) : Disk :=
  fun q => if bytes_eqb q path then Some n else d q.

(** ** Go library functions used by the driver *)

(** strings.TrimRight(s, " ") for a one-byte cutset. *)
Fixpoint TrimRight (s : bytes) (c : byte) : bytes :=
  match s with
  | [] => []
  | x :: s' =>
      match TrimRight s' c with
      | [] => if Byte.eqb x c then [] else [x]
      | t => x :: t
      end
  end.

(** strings.Split(s, " ") for a one-byte separator: the pieces between
    the separators, one more than there are separators. *)
Fixpoint Split (s : bytes) (sep : byte) : list bytes :=
  match s with
  | [] => [[]]
  | x :: s' =>
      if Byte.eqb x sep then [] :: Split s' sep
      else match Split s' sep with
           | piece :: pieces => (x :: piece) :: pieces
           | [] => [[x]]
           end
  end.

(** *** encoding/base64, StdEncoding (RFC 4648 with padding) *)

Definition encodeStd : bytes :=
  bs "ABCDEFGHIJKLMNOPQRSTUVWXYZabcdefghijklmnopqrstuvwxyz0123456789+/".

Definition padChar : byte := "="%byte.

(** [enc.encode[i]] *)
Definition enc6 (i : N) : byte := nth (N.to_nat i) encodeStd padChar.

Fixpoint index_of (c : byte) (l : bytes) (i : N) : option N :=
  match l with
  | [] => None
  | x :: l' => if Byte.eqb x c then Some i else index_of c l' (N.succ i)
  end.

(** [enc.decodeMap[c]], [None] for a byte outside the alphabet *)
Definition dec6 (c : byte) : option N := index_of c encodeStd 0%N.

(** [byte(n)] *)
Definition byte_of_N (n : N) : byte :=
  match Byte.of_N (n mod 256) with Some b => b | None => x00 end.

(** The 24-bit [val] of a group of input bytes, [a<<16 | b<<8 | c]. *)
Definition val3 (a b c : byte) : N :=
  (Byte.to_N a * 65536 + Byte.to_N b * 256 + Byte.to_N c)%N.

(** [val>>k & 0x3F] is [val / 2^k mod 64]. *)
Fixpoint EncodeToString (src : bytes) : bytes :=
  match src with
  | [] => []
  | [a] =>
      let val := val3 a x00 x00 in
      [enc6 (val / 262144); enc6 (val / 4096 mod 64); padChar; padChar]
  | [a; b] =>
      let val := val3 a b x00 in
      [enc6 (val / 262144); enc6 (val / 4096 mod 64); enc6 (val / 64 mod 64);
       padChar]
  | a :: b :: c :: rest =>
      let val := val3 a b c in
      [enc6 (val / 262144); enc6 (val / 4096 mod 64); enc6 (val / 64 mod 64);
       enc6 (val mod 64)] ++ EncodeToString rest
  end%N.

(** The 24-bit [val] of a group of decoded characters. *)
Definition val4 (d0 d1 d2 d3 : N) : N :=
  (d0 * 262144 + d1 * 4096 + d2 * 64 + d3)%N.

(** The groups of four characters of the input, the last one possibly
    padded; [None] on corrupt input. *)
Fixpoint decode_quanta (s : bytes) : option bytes :=
  match s with
  | [] => Some []
  | c0 :: c1 :: c2 :: c3 :: rest =>
      match rest, Byte.eqb c3 padChar with
      | [], true =>
          if Byte.eqb c2 padChar
          then match dec6 c0, dec6 c1 with
               | Some d0, Some d1 =>
                   let val := val4 d0 d1 0 0 in
                   Some [byte_of_N (val / 65536)]
               | _, _ => None
               end
          else match dec6 c0, dec6 c1, dec6 c2 with
               | Some d0, Some d1, Some d2 =>
                   let val := val4 d0 d1 d2 0 in
                   Some [byte_of_N (val / 65536); byte_of_N (val / 256)]
               | _, _, _ => None
               end
      | _, _ =>
          match dec6 c0, dec6 c1, dec6 c2, dec6 c3, decode_quanta rest with
          | Some d0, Some d1, Some d2, Some d3, Some out =>
              let val := val4 d0 d1 d2 d3 in
              Some (byte_of_N (val / 65536) :: byte_of_N (val / 256)
                    :: byte_of_N val :: out)
          | _, _, _, _, _ => None
          end
      end
  | _ => None
  end%N.

Definition is_newline (c : byte) : bool := Byte.eqb c CR || Byte.eqb c LF.

(** [base64.StdEncoding.DecodeString]: line breaks are skipped; the
    bytes decoded before a corrupt position are not modelled. *)
Definition DecodeString (s : bytes) : bytes * option error :=
  match decode_quanta (filter (fun c => negb (is_newline c)) s) with
  | Some x => (x, None)
  | None => ([], Some CorruptInputError)
  end.

(** ** The generated snippets *)

Definition TAB : byte := x09.

Definition cat_code (f : bytes) : bytes :=
  bs "with open(" ++ [DQ] ++ f ++ [DQ] ++ bs ") as f:" ++ [LF]
  ++ [TAB] ++ bs "while True:" ++ [LF]
  ++ [TAB; TAB] ++ bs "b = f.read(256)" ++ [LF]
  ++ [TAB; TAB] ++ bs "if not b:" ++ [LF]
  ++ [TAB; TAB; TAB] ++ bs "break" ++ [LF]
  ++ [TAB; TAB] ++ bs "print(b, end='')".

Definition cd_code (d : bytes) : bytes :=
  bs "import uos" ++ [LF] ++ bs "uos.chdir(" ++ [DQ] ++ d ++ [DQ] ++ bs ")".

Definition get_open_code (src : bytes) : bytes :=
  bs "from ubinascii import b2a_base64" ++ [LF]
  ++ bs "f=open(" ++ [DQ] ++ src ++ [DQ] ++ bs ",'rb')" ++ [LF].

Definition get_chunk_code : bytes :=
  bs "d=str(b2a_base64(f.read(256)),'ascii')" ++ [LF]
  ++ bs "print(d.strip(),end='')" ++ [LF].

Definition ls_code : bytes :=
  bs "import uos" ++ [LF]
  ++ bs "for f in uos.ilistdir('.'):" ++ [LF]
  ++ [TAB] ++ bs "print(f[0], end='/ ' if f[1] & 0x4000 else ' ')" ++ [LF].

Definition put_open_code (dst : bytes) : bytes :=
  bs "from ubinascii import a2b_base64" ++ [LF]
  ++ bs "f=open(" ++ [DQ] ++ dst ++ [DQ] ++ bs ",'wb')" ++ [LF]
  ++ bs "w=lambda x:f.write(a2b_base64(x))" ++ [LF].

Definition put_chunk_code (e : bytes) : bytes :=
  bs "w(" ++ [DQ] ++ e ++ [DQ] ++ bs ")" ++ [LF].

Definition put_close_code : bytes := bs "f.close()".

(** ** Local files *)

(** An open [*os.File]: its path and its offset. *)
Record OsFile : Type := mkOsFile {
  fpath : bytes;
  foff : nat
}.

(** The content of a file after [data] is written at offset [off]; a
    gap between the old end and [off] reads as zero bytes. *)
Definition write_at (old : bytes) (off : nat) (data : bytes) : bytes :=
  firstn off old ++ repeat x00 (off - length old) ++ data
  ++ skipn (off + length data) old.

Section Driver.

(** The remote end of the serial link: a state and its reaction to the
    bytes of one [Port.Write] (the outcome of the write, the next state,
    and what it sends back). *)
Context {Device : Type}.
Variable react : Device -> bytes -> option error * Device * list rd.

Record World : Type := mkWorld {
  rx : list rd;          (* what the port will deliver, oldest first *)
  dev : Device;
  disk : Disk;
  trace : list event     (* ghost: operations performed so far *)
}.

Definition log (evs : list event) (s : World) : World :=
  mkWorld (rx s) (dev s) (disk s) (trace s ++ evs).

(** [r.Port.Read(b)] with [len(b) = 1].  The port delivers one byte or
    an error, as the transport contract has it; when nothing is pending,
    the read times out with an error.  A read that returns neither a
    byte nor an error is not part of the model. *)
Definition Port_Read (s : World) : rd * World :=
  match rx s with
  | [] => (Fail ErrTimeout, log [EvRead (Fail ErrTimeout)] s)
  | r :: q => (r, mkWorld q (dev s) (disk s) (trace s ++ [EvRead r]))
  end.

(** [r.Port.Write(data)] *)
Definition Port_Write (data : bytes) (s : World) : option error * World :=
  let '(r, d, out) := react (dev s) data in
  (r, mkWorld (rx s ++ out) d (disk s) (trace s ++ [EvWrite data r])).

(** [w.Write(data)] *)
Definition Writer_Write (data : bytes) (w : Writer) : option error * Writer :=
  match wroom w with
  | Some 0 => (Some (ErrWriter 0), w)
  | Some (S k) => (None, mkWriter (wbuf w ++ data) (Some k))
  | None => (None, mkWriter (wbuf w ++ data) None)
  end.

(** ** ReadUntil

    The [for] loop of ReadUntil, by recursion on the pending input.
    [data] is the slice of the same name; with a writer it is set to the
    one-byte read buffer [b] in every iteration.  Returns the pair of
    results, the writer, the input left and the operations performed. *)
Fixpoint ReadUntil_loop (ending : bytes) (w : option Writer) (data : bytes)
    (q : list rd)
  : (option bytes * option error) * option Writer * list rd * list event :=
  match q with
  | [] => ((None, Some ErrTimeout), w, [], [EvRead (Fail ErrTimeout)])
  | Fail e :: q' => ((None, Some e), w, q', [EvRead (Fail e)])
  | Got b :: q' =>
      match w with
      | None =>
          let data := data ++ [b] in
          if HasSuffix data ending
          then ((Some data, None), None, q', [EvRead (Got b)])
          else
            let '(r, w', q'', evs) := ReadUntil_loop ending None data q' in
            (r, w', q'', EvRead (Got b) :: evs)
      | Some wr =>
          let '(err, wr, evw) :=
            if not_EOT b
            then let '(err, wr) := Writer_Write [b] wr in
                 (err, wr, [EvSink [b] err])
            else (None, wr, []) in
          match err with
          | Some e => ((None, Some e), Some wr, q', EvRead (Got b) :: evw)
          | None =>
              let data := [b] in
              if HasSuffix data ending
              then ((Some data, None), Some wr, q', EvRead (Got b) :: evw)
              else
                let '(r, w', q'', evs) :=
                  ReadUntil_loop ending (Some wr) data q' in
                (r, w', q'', EvRead (Got b) :: evw ++ evs)
          end
      end
  end.

Definition ReadUntil (ending : bytes) (w : option Writer) (s : World)
  : (option bytes * option error) * option Writer * World :=
  let '(r, w', q, evs) := ReadUntil_loop ending w [] (rx s) in
  (r, w', mkWorld q (dev s) (disk s) (trace s ++ evs)).

(** ** Mode controller *)

Definition banner_raw : bytes := bs "raw REPL; CTRL-B to exit" ++ [CR; LF].
Definition banner_reboot : bytes := bs "soft reboot" ++ [CR; LF].

Definition EnterRawMode (s : World) : option error * World :=
  let '(err, s) := Port_Write [CR; x01] s in
  match err with
  | Some e => (Some e, s)
  | None =>
      let '((_, err), _, s) := ReadUntil banner_raw None s in
      (err, s)
  end.

Definition ExitRawMode (s : World) : option error * World :=
  Port_Write [CR; x02] s.

Definition SoftReboot (s : World) : option error * World :=
  let '(err, s) := Port_Write [EOT] s in
  match err with
  | Some e => (Some e, s)
  | None =>
      let '((_, err), _, s) := ReadUntil banner_reboot None s in
      match err with
      | Some e => (Some e, s)
      | None =>
          let '((_, err), _, s) := ReadUntil banner_raw None s in
          (err, s)
      end
  end.

(** ** Executor *)

(** [io.ReadAtLeast(r.Port, resp, 2)] with [len(resp) = 2]: reads until
    two bytes have arrived or a read fails; an io.EOF after the first
    byte becomes io.ErrUnexpectedEOF.  The port hands over the pending
    bytes one per read; the bytes that end up in [resp] do not depend on
    how it groups them. *)
Definition ReadAtLeast2 (s : World) : (bytes * option error) * World :=
  match Port_Read s with
  | (Fail e, s) => (([], Some e), s)
  | (Got b0, s) =>
      match Port_Read s with
      | (Fail e, s) =>
          (([b0], Some match e with EOF => ErrUnexpectedEOF | _ => e end), s)
      | (Got b1, s) => (([b0; b1], None), s)
      end
  end.

Definition ExecRaw (code : bytes) (s : World) : option error * World :=
  let '((_, err), _, s) := ReadUntil (bs ">") None s in
  match err with
  | Some e => (Some e, s)
  | None =>
      let '(err, s) := Port_Write code s in
      match err with
      | Some e => (Some e, s)
      | None =>
          let '(err, s) := Port_Write [EOT] s in
          match err with
          | Some e => (Some e, s)
          | None =>
              let '((resp, err), s) := ReadAtLeast2 s in
              match err with
              | Some e => (Some e, s)
              | None =>
                  if negb (Equal resp (bs "OK"))
                  then (Some (ErrorsNew (bs "could not exec command")), s)
                  else (None, s)
              end
          end
      end
  end.

(** [len] of a slice; [None] is the nil slice. *)
Definition len (x : option bytes) : nat :=
  match x with Some l => length l | None => 0 end.

(** [if len(data) > 0 { data = data[:len(data)-1] }] *)
Definition trim_last (data : option bytes) : option bytes :=
  if 0 <? len data
  then option_map (fun l => firstn (length l - 1) l) data
  else data.

Definition Follow (w : option Writer) (s : World)
  : (option bytes * option bytes * option error) * option Writer * World :=
  let '((data, err), w, s) := ReadUntil [EOT] w s in
  match err with
  | Some e => ((None, None, Some e), w, s)
  | None =>
      let data := trim_last data in
      let '((dataErr, err), _, s) := ReadUntil [EOT] None s in
      match err with
      | Some e => ((None, None, Some e), w, s)
      | None =>
          let dataErr := trim_last dataErr in
          ((data, dataErr, None), w, s)
      end
  end.

(** [string(x)] of a slice *)
Definition string_of (x : option bytes) : bytes :=
  match x with Some l => l | None => [] end.

Definition Exec (code : bytes) (w : option Writer) (s : World)
  : (option bytes * option error) * option Writer * World :=
  let '(err, s) := ExecRaw code s in
  match err with
  | Some e => ((None, Some e), w, s)
  | None =>
      let '((data, dataErr, err), w, s) := Follow w s in
      match err with
      | Some e => ((None, Some e), w, s)
      | None =>
          if 0 <? len dataErr
          then ((None, Some (ErrorsNew (string_of dataErr))), w, s)
          else ((data, None), w, s)
      end
  end.

(** ** File-system commands *)

(** [b.String()] / [b.Bytes()] of the builder or buffer handed to Exec *)
Definition Bytes (w : option Writer) : bytes :=
  match w with Some b => wbuf b | None => [] end.

Definition Cat (w : option Writer) (f : bytes) (s : World)
  : option error * option Writer * World :=
  let '((_, err), w, s) := Exec (cat_code f) w s in
  (err, w, s).

Definition Cd (d : bytes) (s : World) : option error * World :=
  let '((_, err), _, s) := Exec (cd_code d) None s in
  (err, s).

Definition Ls (s : World) : (option (list bytes) * option error) * World :=
  let b := NewBuffer in
  let '((_, err), b, s) := Exec ls_code (Some b) s in
  match err with
  | Some e => ((None, Some e), s)
  | None =>
      let str := TrimRight (Bytes b) SP in
      ((Some (Split str SP), None), s)
  end.

(** [os.OpenFile(name, os.O_RDONLY, 0666)] *)
Definition OpenFile_RDONLY (name : bytes) (s : World)
  : option OsFile * option error :=
  match disk s name with
  | Some _ => (Some (mkOsFile name 0), None)
  | None => (None, Some (PathError name))
  end.

(** [os.OpenFile(name, os.O_WRONLY|os.O_CREATE, 0666)]: a missing file is
    created empty, an existing one is opened as it is. *)
Definition OpenFile_WRONLY_CREATE (name : bytes) (s : World)
  : (option OsFile * option error) * World :=
  match disk s name with
  | Some (File _) => ((Some (mkOsFile name 0), None), s)
  | Some Dir => ((None, Some (PathError name)), s)
  | None =>
      ((Some (mkOsFile name 0), None),
       mkWorld (rx s) (dev s) (disk_set (disk s) name (File [])) (trace s))
  end.

(** [f.Read(b)] with [len(b) = n] on a local file *)
Definition File_Read (n : nat) (f : OsFile) (s : World)
  : (bytes * option error) * OsFile :=
  match disk s (fpath f) with
  | Some (File content) =>
      match skipn (foff f) content with
      | [] => (([], Some EOF), f)
      | rest =>
          let got := firstn n rest in
          ((got, None), mkOsFile (fpath f) (foff f + length got))
      end
  | _ => (([], Some (PathError (fpath f))), f)
  end.

(** [f.Write(x)] on a local file *)
Definition File_Write (x : bytes) (f : OsFile) (s : World)
  : option error * OsFile * World :=
  match disk s (fpath f) with
  | Some (File content) =>
      (None, mkOsFile (fpath f) (foff f + length x),
       mkWorld (rx s) (dev s)
         (disk_set (disk s) (fpath f) (File (write_at content (foff f) x)))
         (trace s ++ [EvFile (fpath f) x]))
  | _ => (Some (PathError (fpath f)), f, s)
  end.

(** The [for] loop of Get.  It runs until the remote end sends an empty
    chunk or an operation fails; [None] when [fuel] iterations were not
    enough. *)
Fixpoint Get_loop (fuel : nat) (f : OsFile) (s : World)
  : option (option error * World) :=
  match fuel with
  | 0 => None
  | S fuel =>
      let b := NewBuffer in
      let '((_, err), b, s) := Exec get_chunk_code (Some b) s in
      match err with
      | Some e => Some (Some e, s)
      | None =>
          let '(x, err) := DecodeString (Bytes b) in
          match err with
          | Some e => Some (Some e, s)
          | None =>
              if length x =? 0 then Some (None, s)
              else
                let '(_, f, s) := File_Write x f s in
                Get_loop fuel f s
          end
      end
  end.

Definition Get (fuel : nat) (dst src : bytes) (s : World)
  : option (option error * World) :=
  let '((f, err), s) := OpenFile_WRONLY_CREATE dst s in
  match err, f with
  | None, Some f =>
      let '((_, err), _, s) := Exec (get_open_code src) None s in
      match err with
      | Some e => Some (Some e, s)
      | None => Get_loop fuel f s
      end
  | Some e, _ => Some (Some e, s)
  | None, None => Some (None, s)
  end.

(** The [for] loop of Put; [None] when [fuel] iterations were not
    enough. *)
Fixpoint Put_loop (fuel : nat) (f : OsFile) (s : World)
  : option (option error * World) :=
  match fuel with
  | 0 => None
  | S fuel =>
      let '((b, err), f) := File_Read 256 f s in
      match err with
      | Some EOF => Some (None, s)
      | Some e => Some (Some e, s)
      | None =>
          let e := EncodeToString b in
          let '((_, err), _, s) := Exec (put_chunk_code e) None s in
          match err with
          | Some e => Some (Some e, s)
          | None => Put_loop fuel f s
          end
      end
  end.

Definition Put (fuel : nat) (dst src : bytes) (s : World)
  : option (option error * World) :=
  match OpenFile_RDONLY src s with
  | (_, Some e) => Some (Some e, s)
  | (None, None) => Some (None, s)
  | (Some f, None) =>
      let '((_, err), _, s) := Exec (put_open_code dst) None s in
      match err with
      | Some e => Some (Some e, s)
      | None =>
          match Put_loop fuel f s with
          | None => None
          | Some (Some e, s) => Some (Some e, s)
          | Some (None, s) =>
              let '((_, err), _, s) := Exec put_close_code None s in
              Some (err, s)
          end
      end
  end.

(** What the remote end sends for one snippet: the prompt is pending or
    arrives after [pre], both writes are accepted, and then "OK" and the
    two streams follow. *)
Definition answers (st : World) (code pre out err : bytes)
    (d : Device) (q : list rd) : Prop :=
  exists q0 d1 o1 o2,
    rx st = map Got (pre ++ bs ">") ++ q0 /\
    ~ In ">"%byte pre /\
    react (dev st) code = (None, d1, o1) /\
    react d1 [EOT] = (None, d, o2) /\
    q0 ++ o1 ++ o2
      = map Got (bs "OK" ++ out ++ [EOT] ++ err ++ [EOT]) ++ q /\
    ~ In EOT out /\ ~ In EOT err.

(** [st'] differs from [st] by port traffic only. *)
Definition port_only (st st' : World) : Prop :=
  disk st' = disk st /\
  exists evs, trace st' = trace st ++ evs /\ file_writes evs = [].

End Driver.

(** ** A remote interpreter

    The remote end that the file transfer is written against: an
    interpreter in raw mode that collects the bytes it receives up to
    the end-of-snippet byte, answers "OK", runs the snippet, sends its
    output and its error text, each closed by 0x04, and prompts again.
    It knows the five snippets of Get and Put and the primitives they
    call (open, read, write, close, b2a_base64, a2b_base64), which is
    all the driver assumes of the remote runtime; any other snippet, and
    a path that does not fit a string literal, is answered with an error
    text. *)
Module MicroPython.

(** The object bound to the remote variable [f]. *)
Inductive pyfile : Type :=
| PyWriting (name : bytes)     (* open(name, 'wb') *)
| PyReading (rest : bytes)     (* open(name, 'rb'), and what is left to read *)
| PyClosed.

Record Interp : Type := mkInterp {
  inbuf : bytes;                       (* the snippet received so far *)
  files : bytes -> option bytes;       (* the remote file system *)
  fvar : option pyfile;                (* the global f *)
  wvar : bool                          (* whether the helper w is bound *)
}.

Inductive stmt : Type :=
| SPutOpen (name : bytes)
| SPutChunk (e : bytes)
| SPutClose
| SGetOpen (name : bytes)
| SGetChunk
| SOther.

Fixpoint strip_prefix (p s : bytes) : option bytes :=
  match p, s with
  | [], _ => Some s
  | x :: p', y :: s' => if Byte.eqb x y then strip_prefix p' s' else None
  | _ :: _, [] => None
  end.

(** A byte that stands for itself inside a double-quoted literal. *)
Definition plain (c : byte) : bool :=
  negb (Byte.eqb c DQ) && negb (Byte.eqb c "\"%byte)
  && (32 <=? Byte.to_N c)%N.

(** The body of a string literal up to its closing quote, and what
    follows the quote. *)
Fixpoint literal (s : bytes) : option (bytes * bytes) :=
  match s with
  | [] => None
  | c :: s' =>
      if Byte.eqb c DQ then Some ([], s')
      else if plain c
           then match literal s' with
                | Some (body, rest) => Some (c :: body, rest)
                | None => None
                end
           else None
  end.

Definition put_open_pre : bytes :=
  bs "from ubinascii import a2b_base64" ++ [LF] ++ bs "f=open(" ++ [DQ].
Definition put_open_suf : bytes :=
  bs ",'wb')" ++ [LF] ++ bs "w=lambda x:f.write(a2b_base64(x))" ++ [LF].
Definition get_open_pre : bytes :=
  bs "from ubinascii import b2a_base64" ++ [LF] ++ bs "f=open(" ++ [DQ].
Definition get_open_suf : bytes := bs ",'rb')" ++ [LF].
Definition put_chunk_pre : bytes := bs "w(" ++ [DQ].
Definition put_chunk_suf : bytes := bs ")" ++ [LF].

Definition parse_quoted (pre suf code : bytes) : option bytes :=
  match strip_prefix pre code with
  | Some r =>
      match literal r with
      | Some (body, rest) => if bytes_eqb rest suf then Some body else None
      | None => None
      end
  | None => None
  end.

Definition parse (code : bytes) : stmt :=
  match parse_quoted put_open_pre put_open_suf code with
  | Some name => SPutOpen name
  | None =>
  match parse_quoted get_open_pre get_open_suf code with
  | Some name => SGetOpen name
  | None =>
  match parse_quoted put_chunk_pre put_chunk_suf code with
  | Some e => SPutChunk e
  | None =>
      if bytes_eqb code put_close_code then SPutClose
      else if bytes_eqb code get_chunk_code then SGetChunk
      else SOther
  end end end.

Definition set_file (fs : bytes -> option bytes) (name content : bytes)
  : bytes -> option bytes :=
  fun q => if bytes_eqb q name then Some content else fs q.

Definition traceback : bytes := bs "Traceback (most recent call last):".

(** The effect of one snippet: the next state, the output and the error
    text. *)
Definition run (st : stmt) (m : Interp) : Interp * bytes * bytes :=
  match st with
  | SPutOpen name =>
      (mkInterp [] (set_file (files m) name []) (Some (PyWriting name)) true,
       [], [])
  | SPutChunk e =>
      match wvar m, fvar m, decode_quanta e with
      | true, Some (PyWriting name), Some x =>
          let old := match files m name with Some c => c | None => [] end in
          (mkInterp [] (set_file (files m) name (old ++ x)) (fvar m) true,
           [], [])
      | _, _, _ => (mkInterp [] (files m) (fvar m) (wvar m), [], traceback)
      end
  | SPutClose =>
      match fvar m with
      | Some _ => (mkInterp [] (files m) (Some PyClosed) (wvar m), [], [])
      | None => (mkInterp [] (files m) None (wvar m), [], traceback)
      end
  | SGetOpen name =>
      match files m name with
      | Some content =>
          (mkInterp [] (files m) (Some (PyReading content)) (wvar m), [], [])
      | None => (mkInterp [] (files m) (fvar m) (wvar m), [], traceback)
      end
  | SGetChunk =>
      match fvar m with
      | Some (PyReading rest) =>
          (mkInterp [] (files m) (Some (PyReading (skipn 256 rest))) (wvar m),
           EncodeToString (firstn 256 rest), [])
      | _ => (mkInterp [] (files m) (fvar m) (wvar m), [], traceback)
      end
  | SOther => (mkInterp [] (files m) (fvar m) (wvar m), [], traceback)
  end.

Definition reply (out err : bytes) : list rd :=
  map Got (bs "OK" ++ out ++ [EOT] ++ err ++ [EOT] ++ bs ">").

(** The bytes of one write, one after the other. *)
Fixpoint feed (data : bytes) (m : Interp) : Interp * list rd :=
  match data with
  | [] => (m, [])
  | c :: data' =>
      if Byte.eqb c EOT
      then
        let '(m1, out, err) := run (parse (inbuf m)) m in
        let '(m2, sent) := feed data' m1 in
        (m2, reply out err ++ sent)
      else
        feed data' (mkInterp (inbuf m ++ [c]) (files m) (fvar m) (wvar m))
  end.

Definition react (m : Interp) (data : bytes)
  : option error * Interp * list rd :=
  let '(m', sent) := feed data m in (None, m', sent).

(** The remote end in raw mode, waiting at its prompt. *)
Definition boot (fs : bytes -> option bytes) : Interp :=
  mkInterp [] fs None false.

Definition world (fs : bytes -> option bytes) (d : Disk) : World :=
  mkWorld [Got ">"%byte] (boot fs) d [].

(** The remote end waits at its prompt with nothing collected. *)
Definition ready (st : @World Interp) : Prop :=
  rx st = [Got ">"%byte] /\ inbuf (dev st) = [].

End MicroPython.

(** ** Vocabulary of the statements *)

(** [s] is the shortest non-empty prefix of itself that ends with
    [ending]: reading [s] byte by byte, the bytes read so far end with
    [ending] for the first time when all of [s] has been read. *)
Definition first_hit (ending s : bytes) : Prop :=
  s <> [] /\ HasSuffix s ending = true /\
  forall k, 0 < k < length s -> HasSuffix (firstn k s) ending = false.

Definition reads (s : bytes) : list event := map (fun b => EvRead (Got b)) s.

(** Reading [s] with a writer: every byte other than 0x04 is written
    right after it was read. *)
Definition forwarded (s : bytes) : list event :=
  flat_map (fun b => EvRead (Got b) ::
                     if not_EOT b then [EvSink [b] None] else []) s.

(** A writer that never refuses a write. *)
Definition accepting (w : option Writer) : Prop :=
  match w with Some wr => wroom wr = None | None => True end.

(** The operations of one complete execution: the prompt is awaited,
    the snippet and the end-of-snippet byte are written, the
    acknowledgement and the two streams are read. *)
Definition exec_events (pre code : bytes) (w : option Writer) (out err : bytes)
  : list event :=
  reads (pre ++ bs ">")
  ++ [EvWrite code None; EvWrite [EOT] None]
  ++ reads (bs "OK")
  ++ match w with None => reads out | Some _ => forwarded out end
  ++ reads [EOT] ++ reads (err ++ [EOT]).

Definition write_to (w : option Writer) (data : bytes) : option Writer :=
  match w with
  | Some wr => Some (mkWriter (wbuf wr ++ data) (wroom wr))
  | None => None
  end.

(** [l] cut into pieces of [n] bytes, the last one possibly shorter. *)
Fixpoint chunks_fuel (fuel n : nat) (l : bytes) : list bytes :=
  match fuel, l with
  | S fuel, _ :: _ => firstn n l :: chunks_fuel fuel n (skipn n l)
  | _, _ => []
  end.

Definition chunks (n : nat) (l : bytes) : list bytes :=
  chunks_fuel (length l) n l.

(** The operations of Put and of Get when every execution succeeds. *)
Definition put_chunk_events (ch : bytes) : list event :=
  exec_events [] (put_chunk_code (EncodeToString ch)) None [] [].

Definition put_events (dst c : bytes) : list event :=
  exec_events [] (put_open_code dst) None [] []
  ++ flat_map put_chunk_events (chunks 256 c)
  ++ exec_events [] put_close_code None [] [].

Definition get_chunk_events (dst ch : bytes) : list event :=
  exec_events [] get_chunk_code (Some NewBuffer) (EncodeToString ch) []
  ++ [EvFile dst ch].

Definition get_last_events : list event :=
  exec_events [] get_chunk_code (Some NewBuffer) [] [].

Definition get_events (dst src c : bytes) : list event :=
  exec_events [] (get_open_code src) None [] []
  ++ flat_map (get_chunk_events dst) (chunks 256 c)
  ++ get_last_events.

(** Events of the port reads and of the writer. *)
Definition io_event (e : event) : bool :=
  match e with EvRead _ | EvSink _ _ => true | _ => false end.

(** A port with nothing behind it: every write succeeds and nothing is
    ever sent back beyond what is already pending. *)
Definition silent (d : unit) (data : bytes) : option error * unit * list rd :=
  (None, d, []).

Definition no_disk : Disk := fun _ => None.

(** A character of the encoded text other than the padding: it stands
    for itself in a string literal and is no line break. *)
Definition base64_char (c : byte) : bool :=
  MicroPython.plain c && negb (is_newline c) && negb (Byte.eqb c padChar)
  && not_EOT c.

(** A byte that may travel inside a quoted literal of a snippet and in
    the output stream. *)
Definition wire_char (c : byte) : bool :=
  MicroPython.plain c && negb (is_newline c) && not_EOT c.

(** The input after the bytes read so far makes the next read fail:
    an error is pending, or nothing is and the port times out. *)
Definition read_fails (tail : list rd) (e : error) (q : list rd) : Prop :=
  tail = Fail e :: q \/ (tail = [] /\ e = ErrTimeout /\ q = []).

(** No prefix of [s] ends with [ending]. *)
Definition no_hit (ending s : bytes) : Prop :=
  forall k, 0 < k <= length s -> HasSuffix (firstn k s) ending = false.

(** [first_hit] as a test. *)
Definition first_hitb (ending s : bytes) : bool :=
  negb (length s =? 0) && HasSuffix s ending
  && forallb (fun k => negb (HasSuffix (firstn k s) ending))
       (seq 1 (length s - 1)).

(** A world whose port has [input] pending and nothing behind it. *)
Definition pending (input : list rd) : @World unit :=
  mkWorld input tt no_disk [].

(** Local files of the examples: "a.py" holds "hi" and "b.py" holds ten
    digits. *)
Definition two_files : Disk :=
  disk_set (disk_set no_disk (bs "a.py") (File (bs "hi")))
    (bs "b.py") (File (bs "0123456789")).

(** A file of 300 bytes. *)
Definition bytes_300 : bytes := repeat "a"%byte 300.

Definition one_file_300 : Disk := disk_set no_disk (bs "a.py") (File bytes_300).

(** ** The other commands of the driver *)

Definition cwd_code : bytes :=
  bs "import uos" ++ [LF] ++ bs "print(uos.getcwd(),end='')".

Definition mkdir_code (d : bytes) : bytes :=
  bs "import uos" ++ [LF] ++ bs "uos.mkdir('" ++ d ++ bs "')".

Definition rm_code (f : bytes) : bytes :=
  bs "import uos" ++ [LF] ++ bs "uos.remove(" ++ [DQ] ++ f ++ [DQ] ++ bs ")".

Definition rmdir_code (d : bytes) : bytes :=
  bs "import uos" ++ [LF] ++ bs "uos.rmdir('" ++ d ++ bs "')".

(** An entry of [ioutil.ReadDir]: its [Name()] and [IsDir()]. *)
Record FileInfo : Type := mkFileInfo {
  Name : bytes;
  IsDir : bool
}.

(** The line that [fmt.Println("Uploading", fn, "...")] prints. *)
Definition uploading_line (fn : bytes) : bytes :=
  bs "Uploading " ++ fn ++ bs " ..." ++ [LF].

Section Commands.

Context {Device : Type}.
Variable react : Device -> bytes -> option error * Device * list rd.

(** Connect, once [serial.OpenPort] has returned [opened]: the two
    interrupts are sent on the open port. *)
Definition Connect (opened : option error) (s : @World Device)
  : option error * @World Device :=
  match opened with
  | Some e => (Some e, s)
  | None => Port_Write react [CR; x03; x03] s
  end.

Definition Mkdir (d : bytes) (s : @World Device)
  : option error * @World Device :=
  let '((_, err), _, s) := Exec react (mkdir_code d) None s in
  (err, s).

Definition Cwd (s : @World Device) : (bytes * option error) * @World Device :=
  let b := NewBuffer in
  let '((_, err), b, s) := Exec react cwd_code (Some b) s in
  match err with
  | Some e => (([], Some e), s)
  | None => ((Bytes b, None), s)
  end.

Definition Rm (f : bytes) (s : @World Device)
  : option error * @World Device :=
  let '((_, err), _, s) := Exec react (rm_code f) None s in
  (err, s).

Definition Rmdir (d : bytes) (s : @World Device)
  : option error * @World Device :=
  let '((_, err), _, s) := Exec react (rmdir_code d) None s in
  (err, s).

(** The [for] loop of Upload over the entries of the local directory;
    [out] collects the lines printed.  [None] when a Put ran out of
    [fuel]. *)
Fixpoint Upload_loop (fuel : nat) (fs : list FileInfo) (out : list bytes)
    (s : @World Device)
  : option (option error * list bytes * @World Device) :=
  match fs with
  | [] => Some (None, out, s)
  | f :: fs' =>
      if IsDir f then Upload_loop fuel fs' out s
      else
        let fn := Name f in
        let out := out ++ [uploading_line fn] in
        match Put react fuel fn fn s with
        | None => None
        | Some (Some e, s) => Some (Some e, out, s)
        | Some (None, s) => Upload_loop fuel fs' out s
        end
  end.

(** Upload, given what [ioutil.ReadDir(".")] returned. *)
Definition Upload (fuel : nat) (dir : list FileInfo * option error)
    (s : @World Device)
  : option (option error * list bytes * @World Device) :=
  match dir with
  | (_, Some e) => Some (Some e, [], s)
  | (fs, None) => Upload_loop fuel fs [] s
  end.

(** [cmdReboot] of main.go: connect, enter raw mode, reboot; the
    deferred ExitRawMode runs last and its result is dropped. *)
Definition cmdReboot (opened : option error) (s : @World Device)
  : option error * @World Device :=
  let '(err, s) := Connect opened s in
  match err with
  | Some e => (Some e, s)
  | None =>
      let '(err, s) := EnterRawMode react s in
      match err with
      | Some e => (Some e, s)
      | None =>
          let '(err, s) := SoftReboot react s in
          let '(_, s) := ExitRawMode react s in
          (err, s)
      end
  end.

End Commands.

(** ** More vocabulary of the statements *)

(** strings.Join for a one-byte separator. *)
Fixpoint Join (l : list bytes) (sep : byte) : bytes :=
  match l with
  | [] => []
  | [x] => x
  | x :: l' => x ++ sep :: Join l' sep
  end.

(** The entry [p] is the name of a regular file of the listing. *)
Definition uploaded (fs : list FileInfo) (p : bytes) : bool :=
  existsb (fun f => negb (IsDir f) && bytes_eqb (Name f) p) fs.

(** The port writes of one execution of each chunk. *)
Definition put_chunk_writes (c : bytes) : list bytes :=
  flat_map (fun ch => [put_chunk_code (EncodeToString ch); [EOT]])
    (chunks 256 c).

Definition get_chunk_writes (c : bytes) : list bytes :=
  flat_map (fun _ => [get_chunk_code; [EOT]]) (chunks 256 c).

(** No byte of [s] alone ends with [ending]. *)
Definition no_byte_hit (ending s : bytes) : Prop :=
  forall x, In x s -> HasSuffix [x] ending = false.

(** Linear arithmetic with division by constants. *)
Ltac div_mod_lia := zify; Z.to_euclidean_division_equations; lia.

(** ** Byte strings: basic facts *)

Lemma byte_eqb_refl (b : byte) : Byte.eqb b b = true.
Proof. now apply Byte.byte_dec_lb. Qed.

Lemma byte_eqb_eq (a b : byte) : Byte.eqb a b = true <-> a = b.
Proof.
  split; [apply Byte.byte_dec_bl | intros ->; apply byte_eqb_refl].
Qed.

Lemma byte_eqb_neq (a b : byte) : Byte.eqb a b = false <-> a <> b.
Proof.
  rewrite <- byte_eqb_eq. destruct (Byte.eqb a b); split; congruence.
Qed.

Lemma bytes_eqb_eq (a b : bytes) : bytes_eqb a b = true <-> a = b.
Proof.
  revert b; induction a as [|x a IH]; intros [|y b]; simpl;
    try (split; congruence).
  rewrite andb_true_iff, byte_eqb_eq, IH. split.
  - now intros [-> ->].
  - intros H; injection H; auto.
Qed.

Lemma bytes_eqb_refl (a : bytes) : bytes_eqb a a = true.
Proof. now apply bytes_eqb_eq. Qed.

Lemma bytes_eqb_neq (a b : bytes) : bytes_eqb a b = false <-> a <> b.
Proof.
  rewrite <- bytes_eqb_eq. destruct (bytes_eqb a b); split; congruence.
Qed.

Lemma HasSuffix_spec (s t : bytes) :
  HasSuffix s t = true <-> exists p, s = p ++ t.
Proof.
  unfold HasSuffix, Equal. rewrite andb_true_iff, Nat.leb_le, bytes_eqb_eq.
  split.
  - intros [_ H]. exists (firstn (length s - length t) s).
    pose proof (firstn_skipn (length s - length t) s) as E.
    rewrite H in E. now symmetry.
  - intros [p ->]. rewrite length_app. split; [lia|].
    replace (length p + length t - length t) with (length p + 0) by lia.
    now rewrite skipn_app, Nat.add_0_r, skipn_all, Nat.sub_diag.
Qed.

Lemma HasSuffix_last_byte (l : bytes) (b t : byte) :
  HasSuffix (l ++ [b]) [t] = Byte.eqb b t.
Proof.
  destruct (Byte.eqb b t) eqn:E.
  - apply byte_eqb_eq in E; subst. apply HasSuffix_spec. now exists l.
  - apply byte_eqb_neq in E.
    destruct (HasSuffix (l ++ [b]) [t]) eqn:H; [|reflexivity].
    apply HasSuffix_spec in H. destruct H as [p H].
    apply app_inj_tail in H. destruct H; congruence.
Qed.

Lemma HasSuffix_one (b t : byte) : HasSuffix [b] [t] = Byte.eqb b t.
Proof. apply (HasSuffix_last_byte [] b t). Qed.

Lemma HasSuffix_short (s t : bytes) :
  length s < length t -> HasSuffix s t = false.
Proof.
  intros H. unfold HasSuffix.
  destruct (Nat.leb_spec (length t) (length s)); [lia | reflexivity].
Qed.

(** First occurrence of a byte, in terms of [first_hit]. *)
Lemma first_hit_one (t : byte) (s : bytes) :
  first_hit [t] s <-> exists s0, s = s0 ++ [t] /\ ~ In t s0.
Proof.
  split.
  - intros (Hne & Hs & Hmin).
    apply HasSuffix_spec in Hs. destruct Hs as [s0 ->].
    exists s0; split; [reflexivity|]. intros Hin.
    apply in_split in Hin. destruct Hin as (l1 & l2 & ->).
    specialize (Hmin (S (length l1))).
    assert (E : firstn (S (length l1)) ((l1 ++ t :: l2) ++ [t]) = l1 ++ [t]).
    { rewrite <- app_assoc.
      replace (S (length l1)) with (length l1 + 1) by lia.
      now rewrite firstn_app_2. }
    rewrite E, HasSuffix_last_byte, byte_eqb_refl in Hmin.
    assert (true = false); [|discriminate].
    apply Hmin. rewrite !length_app. simpl. lia. 
  - intros (s0 & -> & Hnin). repeat split.
    + now destruct s0.
    + apply HasSuffix_spec. now exists s0.
    + intros k Hk. rewrite length_app in Hk. simpl in Hk.
      rewrite firstn_app.
      replace (k - length s0) with 0 by lia. simpl. rewrite app_nil_r.
      destruct (firstn k s0) as [|x l] eqn:E using rev_ind.
      * reflexivity.
      * rewrite HasSuffix_last_byte. apply byte_eqb_neq. intros ->.
        apply Hnin. rewrite <- (firstn_skipn k s0), E.
        apply in_or_app; left. apply in_or_app; right; now left.
Qed.
(** ** The framing reader *)

Section FramingFacts.

Variable ending : bytes.

(** Without a writer the loop stops at the first position where the
    accumulated bytes end with [ending]. *)
Lemma ReadUntil_loop_acc_hit (s data : bytes) (q : list rd) :
  s <> [] ->
  HasSuffix (data ++ s) ending = true ->
  (forall k, 0 < k < length s ->
             HasSuffix (data ++ firstn k s) ending = false) ->
  ReadUntil_loop ending None data (map Got s ++ q)
  = ((Some (data ++ s), None), None, q, reads s).
Proof.
  revert data; induction s as [|b s IH]; intros data Hne Hs Hmin;
    [congruence|].
  simpl. destruct s as [|b' s].
  - rewrite Hs. reflexivity.
  - pose proof (Hmin 1) as H1. simpl in H1. rewrite H1 by lia.
    rewrite IH.
    + now rewrite <- app_assoc.
    + discriminate.
    + now rewrite <- app_assoc.
    + intros k Hk. rewrite <- app_assoc. apply (Hmin (S k)). simpl in *; lia.
Qed.

Lemma ReadUntil_loop_acc_inv (q : list rd) :
  forall data d e w' q' evs,
  ReadUntil_loop ending None data q = ((d, e), w', q', evs) ->
  w' = None /\
  ((exists s, d = Some (data ++ s) /\ e = None /\
              q = map Got s ++ q' /\ evs = reads s /\
              s <> [] /\ HasSuffix (data ++ s) ending = true /\
              forall k, 0 < k < length s ->
                        HasSuffix (data ++ firstn k s) ending = false)
   \/ (exists s err, d = None /\ e = Some err /\
              evs = reads s ++ [EvRead (Fail err)] /\
              (q = map Got s ++ Fail err :: q' \/
               q = map Got s /\ q' = [] /\ err = ErrTimeout) /\
              forall k, 0 < k <= length s ->
                        HasSuffix (data ++ firstn k s) ending = false)).
Proof.
  induction q as [|r q IH]; intros data d e w' q' evs H; simpl in H.
  - injection H as <- <- <- <- <-. split; [reflexivity|]. right.
    exists [], ErrTimeout. repeat split; auto. simpl; intros; lia.
  - destruct r as [b|err].
    + destruct (HasSuffix (data ++ [b]) ending) eqn:Hb.
      * injection H as <- <- <- <- <-. split; [reflexivity|]. left.
        exists [b]. repeat split; auto; try discriminate.
        simpl; intros; lia.
      * destruct (ReadUntil_loop ending None (data ++ [b]) q)
          as [[[[d1 e1] w1] q1] evs1] eqn:E.
        injection H as <- <- <- <- <-.
        apply IH in E. destruct E as [-> E]. split; [reflexivity|].
        destruct E as [(s & -> & -> & -> & -> & Hne & Hs & Hmin)
                      |(s & err & -> & -> & -> & Hq & Hmin)].
        -- left. exists (b :: s). rewrite <- app_assoc in *.
           repeat split; auto; try discriminate.
           intros [|[|k]] Hk; simpl in *; try lia; auto.
           specialize (Hmin (S k)). rewrite <- app_assoc in Hmin.
           apply Hmin. lia.
        -- right. exists (b :: s), err. repeat split; auto.
           ++ destruct Hq as [-> | (-> & -> & ->)]; [left|right]; auto.
           ++ intros [|[|k]] Hk; simpl in *; try lia; auto.
              specialize (Hmin (S k)). rewrite <- app_assoc in Hmin.
              apply Hmin. lia.
    + injection H as <- <- <- <- <-. split; [reflexivity|]. right.
      exists [], err. repeat split; auto. simpl; intros; lia.
Qed.

(** With a writer only the byte just read is compared with [ending],
    and every byte other than 0x04 is written as soon as it is read. *)
Lemma Writer_Write_accepting (wr : Writer) (data : bytes) :
  wroom wr = None ->
  Writer_Write data wr = (None, mkWriter (wbuf wr ++ data) None).
Proof. unfold Writer_Write. now intros ->. Qed.

Lemma ReadUntil_loop_sink_hit (s0 : bytes) (b : byte) :
  forall (wr : Writer) (data : bytes) (q : list rd),
  wroom wr = None ->
  (forall x, In x s0 -> HasSuffix [x] ending = false) ->
  HasSuffix [b] ending = true ->
  ReadUntil_loop ending (Some wr) data (map Got (s0 ++ [b]) ++ q)
  = ((Some [b], None),
     Some (mkWriter (wbuf wr ++ filter not_EOT (s0 ++ [b])) None),
     q, forwarded (s0 ++ [b])).
Proof.
  induction s0 as [|x s0 IH]; intros wr data q Hroom Hmiss Hhit; simpl.
  - destruct (not_EOT b); simpl.
    + rewrite Writer_Write_accepting by assumption. now rewrite Hhit.
    + rewrite Hhit, app_nil_r. destruct wr; simpl in *; now subst.
  - assert (Hmiss' : forall y, In y s0 -> HasSuffix [y] ending = false)
      by (intros y Hy; apply Hmiss; now right).
    destruct (not_EOT x); simpl.
    + rewrite Writer_Write_accepting by assumption.
      rewrite (Hmiss x) by now left.
      rewrite IH by (simpl; auto).
      simpl. now rewrite <- app_assoc.
    + rewrite (Hmiss x) by now left.
      now rewrite IH by assumption.
Qed.

Lemma Writer_Write_inv (wr wr' : Writer) (data : bytes) (r : option error) :
  Writer_Write data wr = (r, wr') ->
  (r = None /\ wbuf wr' = wbuf wr ++ data) \/
  (r <> None /\ wr' = wr).
Proof.
  unfold Writer_Write. destruct (wroom wr) as [[|k]|]; intros H;
    injection H as <- <-; simpl; auto.
  right; split; [discriminate | reflexivity].
Qed.

Lemma ReadUntil_loop_sink_inv (q : list rd) :
  forall wr data d e w' q' evs,
  ReadUntil_loop ending (Some wr) data q = ((d, e), w', q', evs) ->
  exists s wr',
    w' = Some wr' /\ wbuf wr' = wbuf wr ++ filter not_EOT s /\
    ((exists s0 b, s = s0 ++ [b] /\ d = Some [b] /\ e = None /\
                   q = map Got s ++ q' /\ evs = forwarded s /\
                   HasSuffix [b] ending = true /\
                   forall x, In x s0 -> HasSuffix [x] ending = false)
     \/ (exists err, d = None /\ e = Some err /\
                     evs = forwarded s ++ [EvRead (Fail err)] /\
                     (q = map Got s ++ Fail err :: q' \/
                      q = map Got s /\ q' = [] /\ err = ErrTimeout) /\
                     forall x, In x s -> HasSuffix [x] ending = false)
     \/ (exists b err, d = None /\ e = Some err /\ not_EOT b = true /\
                       q = map Got s ++ Got b :: q' /\
                       evs = forwarded s
                             ++ [EvRead (Got b); EvSink [b] (Some err)] /\
                       forall x, In x s -> HasSuffix [x] ending = false)).
Proof.
  induction q as [|r q IH]; intros wr data d e w' q' evs H; simpl in H.
  - injection H as <- <- <- <- <-. exists [], wr. simpl.
    rewrite app_nil_r. repeat split. right; left.
    exists ErrTimeout. repeat split; auto. intros x [].
  - destruct r as [b|err].
    2:{ injection H as <- <- <- <- <-. exists [], wr. simpl.
        rewrite app_nil_r. repeat split. right; left.
        exists err. repeat split; auto. intros x []. }
    destruct (not_EOT b) eqn:Hb.
    + destruct (Writer_Write [b] wr) as [r1 wr1] eqn:Hw.
      apply Writer_Write_inv in Hw.
      destruct r1 as [err|].
      * injection H as <- <- <- <- <-.
        destruct Hw as [[Hw _]|[_ ->]]; [discriminate|].
        exists [], wr. simpl. rewrite app_nil_r. repeat split.
        right; right. exists b, err. repeat split; auto. intros x [].
      * destruct Hw as [[_ Hw]|[Hw _]]; [|congruence].
        destruct (HasSuffix [b] ending) eqn:Hhit.
        -- injection H as <- <- <- <- <-.
           exists [b], wr1. simpl. rewrite Hb.
           repeat split; auto. left. exists [], b.
           repeat split; auto. intros x [].
        -- destruct (ReadUntil_loop ending (Some wr1) [b] q)
             as [[[[d1 e1] w1] q1] evs1] eqn:E.
           injection H as <- <- <- <- <-.
           apply IH in E. destruct E as (s & wr2 & -> & Hbuf & Hcases).
           exists (b :: s), wr2. simpl. rewrite Hb.
           split; [reflexivity|]. split.
           { rewrite Hbuf, Hw. now rewrite <- app_assoc. }
           destruct Hcases as [(s0 & c & -> & -> & -> & -> & -> & Hh & Hm)
                              |[(err & -> & -> & -> & Hq & Hm)
                               |(c & err & -> & -> & Hc & -> & -> & Hm)]].
           ++ left. exists (b :: s0), c. repeat split; auto.
              intros x [<-|Hx]; auto.
           ++ right; left. exists err. repeat split; auto.
              ** destruct Hq as [-> | (-> & -> & ->)]; [left|right]; auto.
              ** intros x [<-|Hx]; auto.
           ++ right; right. exists c, err. repeat split; auto.
              intros x [<-|Hx]; auto.
    + destruct (HasSuffix [b] ending) eqn:Hhit.
      * injection H as <- <- <- <- <-.
        exists [b], wr. simpl. rewrite Hb. simpl.
        rewrite app_nil_r.
        repeat split; auto. left. exists [], b.
        repeat split; auto. intros x [].
      * destruct (ReadUntil_loop ending (Some wr) [b] q)
          as [[[[d1 e1] w1] q1] evs1] eqn:E.
        injection H as <- <- <- <- <-.
        apply IH in E. destruct E as (s & wr2 & -> & Hbuf & Hcases).
        exists (b :: s), wr2. simpl. rewrite Hb.
        split; [reflexivity|]. split; [assumption|].
        destruct Hcases as [(s0 & c & -> & -> & -> & -> & -> & Hh & Hm)
                           |[(err & -> & -> & -> & Hq & Hm)
                            |(c & err & -> & -> & Hc & -> & -> & Hm)]].
        -- left. exists (b :: s0), c. repeat split; auto.
           intros x [<-|Hx]; auto.
        -- right; left. exists err. repeat split; auto.
           ++ destruct Hq as [-> | (-> & -> & ->)]; [left|right]; auto.
           ++ intros x [<-|Hx]; auto.
        -- right; right. exists c, err. repeat split; auto.
           intros x [<-|Hx]; auto.
Qed.

End FramingFacts.

(** ** The executor *)

Lemma reads_app (a b : bytes) : reads (a ++ b) = reads a ++ reads b.
Proof. apply map_app. Qed.

Lemma forwarded_app (a b : bytes) :
  forwarded (a ++ b) = forwarded a ++ forwarded b.
Proof. apply flat_map_app. Qed.

Lemma filter_not_EOT (s : bytes) : ~ In EOT s -> filter not_EOT s = s.
Proof.
  induction s as [|x s IH]; simpl; intros H; [reflexivity|].
  unfold not_EOT at 1.
  destruct (Byte.eqb x EOT) eqn:E; simpl.
  - apply byte_eqb_eq in E. tauto.
  - rewrite IH; tauto.
Qed.

Lemma trim_last_snoc (l : bytes) (b : byte) :
  trim_last (Some (l ++ [b])) = Some l.
Proof.
  unfold trim_last; simpl. rewrite length_app; simpl.
  destruct (Nat.ltb_spec 0 (length l + 1)); [|lia]. simpl.
  replace (length l + 1 - 1) with (length l + 0) by lia.
  now rewrite firstn_app_2, app_nil_r.
Qed.

Section ExecutorFacts.

Context {Device : Type}.
Variable react : Device -> bytes -> option error * Device * list rd.
Local Abbreviation World := (@World Device).

Lemma ReadUntil_acc_hit (ending s : bytes) (q : list rd) (st : World) :
  rx st = map Got s ++ q ->
  first_hit ending s ->
  ReadUntil ending None st
  = ((Some s, None), None,
     mkWorld q (dev st) (disk st) (trace st ++ reads s)).
Proof.
  intros Hrx (Hne & Hs & Hmin). unfold ReadUntil.
  rewrite Hrx, (@ReadUntil_loop_acc_hit ending s [] q); auto.
Qed.

(** Reading up to the first occurrence of a byte, with or without a
    writer. *)
Lemma ReadUntil_byte (t : byte) (w : option Writer) (s0 : bytes)
    (q : list rd) (st : World) :
  rx st = map Got (s0 ++ [t]) ++ q ->
  ~ In t s0 ->
  accepting w ->
  ReadUntil [t] w st
  = ((Some match w with None => s0 ++ [t] | Some _ => [t] end, None),
     write_to w (filter not_EOT (s0 ++ [t])),
     mkWorld q (dev st) (disk st)
       (trace st ++ match w with
                    | None => reads (s0 ++ [t])
                    | Some _ => forwarded (s0 ++ [t])
                    end)).
Proof.
  intros Hrx Hnin Hw. destruct w as [wr|].
  - unfold ReadUntil. rewrite Hrx.
    rewrite ReadUntil_loop_sink_hit; simpl in *; auto.
    + now rewrite Hw.
    + intros x Hx. rewrite HasSuffix_one. apply byte_eqb_neq.
      intros ->; auto.
    + rewrite HasSuffix_one. apply byte_eqb_refl.
  - apply ReadUntil_acc_hit; auto.
    apply first_hit_one. now exists s0.
Qed.

Lemma Port_Write_eq (data : bytes) (st : World) r d out :
  react (dev st) data = (r, d, out) ->
  Port_Write react data st
  = (r, mkWorld (rx st ++ out) d (disk st) (trace st ++ [EvWrite data r])).
Proof. unfold Port_Write. now intros ->. Qed.

(** ExecRaw when the prompt arrives, both writes succeed and two bytes
    follow. *)
Lemma ExecRaw_ack (code pre : bytes) (st : World) q0 d1 o1 d2 o2 b0 b1 q3 :
  rx st = map Got (pre ++ bs ">") ++ q0 ->
  ~ In ">"%byte pre ->
  react (dev st) code = (None, d1, o1) ->
  react d1 [EOT] = (None, d2, o2) ->
  q0 ++ o1 ++ o2 = Got b0 :: Got b1 :: q3 ->
  ExecRaw react code st
  = (if Equal [b0; b1] (bs "OK") then None
     else Some (ErrorsNew (bs "could not exec command")),
     mkWorld q3 d2 (disk st)
       (trace st ++ reads (pre ++ bs ">")
        ++ [EvWrite code None; EvWrite [EOT] None] ++ reads [b0; b1])).
Proof.
  intros Hrx Hpre H1 H2 Hq. unfold ExecRaw.
  change (bs ">") with [">"%byte] in *.
  rewrite (@ReadUntil_byte ">"%byte None pre q0 st Hrx Hpre I).
  cbn [write_to].
  erewrite Port_Write_eq by (simpl; eassumption).
  erewrite Port_Write_eq by (simpl; eassumption).
  unfold ReadAtLeast2, Port_Read. cbn [rx dev disk trace].
  rewrite <- app_assoc, Hq. cbn [rx dev disk trace].
  rewrite <- !app_assoc. simpl.
  now destruct (Byte.eqb b0 "O"), (Byte.eqb b1 "K").
Qed.

(** Follow when the two streams arrive, each closed by 0x04. *)
Lemma Follow_streams (w : option Writer) (out err : bytes) (q : list rd)
    (st : World) :
  rx st = map Got (out ++ [EOT] ++ err ++ [EOT]) ++ q ->
  ~ In EOT out -> ~ In EOT err ->
  accepting w ->
  Follow w st
  = ((Some match w with None => out | Some _ => [] end, Some err, None),
     write_to w out,
     mkWorld q (dev st) (disk st)
       (trace st ++ match w with None => reads out | Some _ => forwarded out end
        ++ reads [EOT] ++ reads (err ++ [EOT]))).
Proof.
  intros Hrx Hout Herr Hw. unfold Follow.
  assert (Hrx1 : rx st = map Got (out ++ [EOT])
                          ++ (map Got (err ++ [EOT]) ++ q)).
  { rewrite Hrx, !map_app, <- !app_assoc. reflexivity. }
  rewrite (@ReadUntil_byte EOT w out _ st Hrx1 Hout Hw).
  erewrite ReadUntil_byte with (w := None) (s0 := err) (q := q);
    [| reflexivity | assumption | exact I].
  cbn [rx dev disk trace write_to].
  rewrite filter_app, (filter_not_EOT out Hout). simpl. rewrite app_nil_r.
  rewrite trim_last_snoc.
  destruct w as [wr|]; simpl.
  - rewrite forwarded_app, <- !app_assoc. reflexivity.
  - rewrite trim_last_snoc, reads_app, <- !app_assoc. reflexivity.
Qed.

Lemma Exec_answers (code pre out err : bytes) (w : option Writer)
    (st : World) (d : Device) (q : list rd) :
  answers react st code pre out err d q ->
  accepting w ->
  Exec react code w st
  = (match err with
     | [] => (Some match w with None => out | Some _ => [] end, None)
     | _ :: _ => (None, Some (ErrorsNew err))
     end,
     write_to w out,
     mkWorld q d (disk st) (trace st ++ exec_events pre code w out err)).
Proof.
  intros (q0 & d1 & o1 & o2 & Hrx & Hpre & H1 & H2 & Hq & Hout & Herr) Hw.
  unfold Exec.
  rewrite (@ExecRaw_ack code pre st q0 d1 o1 d o2 "O"%byte "K"%byte
             (map Got (out ++ [EOT] ++ err ++ [EOT]) ++ q)); auto.
  change (Equal ["O"%byte; "K"%byte] (bs "OK")) with true. cbv iota.
  erewrite Follow_streams; [| reflexivity | assumption .. ].
  cbn [rx dev disk trace].
  unfold exec_events. rewrite <- !app_assoc.
  destruct err as [|e0 err]; reflexivity.
Qed.

End ExecutorFacts.

(** ** base64: decoding undoes encoding *)

Lemma enc6_facts (i : N) :
  (i < 64)%N -> dec6 (enc6 i) = Some i /\ base64_char (enc6 i) = true.
Proof.
  intros H.
  assert (E : exists n, n < 64 /\ i = N.of_nat n).
  { exists (N.to_nat i). split; [lia | now rewrite N2Nat.id]. }
  destruct E as (n & Hn & ->). clear H.
  do 64 (destruct n as [|n]; [vm_compute; auto|]). lia.
Qed.

Lemma dec6_enc6 (i : N) : (i < 64)%N -> dec6 (enc6 i) = Some i.
Proof. intros H; now apply enc6_facts. Qed.

Lemma enc6_not_pad (i : N) : (i < 64)%N -> Byte.eqb (enc6 i) padChar = false.
Proof.
  intros H. destruct (enc6_facts H) as [_ G]. unfold base64_char in G.
  rewrite !andb_true_iff, !negb_true_iff in G. tauto.
Qed.

Lemma byte_of_N_eq (n : N) (a : byte) :
  (n mod 256 = Byte.to_N a)%N -> byte_of_N n = a.
Proof. unfold byte_of_N. intros ->. now rewrite Byte.of_to_N. Qed.

Lemma sextets_bounded (v : N) :
  (v < 16777216 ->
   v / 262144 < 64 /\ v / 4096 mod 64 < 64 /\
   v / 64 mod 64 < 64 /\ v mod 64 < 64)%N.
Proof. intros H. split; [|split; [|split]]; div_mod_lia. Qed.

Lemma val4_val3 (v : N) :
  (v < 16777216 ->
   val4 (v / 262144) (v / 4096 mod 64) (v / 64 mod 64) (v mod 64) = v)%N.
Proof. intros H. unfold val4. div_mod_lia. Qed.

Section Quantum.

Variables a b c : byte.
Let A := Byte.to_N a.
Let B := Byte.to_N b.
Let C := Byte.to_N c.

Lemma val3_bounded : (val3 a b c < 16777216)%N.
Proof.
  unfold val3.
  pose proof (Byte.to_N_bounded a). pose proof (Byte.to_N_bounded b).
  pose proof (Byte.to_N_bounded c). lia.
Qed.

Lemma val3_bytes :
  ((val3 a b c / 65536) mod 256 = A /\
   (val3 a b c / 256) mod 256 = B /\
   val3 a b c mod 256 = C)%N.
Proof.
  unfold val3, A, B, C.
  pose proof (Byte.to_N_bounded a). pose proof (Byte.to_N_bounded b).
  pose proof (Byte.to_N_bounded c).
  split; [|split]; div_mod_lia.
Qed.

End Quantum.

Lemma list_ind3 (P : bytes -> Prop) :
  P [] -> (forall a, P [a]) -> (forall a b, P [a; b]) ->
  (forall a b c l, P l -> P (a :: b :: c :: l)) ->
  forall l, P l.
Proof.
  intros H0 H1 H2 H3.
  fix IH 1.
  intros [|a [|b [|c l]]]; [apply H0 | apply H1 | apply H2 | apply H3, IH].
Qed.

Lemma enc6_wire (i : N) : (i < 64)%N -> wire_char (enc6 i) = true.
Proof.
  intros H. destruct (enc6_facts H) as [_ G]. unfold base64_char in G.
  unfold wire_char. rewrite !andb_true_iff in *. tauto.
Qed.

Lemma EncodeToString_wire (x : bytes) :
  forallb wire_char (EncodeToString x) = true.
Proof.
  induction x as [|a|a b|a b c l IH] using list_ind3.
  - reflexivity.
  - destruct (sextets_bounded (val3_bounded a x00 x00)) as (? & ? & ? & ?).
    cbn [EncodeToString forallb]. rewrite !enc6_wire by assumption.
    reflexivity.
  - destruct (sextets_bounded (val3_bounded a b x00)) as (? & ? & ? & ?).
    cbn [EncodeToString forallb]. rewrite !enc6_wire by assumption.
    reflexivity.
  - destruct (sextets_bounded (val3_bounded a b c)) as (? & ? & ? & ?).
    cbn [EncodeToString forallb app]. rewrite !enc6_wire by assumption.
    exact IH.
Qed.

Lemma EncodeToString_nil (x : bytes) : EncodeToString x = [] -> x = [].
Proof. destruct x as [|a [|b [|c l]]]; simpl; congruence. Qed.

(** Decoding an encoded text gives the bytes back. *)
Lemma decode_encode (x : bytes) : decode_quanta (EncodeToString x) = Some x.
Proof.
  induction x as [|a|a b|a b c l IH] using list_ind3.
  - reflexivity.
  - pose proof (val3_bounded a x00 x00) as Hv.
    destruct (sextets_bounded Hv) as (H0 & H1 & H2 & H3).
    cbn [EncodeToString decode_quanta].
    change (Byte.eqb padChar padChar) with true. cbv iota.
    rewrite !dec6_enc6 by assumption.
    f_equal. f_equal. apply byte_of_N_eq.
    destruct (val3_bytes a x00 x00) as (E & _). rewrite <- E.
    unfold val4. clear E. div_mod_lia.
  - pose proof (val3_bounded a b x00) as Hv.
    destruct (sextets_bounded Hv) as (H0 & H1 & H2 & H3).
    cbn [EncodeToString decode_quanta].
    change (Byte.eqb padChar padChar) with true. cbv iota.
    rewrite (enc6_not_pad H2), !dec6_enc6 by assumption.
    destruct (val3_bytes a b x00) as (E1 & E2 & _).
    f_equal. f_equal; [|f_equal]; apply byte_of_N_eq.
    + rewrite <- E1. unfold val4. clear E1 E2. div_mod_lia.
    + rewrite <- E2. unfold val4. clear E1 E2. div_mod_lia.
  - pose proof (val3_bounded a b c) as Hv.
    destruct (sextets_bounded Hv) as (H0 & H1 & H2 & H3).
    cbn [EncodeToString decode_quanta app].
    rewrite (enc6_not_pad H3), !dec6_enc6, IH by assumption.
    rewrite (val4_val3 Hv).
    destruct (val3_bytes a b c) as (E1 & E2 & E3).
    destruct (EncodeToString l);
      (f_equal; f_equal; [|f_equal; [|f_equal]]; now apply byte_of_N_eq).
Qed.

Lemma filter_wire (x : bytes) :
  forallb wire_char x = true ->
  filter (fun c => negb (is_newline c)) x = x.
Proof.
  induction x as [|c x IH]; simpl; intros H; [reflexivity|].
  apply andb_true_iff in H. destruct H as [Hc Hx].
  unfold wire_char in Hc. rewrite !andb_true_iff in Hc.
  destruct Hc as [[_ ->] _]. now rewrite IH.
Qed.

Lemma DecodeString_EncodeToString (x : bytes) :
  DecodeString (EncodeToString x) = (x, None).
Proof.
  unfold DecodeString.
  now rewrite (filter_wire _ (EncodeToString_wire x)), decode_encode.
Qed.

(** ** The remote interpreter: parsing and running the snippets *)

Module MicroPythonFacts.
Import MicroPython.

Lemma strip_prefix_app (p r : bytes) : strip_prefix p (p ++ r) = Some r.
Proof.
  induction p as [|x p IH]; simpl; [reflexivity|].
  now rewrite byte_eqb_refl.
Qed.

Lemma plain_not_DQ (c : byte) : plain c = true -> Byte.eqb c DQ = false.
Proof.
  unfold plain. rewrite !andb_true_iff, !negb_true_iff. tauto.
Qed.

Lemma literal_app (body rest : bytes) :
  forallb plain body = true ->
  literal (body ++ DQ :: rest) = Some (body, rest).
Proof.
  induction body as [|c body IH]; simpl; intros H.
  - reflexivity.
  - apply andb_true_iff in H. destruct H as [Hc Hb].
    now rewrite (plain_not_DQ _ Hc), Hc, IH.
Qed.

Lemma parse_quoted_app (pre suf body : bytes) :
  forallb plain body = true ->
  parse_quoted pre suf (pre ++ body ++ DQ :: suf) = Some body.
Proof.
  intros H. unfold parse_quoted.
  now rewrite strip_prefix_app, literal_app, bytes_eqb_refl.
Qed.

Lemma parse_put_open (name : bytes) :
  forallb plain name = true -> parse (put_open_code name) = SPutOpen name.
Proof.
  intros H. unfold parse.
  change (put_open_code name)
    with (put_open_pre ++ name ++ DQ :: put_open_suf).
  now rewrite parse_quoted_app.
Qed.

Lemma parse_get_open (name : bytes) :
  forallb plain name = true -> parse (get_open_code name) = SGetOpen name.
Proof.
  intros H. unfold parse.
  change (parse_quoted put_open_pre put_open_suf (get_open_code name))
    with (@None bytes).
  change (get_open_code name)
    with (get_open_pre ++ name ++ DQ :: get_open_suf).
  now rewrite parse_quoted_app.
Qed.

Lemma parse_put_chunk (e : bytes) :
  forallb plain e = true -> parse (put_chunk_code e) = SPutChunk e.
Proof.
  intros H. unfold parse.
  change (parse_quoted put_open_pre put_open_suf (put_chunk_code e))
    with (@None bytes).
  change (parse_quoted get_open_pre get_open_suf (put_chunk_code e))
    with (@None bytes).
  change (put_chunk_code e)
    with (put_chunk_pre ++ e ++ DQ :: put_chunk_suf).
  now rewrite parse_quoted_app.
Qed.

Lemma parse_put_close : parse put_close_code = SPutClose.
Proof. reflexivity. Qed.

Lemma parse_get_chunk : parse get_chunk_code = SGetChunk.
Proof. reflexivity. Qed.

Lemma plain_not_EOT (c : byte) : plain c = true -> not_EOT c = true.
Proof. destruct c; try reflexivity; discriminate. Qed.

Lemma forallb_plain_not_EOT (l : bytes) :
  forallb plain l = true -> forallb not_EOT l = true.
Proof.
  rewrite !forallb_forall. intros H x Hx. now apply plain_not_EOT, H.
Qed.

Lemma wire_plain (l : bytes) :
  forallb wire_char l = true -> forallb plain l = true.
Proof.
  rewrite !forallb_forall. intros H x Hx. specialize (H x Hx).
  unfold wire_char in H. rewrite !andb_true_iff in H. tauto.
Qed.

Lemma not_EOT_notin (l : bytes) : forallb not_EOT l = true -> ~ In EOT l.
Proof.
  rewrite forallb_forall. intros H Hin. specialize (H _ Hin). discriminate.
Qed.

Lemma put_open_code_not_EOT (name : bytes) :
  forallb plain name = true -> forallb not_EOT (put_open_code name) = true.
Proof.
  intros H. unfold put_open_code.
  rewrite !forallb_app, (forallb_plain_not_EOT _ H). reflexivity.
Qed.

Lemma get_open_code_not_EOT (name : bytes) :
  forallb plain name = true -> forallb not_EOT (get_open_code name) = true.
Proof.
  intros H. unfold get_open_code.
  rewrite !forallb_app, (forallb_plain_not_EOT _ H). reflexivity.
Qed.

Lemma put_chunk_code_not_EOT (e : bytes) :
  forallb plain e = true -> forallb not_EOT (put_chunk_code e) = true.
Proof.
  intros H. unfold put_chunk_code.
  rewrite !forallb_app, (forallb_plain_not_EOT _ H). reflexivity.
Qed.

(** A snippet without 0x04 is only collected. *)
Lemma feed_collect (code : bytes) :
  forall m, forallb not_EOT code = true ->
  feed code m = (mkInterp (inbuf m ++ code) (files m) (fvar m) (wvar m), []).
Proof.
  induction code as [|c code IH]; simpl; intros m H.
  - rewrite app_nil_r. now destruct m.
  - apply andb_true_iff in H. destruct H as [Hc Hcode].
    unfold not_EOT in Hc. apply negb_true_iff in Hc. rewrite Hc.
    rewrite IH by assumption. simpl. now rewrite <- app_assoc.
Qed.

Lemma run_inbuf (st : stmt) (m : Interp) (buf : bytes) :
  run st (mkInterp buf (files m) (fvar m) (wvar m)) = run st m.
Proof.
  destruct st; simpl; try reflexivity.
Qed.

Lemma ready_answers (st : @World Interp) (code out err : bytes) (m : Interp) :
  ready st ->
  forallb not_EOT code = true ->
  run (parse code) (dev st) = (m, out, err) ->
  ~ In EOT out -> ~ In EOT err ->
  answers react st code [] out err m [Got ">"%byte].
Proof.
  intros [Hrx Hbuf] Hcode Hrun Hout Herr.
  exists [], (mkInterp code (files (dev st)) (fvar (dev st)) (wvar (dev st))),
         [], (reply out err).
  repeat split; auto.
  - unfold react. rewrite feed_collect by assumption.
    now rewrite Hbuf.
  - unfold react. simpl. rewrite run_inbuf, Hrun. now rewrite app_nil_r.
  - simpl. unfold reply. rewrite !map_app. simpl.
    rewrite <- app_assoc. simpl. now rewrite map_app, <- app_assoc.
Qed.

End MicroPythonFacts.

(** ** Traces of complete executions *)

Lemma writes_of_app (a b : list event) :
  writes_of (a ++ b) = writes_of a ++ writes_of b.
Proof. apply flat_map_app. Qed.

Lemma file_writes_app (a b : list event) :
  file_writes (a ++ b) = file_writes a ++ file_writes b.
Proof. apply flat_map_app. Qed.

Lemma writes_of_reads (s : bytes) : writes_of (reads s) = [].
Proof. induction s; simpl; auto. Qed.

Lemma file_writes_reads (s : bytes) : file_writes (reads s) = [].
Proof. induction s; simpl; auto. Qed.

Lemma writes_of_forwarded (s : bytes) : writes_of (forwarded s) = [].
Proof.
  induction s as [|b s IH]; simpl; auto.
  rewrite writes_of_app, IH. now destruct (not_EOT b).
Qed.

Lemma file_writes_forwarded (s : bytes) : file_writes (forwarded s) = [].
Proof.
  induction s as [|b s IH]; simpl; auto.
  rewrite file_writes_app, IH. now destruct (not_EOT b).
Qed.

Lemma writes_of_exec_events pre code w out err :
  writes_of (exec_events pre code w out err) = [code; [EOT]].
Proof.
  unfold exec_events. rewrite !writes_of_app, !writes_of_reads.
  destruct w; now rewrite ?writes_of_forwarded, ?writes_of_reads.
Qed.

Lemma file_writes_exec_events pre code w out err :
  file_writes (exec_events pre code w out err) = [].
Proof.
  unfold exec_events. rewrite !file_writes_app, !file_writes_reads.
  destruct w; now rewrite ?file_writes_forwarded, ?file_writes_reads.
Qed.

(** ** Chunks *)

Lemma chunks_fuel_any (n : nat) :
  0 < n ->
  forall f1 f2 l, length l <= f1 -> length l <= f2 ->
  chunks_fuel f1 n l = chunks_fuel f2 n l.
Proof.
  intros Hn. induction f1 as [|f1 IH]; intros f2 l H1 H2.
  - destruct l; [|simpl in H1; lia]. now destruct f2.
  - destruct l as [|x l]; [now destruct f2|].
    destruct f2 as [|f2]; [simpl in H2; lia|].
    cbn [chunks_fuel]. f_equal.
    assert (length (skipn n (x :: l)) <= length l).
    { rewrite length_skipn. cbn [length]. lia. }
    simpl in H1, H2. apply IH; lia.
Qed.

Lemma chunks_nil (n : nat) : chunks n [] = [].
Proof. reflexivity. Qed.

Lemma chunks_cons (n : nat) (l : bytes) :
  0 < n -> l <> [] ->
  chunks n l = firstn n l :: chunks n (skipn n l).
Proof.
  intros Hn Hl. unfold chunks. destruct l as [|x l]; [congruence|].
  cbn [length chunks_fuel]. f_equal.
  apply chunks_fuel_any; auto.
  rewrite length_skipn. cbn [length]. lia.
Qed.

Lemma skipn_length_firstn (n : nat) (l : bytes) :
  skipn (length (firstn n l)) l = skipn n l.
Proof.
  rewrite length_firstn. destruct (Nat.le_ge_cases n (length l)).
  - now rewrite Nat.min_l.
  - rewrite Nat.min_r by assumption. now rewrite skipn_all, skipn_all2.
Qed.

Lemma write_at_append (w old x : bytes) :
  write_at (w ++ skipn (length w) old) (length w) x
  = (w ++ x) ++ skipn (length (w ++ x)) old.
Proof.
  unfold write_at.
  rewrite firstn_app, firstn_all, Nat.sub_diag, firstn_O, app_nil_r.
  rewrite length_app.
  replace (length w - (length w + length (skipn (length w) old))) with 0
    by lia.
  rewrite skipn_app, skipn_all2 by lia.
  replace (length w + length x - length w) with (length x) by lia.
  rewrite skipn_skipn, length_app. simpl.
  now rewrite <- app_assoc, (Nat.add_comm (length x)).
Qed.

(** ** File transfer against the remote interpreter *)

Module TransferFacts.
Import MicroPython MicroPythonFacts.

Local Abbreviation World := (@World Interp).

Lemma Exec_ready (st : World) (code out err : bytes) (m : Interp)
    (w : option Writer) :
  ready st ->
  forallb not_EOT code = true ->
  run (parse code) (dev st) = (m, out, err) ->
  ~ In EOT out -> ~ In EOT err ->
  accepting w ->
  Exec react code w st
  = (match err with
     | [] => (Some match w with None => out | Some _ => [] end, None)
     | _ :: _ => (None, Some (ErrorsNew err))
     end,
     write_to w out,
     mkWorld [Got ">"%byte] m (disk st)
       (trace st ++ exec_events [] code w out err)).
Proof.
  intros Hr Hcode Hrun Hout Herr Hw.
  apply Exec_answers; auto. now apply ready_answers.
Qed.

Lemma Put_loop_ready (src dst c : bytes) :
  forall fuel rest off (st : World) done,
  ready st ->
  disk st src = Some (File c) ->
  skipn off c = rest ->
  fvar (dev st) = Some (PyWriting dst) ->
  wvar (dev st) = true ->
  files (dev st) dst = Some done ->
  length rest < fuel ->
  exists st',
    Put_loop react fuel (mkOsFile src off) st = Some (None, st') /\
    ready st' /\ disk st' = disk st /\
    fvar (dev st') = Some (PyWriting dst) /\
    wvar (dev st') = true /\
    files (dev st') dst = Some (done ++ rest) /\
    (forall p, p <> dst -> files (dev st') p = files (dev st) p) /\
    trace st' = trace st ++ flat_map put_chunk_events (chunks 256 rest).
Proof.
  induction fuel as [|fuel IH];
    intros rest off st done Hr Hdisk Hrest Hf Hw Hfiles Hfuel; [lia|].
  cbn [Put_loop]. unfold File_Read. cbn [fpath foff].
  rewrite Hdisk, Hrest.
  destruct rest as [|x rest'] eqn:Erest.
  - exists st. rewrite !app_nil_r. repeat split; auto; apply Hr.
  - rewrite <- Erest in *. set (got := firstn 256 rest).
    assert (Hwire := EncodeToString_wire got).
    assert (Hplain := wire_plain _ Hwire).
    erewrite Exec_ready with (out := []) (err := []);
      [ | assumption
        | now apply put_chunk_code_not_EOT
        | rewrite (parse_put_chunk _ Hplain); cbn [run];
          rewrite Hw, Hf, decode_encode, Hfiles; reflexivity
        | intros [] | intros [] | exact I ].
    cbv iota.
    match goal with
    | |- context [Put_loop _ _ _ ?s1] => set (st1 := s1)
    end.
    destruct (IH (skipn 256 rest) (off + length got) st1 (done ++ got))
      as (st' & Hloop & Hr' & Hd' & Hf' & Hw' & Hfs' & Hother & Htr);
      subst st1; cbn [rx dev disk trace inbuf files fvar wvar]; auto.
    + split; reflexivity.
    + rewrite Nat.add_comm, <- skipn_skipn, Hrest. apply skipn_length_firstn.
    + unfold set_file. now rewrite bytes_eqb_refl.
    + rewrite length_skipn. rewrite Erest in *. cbn [length] in *. lia.
    + exists st'. rewrite Hloop.
      cbn [rx dev disk trace inbuf files fvar wvar] in *.
      repeat split; auto; try apply Hr'.
      * rewrite Hfs', <- app_assoc. unfold got. now rewrite firstn_skipn.
      * intros p Hp. rewrite (Hother p Hp). unfold set_file.
        apply bytes_eqb_neq in Hp. now rewrite Hp.
      * rewrite Htr, <- app_assoc. rewrite (@chunks_cons 256 rest).
        -- reflexivity.
        -- lia.
        -- rewrite Erest; discriminate.
Qed.


Lemma Put_ready (dst src c : bytes) (fuel : nat) (st : World) :
  ready st ->
  forallb plain dst = true ->
  disk st src = Some (File c) ->
  length c < fuel ->
  exists st',
    Put react fuel dst src st = Some (None, st') /\
    ready st' /\ disk st' = disk st /\
    files (dev st') dst = Some c /\
    (forall p, p <> dst -> files (dev st') p = files (dev st) p) /\
    trace st' = trace st ++ put_events dst c.
Proof.
  intros Hr Hdst Hdisk Hfuel. unfold Put, OpenFile_RDONLY.
  rewrite Hdisk.
  erewrite Exec_ready with (out := []) (err := []);
    [ | assumption
      | now apply put_open_code_not_EOT
      | rewrite (parse_put_open _ Hdst); reflexivity
      | intros [] | intros [] | exact I ].
  cbv iota.
  match goal with
  | |- context [Put_loop _ _ _ ?s1] => set (st1 := s1)
  end.
  destruct (@Put_loop_ready src dst c fuel c 0 st1 [])
    as (st2 & Hloop & Hr2 & Hd2 & Hf2 & Hw2 & Hfs2 & Hother & Htr);
    subst st1; cbn [rx dev disk trace inbuf files fvar wvar]; auto.
  { split; reflexivity. }
  { unfold set_file. now rewrite bytes_eqb_refl. }
  rewrite Hloop.
  erewrite Exec_ready with (out := []) (err := []);
    [ | assumption
      | reflexivity
      | rewrite parse_put_close; cbn [run]; rewrite Hf2; reflexivity
      | intros [] | intros [] | exact I ].
  eexists. split; [reflexivity|].
  cbn [rx dev disk trace inbuf files fvar wvar] in *.
  repeat split; auto.
  - intros p Hp. rewrite (Hother p Hp). unfold set_file.
    apply bytes_eqb_neq in Hp. now rewrite Hp.
  - rewrite Htr. unfold put_events. now rewrite <- !app_assoc.
Qed.

Lemma Get_loop_ready (dst old : bytes) :
  forall fuel rest (st : World) written,
  ready st ->
  fvar (dev st) = Some (PyReading rest) ->
  disk st dst = Some (File (written ++ skipn (length written) old)) ->
  length rest < fuel ->
  exists st',
    Get_loop react fuel (mkOsFile dst (length written)) st
    = Some (None, st') /\
    ready st' /\
    disk st' dst
    = Some (File ((written ++ rest)
                  ++ skipn (length (written ++ rest)) old)) /\
    (forall p, p <> dst -> disk st' p = disk st p) /\
    files (dev st') = files (dev st) /\
    trace st' = trace st ++ flat_map (get_chunk_events dst) (chunks 256 rest)
                ++ get_last_events.
Proof.
  induction fuel as [|fuel IH];
    intros rest st written Hr Hf Hdisk Hfuel; [lia|].
  cbn [Get_loop].
  set (got := firstn 256 rest).
  assert (Hsplit : got ++ skipn 256 rest = rest) by apply firstn_skipn.
  assert (Hwire := EncodeToString_wire got).
  assert (HnoEOT : ~ In EOT (EncodeToString got)).
  { apply not_EOT_notin. apply forallb_plain_not_EOT.
    now apply wire_plain. }
  erewrite Exec_ready with (out := EncodeToString got) (err := []);
    [ | assumption
      | reflexivity
      | rewrite parse_get_chunk; cbn [run]; rewrite Hf; reflexivity
      | assumption | intros [] | reflexivity ].
  cbv iota. cbn [write_to NewBuffer wbuf wroom Bytes app].
  rewrite DecodeString_EncodeToString.
  assert (Hcase : rest = [] \/ rest <> [])
    by (destruct rest; [now left | right; discriminate]).
  destruct Hcase as [Erest | Erest].
  - subst rest got. cbn [firstn length Nat.eqb].
    eexists. split; [reflexivity|].
    cbn [rx dev disk trace inbuf files fvar wvar].
    rewrite !app_nil_r. repeat split; auto.
  - assert (Hgot : (length got =? 0) = false).
    { apply Nat.eqb_neq. unfold got. destruct rest; [congruence|].
      cbn. lia. }
    rewrite Hgot. unfold File_Write. cbn [fpath foff rx dev disk trace].
    rewrite Hdisk, write_at_append, <- length_app.
    match goal with
    | |- context [Get_loop _ _ _ ?s1] => set (st1 := s1)
    end.
    destruct (IH (skipn 256 rest) st1 (written ++ got))
      as (st' & Hloop & Hr' & Hd' & Hother & Hfs' & Htr);
      subst st1; cbn [rx dev disk trace inbuf files fvar wvar]; auto.
    + split; reflexivity.
    + unfold disk_set. now rewrite bytes_eqb_refl.
    + rewrite length_skipn. destruct rest; [congruence|].
      cbn [length] in *. lia.
    + exists st'. rewrite Hloop.
      cbn [rx dev disk trace inbuf files fvar wvar] in *.
      repeat split; auto; try apply Hr'.
      * rewrite Hd'. now rewrite <- (app_assoc written), Hsplit.
      * intros p Hp. rewrite (Hother p Hp). unfold disk_set.
        apply bytes_eqb_neq in Hp. now rewrite Hp.
      * rewrite Htr. rewrite (@chunks_cons 256 rest); [ | lia | assumption ].
        cbn [flat_map]. unfold get_chunk_events at 2.
        fold got. rewrite <- !app_assoc. reflexivity.
Qed.

Lemma Get_ready (dst src c old : bytes) (fuel : nat) (st : World) :
  ready st ->
  forallb plain src = true ->
  files (dev st) src = Some c ->
  (disk st dst = None /\ old = [] \/ disk st dst = Some (File old)) ->
  length c < fuel ->
  exists st',
    Get react fuel dst src st = Some (None, st') /\
    ready st' /\
    disk st' dst = Some (File (c ++ skipn (length c) old)) /\
    (forall p, p <> dst -> disk st' p = disk st p) /\
    files (dev st') = files (dev st) /\
    trace st' = trace st ++ get_events dst src c.
Proof.
  intros Hr Hsrc Hfiles Hdst Hfuel. unfold Get, OpenFile_WRONLY_CREATE.
  set (st0 := match disk st dst with
              | Some _ => st
              | None => mkWorld (rx st) (dev st)
                          (disk_set (disk st) dst (File [])) (trace st)
              end).
  assert (E : (match disk st dst with
               | Some (File _) => (Some (mkOsFile dst 0), @None error, st)
               | Some Dir => (None, Some (PathError dst), st)
               | None => (Some (mkOsFile dst 0), None,
                          mkWorld (rx st) (dev st)
                            (disk_set (disk st) dst (File [])) (trace st))
               end) = (Some (mkOsFile dst 0), None, st0)).
  { subst st0. destruct Hdst as [[-> _] | ->]; reflexivity. }
  rewrite E. clear E.
  assert (H0 : ready st0 /\ dev st0 = dev st /\ trace st0 = trace st /\
               disk st0 dst = Some (File old) /\
               forall p, p <> dst -> disk st0 p = disk st p).
  { subst st0. destruct Hdst as [[E ->] | E]; rewrite E;
      cbn [rx dev disk trace]; repeat split; auto; try apply Hr.
    - unfold disk_set. now rewrite bytes_eqb_refl.
    - intros p Hp. unfold disk_set. apply bytes_eqb_neq in Hp.
      now rewrite Hp. }
  clearbody st0. destruct H0 as (Hr0 & Hdev0 & Htr0 & Hd0 & Hother0).
  erewrite Exec_ready with (out := []) (err := []);
    [ | assumption
      | now apply get_open_code_not_EOT
      | rewrite (parse_get_open _ Hsrc); cbn [run];
        rewrite Hdev0, Hfiles; reflexivity
      | intros [] | intros [] | exact I ].
  cbv iota.
  match goal with
  | |- context [Get_loop _ _ _ ?s1] => set (st1 := s1)
  end.
  destruct (@Get_loop_ready dst old fuel c st1 [])
    as (st2 & Hloop & Hr2 & Hd2 & Hother & Hfs2 & Htr);
    subst st1; cbn [rx dev disk trace inbuf files fvar wvar]; auto.
  { split; reflexivity. }
  change (length (@nil byte)) with 0 in Hloop.
  exists st2. rewrite Hloop.
  cbn [rx dev disk trace inbuf files fvar wvar app] in *.
  repeat split; auto; try apply Hr2.
  - intros p Hp. now rewrite (Hother p Hp), (Hother0 p Hp).
  - rewrite Htr, Htr0. unfold get_events. now rewrite <- !app_assoc.
Qed.

End TransferFacts.

(** ** What the executor leaves alone

    For any remote end: an execution touches the port and the writer
    only.  It leaves the local files as they are and writes to none. *)

Section FrameFacts.

Context {Device : Type}.
Variable react : Device -> bytes -> option error * Device * list rd.
Local Abbreviation World := (@World Device).

Lemma forallb_io_reads (s : bytes) : forallb io_event (reads s) = true.
Proof. induction s; simpl; auto. Qed.

Lemma forallb_io_forwarded (s : bytes) :
  forallb io_event (forwarded s) = true.
Proof.
  induction s as [|b s IH]; simpl; auto.
  rewrite forallb_app, IH. now destruct (not_EOT b).
Qed.

Lemma io_no_file_writes (evs : list event) :
  forallb io_event evs = true -> file_writes evs = [] /\ writes_of evs = [].
Proof.
  induction evs as [|e evs IH]; simpl; [auto|].
  rewrite andb_true_iff. intros [He Hevs]. destruct (IH Hevs) as [-> ->].
  destruct e; try discriminate; auto.
Qed.

Lemma ReadUntil_loop_io (ending : bytes) (w : option Writer) data q r w' q'
    evs :
  ReadUntil_loop ending w data q = (r, w', q', evs) ->
  forallb io_event evs = true.
Proof.
  destruct r as [d e]. destruct w as [wr|]; intros H.
  - apply ReadUntil_loop_sink_inv in H.
    destruct H as (s & wr' & _ & _ & [H | [H | H]]).
    + destruct H as (s0 & b & _ & _ & _ & _ & -> & _).
      apply forallb_io_forwarded.
    + destruct H as (err & _ & _ & -> & _).
      now rewrite forallb_app, forallb_io_forwarded.
    + destruct H as (b & err & _ & _ & _ & _ & -> & _).
      now rewrite forallb_app, forallb_io_forwarded.
  - apply ReadUntil_loop_acc_inv in H. destruct H as [_ [H | H]].
    + destruct H as (s & _ & _ & _ & -> & _). apply forallb_io_reads.
    + destruct H as (s & err & _ & _ & -> & _).
      now rewrite forallb_app, forallb_io_reads.
Qed.

Lemma port_only_refl (st : World) : port_only st st.
Proof. split; [reflexivity|]. exists []. now rewrite app_nil_r. Qed.

Lemma port_only_trans (a b c : World) :
  port_only a b -> port_only b c -> port_only a c.
Proof.
  intros [Hd1 (e1 & Ht1 & Hf1)] [Hd2 (e2 & Ht2 & Hf2)]. split.
  - congruence.
  - exists (e1 ++ e2). rewrite Ht2, Ht1, <- app_assoc. split; auto.
    now rewrite file_writes_app, Hf1, Hf2.
Qed.

Lemma ReadUntil_port_only ending w (st : World) r w' st' :
  ReadUntil ending w st = (r, w', st') -> port_only st st'.
Proof.
  unfold ReadUntil.
  destruct (ReadUntil_loop ending w [] (rx st)) as [[[r1 w1] q1] evs] eqn:E.
  intros H; injection H as <- <- <-.
  split; [reflexivity|]. exists evs. split; [reflexivity|].
  apply ReadUntil_loop_io in E. now apply io_no_file_writes.
Qed.

Lemma Port_Write_port_only data (st : World) r st' :
  Port_Write react data st = (r, st') -> port_only st st'.
Proof.
  unfold Port_Write. destruct (react (dev st) data) as [[r1 d1] o1].
  intros H; injection H as <- <-.
  split; [reflexivity|]. now exists [EvWrite data r1].
Qed.

Lemma Port_Read_port_only (st : World) r st' :
  Port_Read st = (r, st') -> port_only st st'.
Proof.
  unfold Port_Read. destruct (rx st) as [|x q]; intros H;
    injection H as <- <-; (split; [reflexivity|]); eexists; split;
    reflexivity.
Qed.

Lemma ReadAtLeast2_port_only (st : World) r st' :
  ReadAtLeast2 st = (r, st') -> port_only st st'.
Proof.
  unfold ReadAtLeast2.
  destruct (Port_Read st) as [[b0|e0] s1] eqn:E1.
  - destruct (Port_Read s1) as [[b1|e1] s2] eqn:E2;
      intros H; injection H as <- <-;
      eapply port_only_trans; eauto using Port_Read_port_only.
  - intros H; injection H as <- <-. eauto using Port_Read_port_only.
Qed.

Lemma ExecRaw_port_only code (st : World) r st' :
  ExecRaw react code st = (r, st') -> port_only st st'.
Proof.
  unfold ExecRaw.
  destruct (ReadUntil (bs ">") None st) as [[[d0 e0] w0] s0] eqn:E0.
  apply ReadUntil_port_only in E0.
  destruct e0 as [e|]; [intros H; injection H as <- <-; assumption|].
  destruct (Port_Write react code s0) as [e1 s1] eqn:E1.
  apply Port_Write_port_only in E1.
  destruct e1 as [e|];
    [intros H; injection H as <- <-; eauto using port_only_trans|].
  destruct (Port_Write react [EOT] s1) as [e2 s2] eqn:E2.
  apply Port_Write_port_only in E2.
  destruct e2 as [e|];
    [intros H; injection H as <- <-; eauto using port_only_trans|].
  destruct (ReadAtLeast2 s2) as [[resp e3] s3] eqn:E3.
  apply ReadAtLeast2_port_only in E3.
  assert (port_only st s3) by eauto using port_only_trans.
  destruct e3 as [e|]; [intros H'; injection H' as <- <-; assumption|].
  destruct (negb (Equal resp (bs "OK")));
    intros H'; injection H' as <- <-; assumption.
Qed.

Lemma Follow_port_only w (st : World) r w' st' :
  Follow w st = (r, w', st') -> port_only st st'.
Proof.
  unfold Follow.
  destruct (ReadUntil [EOT] w st) as [[[d0 e0] w0] s0] eqn:E0.
  apply ReadUntil_port_only in E0.
  destruct e0 as [e|]; [intros H; injection H as <- <- <-; assumption|].
  destruct (ReadUntil [EOT] None s0) as [[[d1 e1] w1] s1] eqn:E1.
  apply ReadUntil_port_only in E1.
  assert (port_only st s1) by eauto using port_only_trans.
  destruct e1 as [e|]; intros H'; injection H' as <- <- <-; assumption.
Qed.

Lemma Exec_port_only code w (st : World) r w' st' :
  Exec react code w st = (r, w', st') -> port_only st st'.
Proof.
  unfold Exec.
  destruct (ExecRaw react code st) as [e0 s0] eqn:E0.
  apply ExecRaw_port_only in E0.
  destruct e0 as [e|]; [intros H; injection H as <- <- <-; assumption|].
  destruct (Follow w s0) as [[[[d1 de1] e1] w1] s1] eqn:E1.
  apply Follow_port_only in E1.
  assert (port_only st s1) by eauto using port_only_trans.
  destruct e1 as [e|]; [intros H'; injection H' as <- <- <-; assumption|].
  destruct (0 <? len de1); intros H'; injection H' as <- <- <-; assumption.
Qed.

(** The loop of Get only appends to the destination: what it has
    written so far replaces as many bytes of the old content, and the
    rest of the old content stays. *)
Lemma Get_loop_appends (dst old : bytes) :
  forall fuel (st : World) written r st',
  disk st dst = Some (File (written ++ skipn (length written) old)) ->
  Get_loop react fuel (mkOsFile dst (length written)) st = Some (r, st') ->
  exists chs,
    file_writes (trace st') = file_writes (trace st) ++ chs /\
    disk st' dst
    = Some (File ((written ++ concat chs)
                  ++ skipn (length (written ++ concat chs)) old)) /\
    forall p, p <> dst -> disk st' p = disk st p.
Proof.
  induction fuel as [|fuel IH]; intros st written r st' Hdisk H;
    [discriminate|].
  cbn [Get_loop] in H.
  destruct (Exec react get_chunk_code (Some NewBuffer) st)
    as [[[d0 e0] b0] s0] eqn:E0.
  apply Exec_port_only in E0. destruct E0 as [Hd0 (evs & Ht0 & Hf0)].
  assert (Hstop : file_writes (trace s0) = file_writes (trace st) ++ [] /\
                  disk s0 dst
                  = Some (File ((written ++ concat [])
                                ++ skipn (length (written ++ concat [])) old))
                  /\ forall p, p <> dst -> disk s0 p = disk st p).
  { rewrite Ht0, file_writes_app, Hf0, Hd0. simpl. rewrite !app_nil_r.
    auto. }
  destruct e0 as [e|]; [injection H as <- <-; now exists []|].
  destruct (DecodeString (Bytes b0)) as [x e1].
  destruct e1 as [e|]; [injection H as <- <-; now exists []|].
  destruct (length x =? 0); [injection H as <- <-; now exists []|].
  unfold File_Write in H. cbn [fpath foff] in H.
  rewrite Hd0, Hdisk, write_at_append, <- length_app in H.
  apply IH in H.
  - destruct H as (chs & Hfw & Hd & Hother). exists (x :: chs).
    cbn [trace disk] in *. split; [|split].
    + rewrite Hfw, Ht0, !file_writes_app, Hf0. simpl.
      now rewrite app_nil_r, <- app_assoc.
    + rewrite Hd. simpl. now rewrite <- !app_assoc.
    + intros p Hp. rewrite (Hother p Hp). unfold disk_set.
      apply bytes_eqb_neq in Hp. now rewrite Hp.
  - cbn [disk]. unfold disk_set. now rewrite bytes_eqb_refl.
Qed.

End FrameFacts.

(** ** Claims about the framing reader *)

Lemma first_hitb_spec (ending s : bytes) :
  first_hitb ending s = true -> first_hit ending s.
Proof.
  unfold first_hitb, first_hit.
  rewrite !andb_true_iff, negb_true_iff, Nat.eqb_neq, forallb_forall.
  intros [[Hne Hs] Hmin]. repeat split; auto.
  - intros ->. now apply Hne.
  - intros k Hk. apply negb_true_iff, Hmin, in_seq. lia.
Qed.

Section FramingClaims.

Context {Device : Type}.
Local Abbreviation World := (@World Device).

Lemma ReadUntil_sink_long_ending (ending : bytes) (wr : Writer) (st : World) :
  2 <= length ending ->
  forall d w' st', ReadUntil ending (Some wr) st <> ((Some d, None), w', st').
Proof.
  intros Hlen d w' st'. unfold ReadUntil.
  destruct (ReadUntil_loop ending (Some wr) [] (rx st))
    as [[[[d1 e1] w1] q1] evs] eqn:E.
  intros H; injection H as -> -> <- <-.
  apply ReadUntil_loop_sink_inv in E.
  destruct E as (s & wr' & _ & _ & [H | [H | H]]).
  - destruct H as (s0 & b & _ & _ & _ & _ & _ & Hhit & _).
    rewrite HasSuffix_short in Hhit by (simpl; lia). discriminate.
  - destruct H as (err & H & _). discriminate.
  - destruct H as (b & err & H & _). discriminate.
Qed.

(** C3 (as amended).  Without a writer, for every terminator, and with
    a writer for a terminator of one byte: ReadUntil succeeds exactly
    when the pending bytes reach a first position at which the bytes
    read so far end with the terminator; it has then read exactly the
    bytes up to that position.  It returns them when there is no writer,
    and the one byte read last when there is one. *)
Theorem ReadUntil_first_hit (ending : bytes) (w : option Writer) (st : World) :
  w = None \/ length ending = 1 ->
  (forall s q,
     rx st = map Got s ++ q -> first_hit ending s -> accepting w ->
     ReadUntil ending w st
     = ((Some match w with None => s | Some _ => ending end, None),
        write_to w (filter not_EOT s),
        mkWorld q (dev st) (disk st)
          (trace st ++ match w with
                       | None => reads s
                       | Some _ => forwarded s
                       end)))
  /\
  (forall d w' st',
     ReadUntil ending w st = ((Some d, None), w', st') ->
     exists s, rx st = map Got s ++ rx st' /\ first_hit ending s).
Proof.
  intros Hmode. split.
  - intros s q Hrx Hhit Hw. destruct w as [wr|].
    + destruct Hmode as [Hmode | Hlen]; [discriminate|].
      destruct ending as [|t [|]]; try discriminate.
      apply first_hit_one in Hhit. destruct Hhit as (s0 & -> & Hnin).
      now apply (@ReadUntil_byte Device t (Some wr) s0 q st).
    + now apply ReadUntil_acc_hit.
  - intros d w' st'. unfold ReadUntil.
    destruct (ReadUntil_loop ending w [] (rx st))
      as [[[[d1 e1] w1] q1] evs] eqn:E.
    intros H; injection H as -> -> <- <-. cbn [rx].
    destruct w as [wr|].
    + destruct Hmode as [Hmode | Hlen]; [discriminate|].
      destruct ending as [|t [|]]; try discriminate.
      apply ReadUntil_loop_sink_inv in E.
      destruct E as (s & wr' & _ & _ & [H | [H | H]]).
      * destruct H as (s0 & b & -> & _ & _ & Hq & _ & Hhit & Hmiss).
        exists (s0 ++ [b]). split; [assumption|].
        rewrite HasSuffix_one in Hhit. apply byte_eqb_eq in Hhit. subst b.
        apply first_hit_one. exists s0. split; [reflexivity|].
        intros Hin. specialize (Hmiss _ Hin).
        now rewrite HasSuffix_one, byte_eqb_refl in Hmiss.
      * destruct H as (err & H & _). discriminate.
      * destruct H as (b & err & H & _). discriminate.
    + apply ReadUntil_loop_acc_inv in E. destruct E as [_ [H | H]].
      * destruct H as (s & _ & _ & Hq & _ & Hne & Hs & Hmin).
        exists s. split; [assumption|]. repeat split; auto.
      * destruct H as (s & err & H & _). discriminate.
Qed.

(** C5.  With a writer, the bytes read are written to it one by one,
    each right after it was read, except 0x04, which is never written;
    this holds whether the call then succeeds, a read fails or the
    writer refuses.  A 0x04 that is read still ends a read for the
    terminator 0x04. *)
Theorem ReadUntil_forwards (ending : bytes) (wr : Writer) (st : World) :
  (exists s q wr' last,
     rx st = map Got s ++ q /\
     snd (fst (ReadUntil ending (Some wr) st)) = Some wr' /\
     trace (snd (ReadUntil ending (Some wr) st))
     = trace st ++ forwarded s ++ last /\
     wbuf wr' = wbuf wr ++ filter not_EOT s /\
     (last = [] \/
      (exists e, last = [EvRead (Fail e)]) \/
      (exists b e, not_EOT b = true /\
                   last = [EvRead (Got b); EvSink [b] (Some e)])))
  /\
  (forall s0 q,
     rx st = map Got (s0 ++ [EOT]) ++ q -> ~ In EOT s0 -> wroom wr = None ->
     ReadUntil [EOT] (Some wr) st
     = ((Some [EOT], None), Some (mkWriter (wbuf wr ++ s0) None),
        mkWorld q (dev st) (disk st)
          (trace st ++ forwarded s0 ++ [EvRead (Got EOT)]))).
Proof.
  split.
  - unfold ReadUntil.
    destruct (ReadUntil_loop ending (Some wr) [] (rx st))
      as [[[[d1 e1] w1] q1] evs] eqn:E. cbn [fst snd trace].
    apply ReadUntil_loop_sink_inv in E.
    destruct E as (s & wr' & -> & Hbuf & [H | [H | H]]).
    + destruct H as (s0 & b & -> & _ & _ & Hq & -> & _).
      exists (s0 ++ [b]), q1, wr', []. rewrite app_nil_r. auto 10.
    + destruct H as (err & _ & _ & -> & Hq & _).
      destruct Hq as [Hq | (Hq & _ & _)].
      * exists s, (Fail err :: q1), wr', [EvRead (Fail err)].
        repeat split; eauto.
      * exists s, [], wr', [EvRead (Fail err)]. rewrite app_nil_r.
        repeat split; eauto.
    + destruct H as (b & err & _ & _ & Hb & Hq & -> & _).
      exists s, (Got b :: q1), wr', [EvRead (Got b); EvSink [b] (Some err)].
      repeat split; eauto 10.
  - intros s0 q Hrx Hnin Hroom.
    rewrite (@ReadUntil_byte Device EOT (Some wr) s0 q st Hrx Hnin Hroom).
    cbn [write_to]. rewrite Hroom, filter_app, (filter_not_EOT s0 Hnin).
    rewrite forwarded_app. simpl. now rewrite app_nil_r.
Qed.

End FramingClaims.

(** Witness of C3: the terminator "OK" is first reached after "xOK". *)
Lemma ReadUntil_first_hit_witness :
  ReadUntil (bs "OK") None (pending (map Got (bs "xOKy")))
  = ((Some (bs "xOK"), None), None,
     mkWorld [Got "y"%byte] tt no_disk (reads (bs "xOK"))).
Proof.
  destruct (@ReadUntil_first_hit unit (bs "OK") None
              (pending (map Got (bs "xOKy"))) (or_introl eq_refl))
    as [H _].
  apply (H (bs "xOK") [Got "y"%byte]).
  - reflexivity.
  - apply first_hitb_spec. reflexivity.
  - exact I.
Defined.

(** Counterexample to C3 as stated: with a writer and the two-byte
    terminator "ab", the bytes read end with the terminator after "ab",
    but ReadUntil does not return there: it reads on to the end of the
    input and fails when the port times out. *)
Lemma ReadUntil_sink_two_byte_ending :
  first_hit (bs "ab") (bs "ab") /\
  ReadUntil (bs "ab") (Some NewBuffer) (pending (map Got (bs "abc")))
  = ((None, Some ErrTimeout), Some (mkWriter (bs "abc") None),
     mkWorld [] tt no_disk
       (forwarded (bs "abc") ++ [EvRead (Fail ErrTimeout)])).
Proof.
  split.
  - apply first_hitb_spec. reflexivity.
  - reflexivity.
Qed.

(** ** Claims about the mode controller and the executor *)

Lemma reads_as_map (s : bytes) : reads s = map EvRead (map Got s).
Proof. unfold reads. now rewrite map_map. Qed.

(** Without a writer, a read that fails before the terminator is found
    ends the loop with that error, and nothing after it is read. *)
Lemma ReadUntil_loop_acc_miss (ending s : bytes) (tail q : list rd)
    (e : error) :
  read_fails tail e q ->
  forall data,
  (forall k, 0 < k <= length s ->
             HasSuffix (data ++ firstn k s) ending = false) ->
  ReadUntil_loop ending None data (map Got s ++ tail)
  = ((None, Some e), None, q, reads s ++ [EvRead (Fail e)]).
Proof.
  intros Htail. induction s as [|b s IH]; intros data Hmiss; simpl.
  - destruct Htail as [-> | (-> & -> & ->)]; reflexivity.
  - pose proof (Hmiss 1) as H1. simpl in H1. rewrite H1 by lia.
    rewrite IH; [reflexivity|].
    intros k Hk. rewrite <- app_assoc. apply (Hmiss (S k)). simpl; lia.
Qed.

Section ExecutorClaims.

Context {Device : Type}.
Variable react : Device -> bytes -> option error * Device * list rd.
Local Abbreviation World := (@World Device).

Lemma ReadUntil_acc_miss (ending s : bytes) (tail q : list rd) (e : error)
    (st : World) :
  rx st = map Got s ++ tail ->
  read_fails tail e q ->
  no_hit ending s ->
  ReadUntil ending None st
  = ((None, Some e), None,
     mkWorld q (dev st) (disk st)
       (trace st ++ reads s ++ [EvRead (Fail e)])).
Proof.
  intros Hrx Htail Hmiss. unfold ReadUntil.
  now rewrite Hrx, (@ReadUntil_loop_acc_miss ending s tail q e Htail []).
Qed.

(** What a ReadUntil without a writer has done when it returns. *)
Lemma ReadUntil_acc_inv (ending : bytes) (st : World) d e w' st' :
  ReadUntil ending None st = ((d, e), w', st') ->
  dev st' = dev st /\ disk st' = disk st /\
  ((exists s, d = Some s /\ e = None /\ rx st = map Got s ++ rx st' /\
              trace st' = trace st ++ reads s /\ first_hit ending s)
   \/
   (exists s err, d = None /\ e = Some err /\
                  trace st' = trace st ++ reads s ++ [EvRead (Fail err)])).
Proof.
  unfold ReadUntil.
  destruct (ReadUntil_loop ending None [] (rx st))
    as [[[[d1 e1] w1] q1] evs] eqn:E.
  intros H; injection H as <- <- <- <-. cbn [rx dev disk trace].
  split; [reflexivity|]. split; [reflexivity|].
  apply ReadUntil_loop_acc_inv in E. destruct E as [_ [H | H]].
  - destruct H as (s & -> & -> & Hq & -> & Hne & Hs & Hmin).
    left. exists s. repeat split; auto.
  - destruct H as (s & err & -> & -> & -> & _).
    right. exists s, err. auto.
Qed.

(** C7.  SoftReboot writes the one byte 0x04 and then only reads.  A
    failed write ends it with that error before anything is read; a
    read that fails before the first banner ends it without looking for
    the second; a read that fails before the second banner ends it; and
    it succeeds when "soft reboot\r\n" and then
    "raw REPL; CTRL-B to exit\r\n" are found, having read exactly up to
    the end of the second.  No step is repeated. *)
Theorem SoftReboot_sequence (st : World) :
  (exists r rs,
     trace (snd (SoftReboot react st))
     = trace st ++ EvWrite [EOT] r :: map EvRead rs)
  /\
  (forall e d o,
     react (dev st) [EOT] = (Some e, d, o) ->
     SoftReboot react st
     = (Some e, mkWorld (rx st ++ o) d (disk st)
                  (trace st ++ [EvWrite [EOT] (Some e)])))
  /\
  (forall d o s1 tail e q,
     react (dev st) [EOT] = (None, d, o) ->
     rx st ++ o = map Got s1 ++ tail ->
     no_hit banner_reboot s1 -> read_fails tail e q ->
     SoftReboot react st
     = (Some e, mkWorld q d (disk st)
                  (trace st ++ EvWrite [EOT] None
                   :: reads s1 ++ [EvRead (Fail e)])))
  /\
  (forall d o s1 s2 tail e q,
     react (dev st) [EOT] = (None, d, o) ->
     rx st ++ o = map Got (s1 ++ s2) ++ tail ->
     first_hit banner_reboot s1 ->
     no_hit banner_raw s2 -> read_fails tail e q ->
     SoftReboot react st
     = (Some e, mkWorld q d (disk st)
                  (trace st ++ EvWrite [EOT] None
                   :: reads s1 ++ reads s2 ++ [EvRead (Fail e)])))
  /\
  (forall d o s1 s2 q,
     react (dev st) [EOT] = (None, d, o) ->
     rx st ++ o = map Got (s1 ++ s2) ++ q ->
     first_hit banner_reboot s1 -> first_hit banner_raw s2 ->
     SoftReboot react st
     = (None, mkWorld q d (disk st)
                (trace st ++ EvWrite [EOT] None :: reads s1 ++ reads s2))).
Proof.
  split; [|split; [|split; [|split]]].
  - unfold SoftReboot, Port_Write.
    destruct (react (dev st) [EOT]) as [[r d] o].
    destruct r as [e|]; cbn [snd trace].
    { exists (Some e), []. reflexivity. }
    match goal with
    | |- context [ReadUntil banner_reboot None ?s] => set (s0 := s)
    end.
    destruct (ReadUntil banner_reboot None s0) as [[[d1 e1] w1] s1] eqn:E1.
    apply ReadUntil_acc_inv in E1. destruct E1 as (_ & _ & E1).
    assert (H1 : exists rs1, trace s1 = trace st ++ EvWrite [EOT] None
                                        :: map EvRead rs1).
    { subst s0. cbn [trace] in E1.
      destruct E1 as [(s & _ & _ & _ & -> & _) | (s & err & _ & _ & ->)].
      - exists (map Got s). now rewrite <- app_assoc, reads_as_map.
      - exists (map Got s ++ [Fail err]).
        now rewrite <- !app_assoc, reads_as_map, map_app. }
    destruct H1 as (rs1 & H1).
    destruct e1 as [e|]; cbn [snd].
    { exists None, rs1. assumption. }
    destruct (ReadUntil banner_raw None s1) as [[[d2 e2] w2] s2] eqn:E2.
    apply ReadUntil_acc_inv in E2. destruct E2 as (_ & _ & E2).
    cbn [snd]. exists None.
    destruct E2 as [(s & _ & _ & _ & -> & _) | (s & err & _ & _ & ->)];
      rewrite H1.
    + exists (rs1 ++ map Got s).
      now rewrite <- app_assoc, map_app, reads_as_map.
    + exists (rs1 ++ map Got s ++ [Fail err]).
      rewrite <- app_assoc, !map_app, reads_as_map. reflexivity.
  - intros e d o Hw. unfold SoftReboot.
    now rewrite (Port_Write_eq react [EOT] st Hw).
  - intros d o s1 tail e q Hw Hrx Hmiss Htail. unfold SoftReboot.
    rewrite (Port_Write_eq react [EOT] st Hw).
    erewrite ReadUntil_acc_miss by eauto.
    cbn [rx dev disk trace]. now rewrite <- app_assoc.
  - intros d o s1 s2 tail e q Hw Hrx Hhit Hmiss Htail. unfold SoftReboot.
    rewrite (Port_Write_eq react [EOT] st Hw).
    rewrite map_app, <- app_assoc in Hrx.
    erewrite ReadUntil_acc_hit by eauto.
    erewrite ReadUntil_acc_miss by (cbn [rx]; eauto).
    cbn [rx dev disk trace]. now rewrite <- !app_assoc.
  - intros d o s1 s2 q Hw Hrx Hhit1 Hhit2. unfold SoftReboot.
    rewrite (Port_Write_eq react [EOT] st Hw).
    rewrite map_app, <- app_assoc in Hrx.
    erewrite ReadUntil_acc_hit by eauto.
    erewrite ReadUntil_acc_hit by (cbn [rx]; eauto).
    cbn [rx dev disk trace]. now rewrite <- !app_assoc.
Qed.

(** C4.  ExecRaw reads up to the prompt '>', writes the snippet, writes
    the one byte 0x04 and reads two bytes, in this order and nothing
    more.  With these two bytes read, it succeeds exactly when they are
    "OK", and otherwise returns the error "could not exec command";
    and whenever it succeeds, every one of these operations succeeded
    and the two bytes were "OK". *)
Theorem ExecRaw_protocol (code : bytes) (st : World) :
  (forall pre q0 d1 o1 d2 o2 b0 b1 q3,
     rx st = map Got (pre ++ bs ">") ++ q0 ->
     ~ In ">"%byte pre ->
     react (dev st) code = (None, d1, o1) ->
     react d1 [EOT] = (None, d2, o2) ->
     q0 ++ o1 ++ o2 = Got b0 :: Got b1 :: q3 ->
     ExecRaw react code st
     = (if Equal [b0; b1] (bs "OK") then None
        else Some (ErrorsNew (bs "could not exec command")),
        mkWorld q3 d2 (disk st)
          (trace st ++ reads (pre ++ bs ">")
           ++ [EvWrite code None; EvWrite [EOT] None] ++ reads [b0; b1])))
  /\
  (forall st',
     ExecRaw react code st = (None, st') ->
     exists pre,
       ~ In ">"%byte pre /\
       trace st' = trace st ++ reads (pre ++ bs ">")
                   ++ [EvWrite code None; EvWrite [EOT] None]
                   ++ reads (bs "OK")).
Proof.
  split.
  - intros. eapply ExecRaw_ack; eauto.
  - intros st'. unfold ExecRaw.
    destruct (ReadUntil (bs ">") None st) as [[[d0 e0] w0] s0] eqn:E0.
    apply ReadUntil_acc_inv in E0. destruct E0 as (_ & _ & E0).
    destruct E0 as [(s & _ & -> & _ & Ht0 & Hhit) | (s & err & _ & -> & _)];
      [|discriminate].
    change (bs ">") with [">"%byte] in Hhit.
    apply first_hit_one in Hhit. destruct Hhit as (pre & -> & Hpre).
    unfold Port_Write.
    destruct (react (dev s0) code) as [[r1 d1] o1].
    destruct r1; [discriminate|].
    cbn [rx dev disk trace].
    destruct (react d1 [EOT]) as [[r2 d2] o2].
    destruct r2; [discriminate|].
    unfold ReadAtLeast2, Port_Read. cbn [rx dev disk trace].
    destruct ((rx s0 ++ o1) ++ o2) as [|[b0|e0] [|[b1|e1] q3]];
      try discriminate.
    cbn [rx dev disk trace].
    destruct (Equal [b0; b1] (bs "OK")) eqn:Eok; [|discriminate].
    apply bytes_eqb_eq in Eok. injection Eok as -> ->.
    intros H; injection H as <-. cbn [trace].
    exists pre. split; [assumption|].
    rewrite Ht0, <- !app_assoc. reflexivity.
Qed.

(** C2 (as amended).  When the remote end answers a snippet with "OK",
    an output stream and an error stream: Exec fails exactly when the
    error stream is not empty, and the error then carries the bytes of
    the error stream; when it is empty, Exec returns the bytes of the
    output stream if no writer was given, and with a writer it returns
    an empty slice and the writer has received the output.  In general
    Exec fails exactly when ExecRaw fails, Follow fails, or the error
    stream that Follow returns is not empty, and an error of ExecRaw or
    Follow is returned as it is. *)
Theorem Exec_outcome (code : bytes) (w : option Writer) (st : World) :
  (forall pre out err d q,
     answers react st code pre out err d q -> accepting w ->
     Exec react code w st
     = (match err with
        | [] => (Some match w with None => out | Some _ => [] end, None)
        | _ :: _ => (None, Some (ErrorsNew err))
        end,
        write_to w out,
        mkWorld q d (disk st) (trace st ++ exec_events pre code w out err)))
  /\
  (let raw := ExecRaw react code st in
   let fol := Follow w (snd raw) in
   let res := Exec react code w st in
   (snd (fst (fst res)) <> None <->
    fst raw <> None \/ snd (fst (fst fol)) <> None
    \/ 0 < len (snd (fst (fst (fst fol)))))
   /\ (forall e, fst raw = Some e -> fst (fst res) = (None, Some e))
   /\ (forall e, fst raw = None -> snd (fst (fst fol)) = Some e ->
                 fst (fst res) = (None, Some e))).
Proof.
  split.
  - intros. now apply Exec_answers.
  - unfold Exec.
    destruct (ExecRaw react code st) as [e0 s0]. cbn [fst snd].
    destruct e0 as [e|]; cbn [fst snd].
    { repeat split; try congruence. intros _. left. discriminate. }
    destruct (Follow w s0) as [[[[d1 de1] e1] w1] s1]. cbn [fst snd].
    destruct e1 as [e|]; cbn [fst snd].
    { repeat split; try congruence. intros _. right; left. discriminate. }
    destruct (Nat.ltb_spec 0 (len de1)); cbn [fst snd].
    + repeat split; try congruence. intros _. right; right. assumption.
    + repeat split; try congruence.
      intros [H1 | [H1 | H1]]; try congruence. lia.
Qed.

(** C10.  When the error stream is not empty, Exec returns a nil slice
    together with the error, whatever the output stream held; a writer
    has by then received the whole output stream, before the error
    stream was read. *)
Theorem Exec_error_discards_output (code pre out err : bytes)
    (w : option Writer) (st : World) (d : Device) (q : list rd) :
  answers react st code pre out err d q ->
  accepting w ->
  err <> [] ->
  fst (fst (Exec react code w st)) = (None, Some (ErrorsNew err)) /\
  snd (fst (Exec react code w st)) = write_to w out /\
  trace (snd (Exec react code w st))
  = trace st ++ reads (pre ++ bs ">")
    ++ [EvWrite code None; EvWrite [EOT] None] ++ reads (bs "OK")
    ++ match w with None => reads out | Some _ => forwarded out end
    ++ reads [EOT] ++ reads (err ++ [EOT]).
Proof.
  intros Hans Hw Herr.
  rewrite (@Exec_answers _ react code pre out err w st d q Hans Hw).
  cbn [fst snd trace].
  destruct err as [|e0 err]; [congruence|]. auto.
Qed.

Lemma TrimRight_snoc_sep (l : bytes) (c : byte) :
  TrimRight (l ++ [c]) c = TrimRight l c.
Proof.
  induction l as [|x l IH]; simpl.
  - now rewrite byte_eqb_refl.
  - now rewrite IH.
Qed.

Lemma TrimRight_snoc_other (l : bytes) (x c : byte) :
  x <> c -> TrimRight (l ++ [x]) c = l ++ [x].
Proof.
  intros Hx. induction l as [|y l IH]; simpl.
  - apply byte_eqb_neq in Hx. now rewrite Hx.
  - rewrite IH. now destruct l.
Qed.

Lemma Split_no_sep (l : bytes) (c : byte) : ~ In c l -> Split l c = [l].
Proof.
  induction l as [|x l IH]; simpl; intros H; [reflexivity|].
  assert (E : Byte.eqb x c = false) by (apply byte_eqb_neq; intuition).
  rewrite E, IH by tauto. reflexivity.
Qed.

Lemma Split_at_sep (a b : bytes) (c : byte) :
  ~ In c a -> Split (a ++ c :: b) c = a :: Split b c.
Proof.
  induction a as [|x a IH]; simpl; intros H.
  - now rewrite byte_eqb_refl.
  - assert (E : Byte.eqb x c = false) by (apply byte_eqb_neq; intuition).
    rewrite E, IH by tauto. reflexivity.
Qed.

(** C9.  Ls returns the output of the listing, without its trailing
    spaces, split at every space.  For an empty output this is the
    one-element list holding the empty string, and a file whose name
    contains a space comes out as two entries. *)
Theorem Ls_entries (st : World) :
  (forall pre out d q,
     answers react st ls_code pre out [] d q ->
     fst (Ls react st) = (Some (Split (TrimRight out SP) SP), None))
  /\
  (forall pre d q,
     answers react st ls_code pre [] [] d q ->
     fst (Ls react st) = (Some [[]], None))
  /\
  (forall pre a b d q,
     answers react st ls_code pre (a ++ [SP] ++ b ++ [SP]) [] d q ->
     ~ In SP a -> ~ In SP b -> b <> [] ->
     fst (Ls react st) = (Some [a; b], None)).
Proof.
  assert (G : forall pre out d q,
             answers react st ls_code pre out [] d q ->
             fst (Ls react st) = (Some (Split (TrimRight out SP) SP), None)).
  { intros pre out d q Hans. unfold Ls.
    rewrite (@Exec_answers _ react ls_code pre out [] (Some NewBuffer)
               st d q Hans eq_refl).
    reflexivity. }
  split; [exact G|]. split.
  - intros pre d q Hans. now rewrite (G _ _ _ _ Hans).
  - intros pre a b d q Hans Ha Hb Hne. rewrite (G _ _ _ _ Hans).
    replace (a ++ [SP] ++ b ++ [SP]) with ((a ++ SP :: b) ++ [SP])
      by now rewrite <- app_assoc.
    rewrite TrimRight_snoc_sep.
    destruct b as [|x b _] using rev_ind; [congruence|].
    replace (a ++ SP :: b ++ [x]) with ((a ++ SP :: b) ++ [x])
      by now rewrite <- app_assoc.
    rewrite TrimRight_snoc_other.
    + rewrite <- app_assoc. cbn [app].
      now rewrite Split_at_sep, Split_no_sep.
    + intros ->. apply Hb. apply in_or_app. right. now left.
Qed.

End ExecutorClaims.

(** A port that has the answer to one snippet pending. *)
Lemma pending_answers (code pre out err : bytes) (q : list rd) :
  ~ In ">"%byte pre -> ~ In EOT out -> ~ In EOT err ->
  answers silent
    (pending (map Got (pre ++ bs ">" ++ bs "OK" ++ out ++ [EOT]
                       ++ err ++ [EOT]) ++ q))
    code pre out err tt q.
Proof.
  intros Hpre Hout Herr.
  exists (map Got (bs "OK" ++ out ++ [EOT] ++ err ++ [EOT]) ++ q), tt, [], [].
  repeat split; auto.
  - cbn [pending rx]. rewrite !map_app, <- !app_assoc. reflexivity.
  - now rewrite !app_nil_r.
Qed.

(** Counterexample to C2 as stated: the error stream is empty and the
    output stream is "hi", and Exec, called with a writer, returns an
    empty slice; the writer has the output. *)
Lemma Exec_with_writer_returns_empty :
  let st := pending (map Got (bs ">OKhi" ++ [EOT; EOT])) in
  answers silent st (bs "print('hi')") [] (bs "hi") [] tt [] /\
  fst (Exec silent (bs "print('hi')") (Some NewBuffer) st)
  = ((Some [], None), Some (mkWriter (bs "hi") None)).
Proof.
  split.
  - apply (@pending_answers (bs "print('hi')") [] (bs "hi") [] []);
      simpl; intuition discriminate.
  - reflexivity.
Qed.

(** Witness of C10: output "hi", error text "boom", with a writer. *)
Lemma Exec_error_discards_output_witness :
  let st := pending (map Got (bs ">OKhi" ++ [EOT] ++ bs "boom" ++ [EOT])) in
  fst (fst (Exec silent (bs "f()") (Some NewBuffer) st))
  = (None, Some (ErrorsNew (bs "boom"))) /\
  snd (fst (Exec silent (bs "f()") (Some NewBuffer) st))
  = Some (mkWriter (bs "hi") None).
Proof.
  intros st.
  destruct (@Exec_error_discards_output unit silent (bs "f()") []
              (bs "hi") (bs "boom") (Some NewBuffer) st tt [])
    as (H1 & H2 & _).
  - apply (@pending_answers (bs "f()") [] (bs "hi") (bs "boom") []);
      simpl; intuition discriminate.
  - reflexivity.
  - discriminate.
  - split; assumption.
Defined.

(** ** Claims about the file transfer *)

Section GetFrame.

Context {Device : Type}.
Variable react : Device -> bytes -> option error * Device * list rd.
Local Abbreviation World := (@World Device).

(** C8.  Get opens its destination without truncating it and creates
    it when it is missing.  Whenever Get returns, whatever the remote
    end did, the destination holds the bytes Get wrote, in place of as
    many bytes of the old content, followed by the bytes of the old
    content beyond them, unchanged; no other local file has changed. *)
Theorem Get_keeps_old_tail (fuel : nat) (dst src old : bytes) (st : World)
    (r : option error) (st' : World) :
  (disk st dst = None /\ old = [] \/ disk st dst = Some (File old)) ->
  Get react fuel dst src st = Some (r, st') ->
  exists chs new,
    file_writes (trace st') = file_writes (trace st) ++ chs /\
    disk st' dst = Some (File new) /\
    firstn (length (concat chs)) new = concat chs /\
    skipn (length (concat chs)) new = skipn (length (concat chs)) old /\
    forall p, p <> dst -> disk st' p = disk st p.
Proof.
  intros Hdst. unfold Get, OpenFile_WRONLY_CREATE.
  set (st0 := match disk st dst with
              | Some _ => st
              | None => mkWorld (rx st) (dev st)
                          (disk_set (disk st) dst (File [])) (trace st)
              end).
  assert (E : (match disk st dst with
               | Some (File _) => (Some (mkOsFile dst 0), @None error, st)
               | Some Dir => (None, Some (PathError dst), st)
               | None => (Some (mkOsFile dst 0), None,
                          mkWorld (rx st) (dev st)
                            (disk_set (disk st) dst (File [])) (trace st))
               end) = (Some (mkOsFile dst 0), None, st0)).
  { subst st0. destruct Hdst as [[-> _] | ->]; reflexivity. }
  rewrite E. clear E.
  assert (H0 : trace st0 = trace st /\ disk st0 dst = Some (File old) /\
               forall p, p <> dst -> disk st0 p = disk st p).
  { subst st0. destruct Hdst as [[E ->] | E]; rewrite E;
      cbn [rx dev disk trace]; repeat split; auto.
    - unfold disk_set. now rewrite bytes_eqb_refl.
    - intros p Hp. unfold disk_set. apply bytes_eqb_neq in Hp.
      now rewrite Hp. }
  clearbody st0. destruct H0 as (Htr0 & Hd0 & Hother0).
  destruct (Exec react (get_open_code src) None st0)
    as [[[d1 e1] w1] s1] eqn:E1.
  apply Exec_port_only in E1. destruct E1 as [Hd1 (evs & Ht1 & Hf1)].
  assert (Hstop : exists chs new,
            file_writes (trace s1) = file_writes (trace st) ++ chs /\
            disk s1 dst = Some (File new) /\
            firstn (length (concat chs)) new = concat chs /\
            skipn (length (concat chs)) new = skipn (length (concat chs)) old
            /\ forall p, p <> dst -> disk s1 p = disk st p).
  { exists [], old. rewrite Ht1, file_writes_app, Hf1, Hd1, Htr0, Hd0.
    rewrite !app_nil_r. cbn [concat length skipn firstn]. auto 6. }
  destruct e1 as [e|]; [intros H; injection H as <- <-; assumption|].
  clear Hstop. intros H.
  apply (@Get_loop_appends Device react dst old fuel s1 [] r st') in H;
    [| now rewrite Hd1 ].
  destruct H as (chs & Hfw & Hd & Hother).
  cbn [app length] in Hd.
  exists chs, (concat chs ++ skipn (length (concat chs)) old).
  repeat split.
  - now rewrite Hfw, Ht1, file_writes_app, Hf1, app_nil_r, Htr0.
  - assumption.
  - now rewrite firstn_app, firstn_all, Nat.sub_diag, firstn_O, app_nil_r.
  - now rewrite skipn_app, skipn_all, Nat.sub_diag.
  - intros p Hp. now rewrite (Hother p Hp), Hd1, (Hother0 p Hp).
Qed.

End GetFrame.

Module TransferClaims.
Import MicroPython MicroPythonFacts TransferFacts.

Local Abbreviation World := (@World Interp).

(** Put and then Get of the same remote path. *)
Lemma put_then_get (remote local local2 c old : bytes) (fuel1 fuel2 : nat)
    (st : World) :
  ready st ->
  forallb plain remote = true ->
  disk st local = Some (File c) ->
  (disk st local2 = None /\ old = [] \/ disk st local2 = Some (File old)) ->
  length c < fuel1 -> length c < fuel2 ->
  exists st1 st2,
    Put react fuel1 remote local st = Some (None, st1) /\
    Get react fuel2 local2 remote st1 = Some (None, st2) /\
    disk st2 local2 = Some (File (c ++ skipn (length c) old)).
Proof.
  intros Hr Hplain Hlocal Hlocal2 Hf1 Hf2.
  destruct (@Put_ready remote local c fuel1 st Hr Hplain Hlocal Hf1)
    as (st1 & Hput & Hr1 & Hd1 & Hfs1 & _ & _).
  destruct (@Get_ready local2 remote c old fuel2 st1 Hr1 Hplain Hfs1)
    as (st2 & Hget & _ & Hd2 & _).
  - now rewrite Hd1.
  - assumption.
  - exists st1, st2. auto.
Qed.

(** X24.  Against the remote interpreter, for a remote path that fits a
    string literal and a destination [local2] that does not exist or
    holds no more bytes than the local file: Put of the local file
    followed by Get of the same remote path into [local2] succeeds, and
    [local2] is then byte-identical to the local file. *)
Theorem put_get_round_trip (remote local local2 c old : bytes)
    (fuel1 fuel2 : nat) (st : World) :
  ready st ->
  forallb plain remote = true ->
  disk st local = Some (File c) ->
  (disk st local2 = None /\ old = [] \/ disk st local2 = Some (File old)) ->
  length old <= length c ->
  length c < fuel1 -> length c < fuel2 ->
  exists st1 st2,
    Put react fuel1 remote local st = Some (None, st1) /\
    Get react fuel2 local2 remote st1 = Some (None, st2) /\
    disk st2 local2 = Some (File c).
Proof.
  intros Hr Hplain Hlocal Hlocal2 Hlen Hf1 Hf2.
  destruct (@put_then_get remote local local2 c old fuel1 fuel2 st
              Hr Hplain Hlocal Hlocal2 Hf1 Hf2)
    as (st1 & st2 & Hput & Hget & Hd).
  exists st1, st2. repeat split; auto.
  now rewrite Hd, skipn_all2, app_nil_r.
Qed.

(** Witness of X24: "hi" goes to "r.py" and comes back into a new
    file. *)
Lemma put_get_round_trip_witness :
  exists st1 st2,
    Put react 3 (bs "r.py") (bs "a.py") (world (fun _ => None) two_files)
    = Some (None, st1) /\
    Get react 3 (bs "c.py") (bs "r.py") st1 = Some (None, st2) /\
    disk st2 (bs "c.py") = Some (File (bs "hi")).
Proof.
  apply (@put_get_round_trip (bs "r.py") (bs "a.py") (bs "c.py")
           (bs "hi") [] 3 3 (world (fun _ => None) two_files)).
  - split; reflexivity.
  - reflexivity.
  - reflexivity.
  - left. split; reflexivity.
  - simpl. lia.
  - simpl. lia.
  - simpl. lia.
Defined.

(** C1.  The round trip at a destination that exists and is longer
    than the file: "a.py" holds "hi" and "b.py" holds "0123456789".
    Put of "a.py" to "r.py" and Get of "r.py" into "b.py" both succeed,
    and "b.py" then holds "hi23456789", not the "hi" of "a.py": Get
    opens its destination without truncating it, where the open of the
    remote file in Put, with mode 'wb', does truncate. *)
Lemma put_get_into_longer_file :
  exists st1 st2,
    Put react 3 (bs "r.py") (bs "a.py") (world (fun _ => None) two_files)
    = Some (None, st1) /\
    Get react 3 (bs "b.py") (bs "r.py") st1 = Some (None, st2) /\
    disk st2 (bs "a.py") = Some (File (bs "hi")) /\
    disk st2 (bs "b.py") = Some (File (bs "hi23456789")).
Proof.
  destruct (@Put_ready (bs "r.py") (bs "a.py") (bs "hi") 3
              (world (fun _ => None) two_files))
    as (st1 & Hput & Hr1 & Hd1 & Hfs1 & _ & _);
    [split; reflexivity | reflexivity | reflexivity | simpl; lia |].
  destruct (@Get_ready (bs "b.py") (bs "r.py") (bs "hi") (bs "0123456789")
              3 st1 Hr1 eq_refl Hfs1)
    as (st2 & Hget & _ & Hd2 & Hother & _);
    [right; now rewrite Hd1 | simpl; lia |].
  exists st1, st2. repeat split; auto.
  rewrite Hother, Hd1; [reflexivity | discriminate].
Qed.

Lemma chunks_300 (c : bytes) :
  length c = 300 -> chunks 256 c = [firstn 256 c; skipn 256 c].
Proof.
  intros Hlen.
  assert (Hc : c <> []) by (intros ->; discriminate).
  assert (Hlen2 : length (skipn 256 c) = 44) by (rewrite length_skipn; lia).
  assert (Hc2 : skipn 256 c <> [])
    by (intros E; rewrite E in Hlen2; discriminate).
  rewrite chunks_cons by (auto; lia).
  rewrite (@chunks_cons 256 (skipn 256 c)) by (auto; lia).
  rewrite (@firstn_all2 _ 256 (skipn 256 c)) by lia.
  now rewrite (@skipn_all2 _ 256 (skipn 256 c)) by lia.
Qed.

(** C6.  Put of a local file of 300 bytes executes, after the snippet
    that opens the remote file, exactly two chunk-write snippets, with
    the base64 text of the first 256 bytes and of the last 44, and then
    the close snippet.  Get of a remote file of 300 bytes executes,
    after the snippet that opens it, exactly three read-chunk snippets:
    the first two deliver 256 and 44 bytes, which are written to the
    local file, and the third delivers nothing, which ends the loop.
    (The remote end is the remote interpreter, with a remote path that
    fits a string literal.) *)
Theorem transfer_300_bytes (c remote : bytes) (st : World) :
  length c = 300 ->
  ready st ->
  forallb plain remote = true ->
  (forall fuel local,
     300 < fuel -> disk st local = Some (File c) ->
     exists st',
       Put react fuel remote local st = Some (None, st') /\
       writes_of (trace st')
       = writes_of (trace st)
         ++ [put_open_code remote; [EOT];
             put_chunk_code (EncodeToString (firstn 256 c)); [EOT];
             put_chunk_code (EncodeToString (skipn 256 c)); [EOT];
             put_close_code; [EOT]] /\
       length (firstn 256 c) = 256 /\ length (skipn 256 c) = 44)
  /\
  (forall fuel local2 old,
     300 < fuel -> files (dev st) remote = Some c ->
     (disk st local2 = None /\ old = [] \/
      disk st local2 = Some (File old)) ->
     exists st',
       Get react fuel local2 remote st = Some (None, st') /\
       trace st'
       = trace st ++ exec_events [] (get_open_code remote) None [] []
         ++ get_chunk_events local2 (firstn 256 c)
         ++ get_chunk_events local2 (skipn 256 c)
         ++ get_last_events /\
       writes_of (trace st')
       = writes_of (trace st)
         ++ [get_open_code remote; [EOT]; get_chunk_code; [EOT];
             get_chunk_code; [EOT]; get_chunk_code; [EOT]] /\
       file_writes (trace st')
       = file_writes (trace st) ++ [firstn 256 c; skipn 256 c]).
Proof.
  intros Hlen Hr Hplain. split.
  - intros fuel local Hfuel Hdisk.
    destruct (@Put_ready remote local c fuel st Hr Hplain Hdisk)
      as (st' & Hput & _ & _ & _ & _ & Htr); [lia|].
    exists st'. split; [assumption|]. split; [|split].
    + rewrite Htr. unfold put_events, put_chunk_events.
      rewrite (chunks_300 c Hlen). cbn [flat_map].
      rewrite !writes_of_app, !writes_of_exec_events. reflexivity.
    + rewrite length_firstn. lia.
    + rewrite length_skipn. lia.
  - intros fuel local2 old Hfuel Hfiles Hdisk.
    destruct (@Get_ready local2 remote c old fuel st Hr Hplain Hfiles)
      as (st' & Hget & _ & _ & _ & _ & Htr); [assumption | lia |].
    exists st'. split; [assumption|].
    assert (E : trace st'
                = trace st ++ exec_events [] (get_open_code remote) None [] []
                  ++ get_chunk_events local2 (firstn 256 c)
                  ++ get_chunk_events local2 (skipn 256 c)
                  ++ get_last_events).
    { rewrite Htr. unfold get_events. rewrite (chunks_300 c Hlen).
      cbn [flat_map]. now rewrite app_nil_r, <- !app_assoc. }
    split; [exact E|]. split.
    + rewrite E. unfold get_chunk_events, get_last_events.
      rewrite !writes_of_app, !writes_of_exec_events. reflexivity.
    + rewrite E. unfold get_chunk_events, get_last_events.
      rewrite !file_writes_app, !file_writes_exec_events. reflexivity.
Qed.

(** Witness of C6: a file of 300 bytes is sent. *)
Lemma transfer_300_bytes_witness :
  exists st',
    Put react 301 (bs "r.py") (bs "a.py")
      (world (fun _ => None) one_file_300) = Some (None, st') /\
    writes_of (trace st')
    = [put_open_code (bs "r.py"); [EOT];
       put_chunk_code (EncodeToString (firstn 256 bytes_300)); [EOT];
       put_chunk_code (EncodeToString (skipn 256 bytes_300)); [EOT];
       put_close_code; [EOT]].
Proof.
  destruct (@transfer_300_bytes bytes_300 (bs "r.py")
              (world (fun _ => None) one_file_300))
    as [HP _].
  - reflexivity.
  - split; reflexivity.
  - reflexivity.
  - destruct (HP 301 (bs "a.py")) as (st' & Hput & Hw & _).
    + lia.
    + reflexivity.
    + exists st'. split; assumption.
Defined.

(** Witness of C8: "hi" is fetched into the ten bytes of "b.py". *)
Lemma Get_keeps_old_tail_witness :
  exists (r : option error) (st' : World) (chs : list bytes) (new : bytes),
    Get react 3 (bs "b.py") (bs "r.py")
      (world (fun q => if bytes_eqb q (bs "r.py") then Some (bs "hi")
                       else None) two_files) = Some (r, st') /\
    disk st' (bs "b.py") = Some (File new) /\
    skipn (length (concat chs)) new
    = skipn (length (concat chs)) (bs "0123456789").
Proof.
  set (st := world _ two_files).
  destruct (Get react 3 (bs "b.py") (bs "r.py") st)
    as [[r st']|] eqn:E; [|vm_compute in E; discriminate].
  destruct (@Get_keeps_old_tail Interp react 3 (bs "b.py") (bs "r.py")
              (bs "0123456789") st r st' (or_intror eq_refl) E)
    as (chs & new & _ & Hd & _ & Hs & _).
  exists r, st', chs, new. auto.
Defined.

End TransferClaims.

(** ** The claims at concrete inputs *)

(** Witness of C5: "hi" and then 0x04 arrive. *)
Lemma ReadUntil_forwards_witness :
  ReadUntil [EOT] (Some NewBuffer) (pending (map Got (bs "hi" ++ [EOT])))
  = ((Some [EOT], None), Some (mkWriter (bs "hi") None),
     mkWorld [] tt no_disk (forwarded (bs "hi") ++ [EvRead (Got EOT)])).
Proof.
  destruct (@ReadUntil_forwards unit [EOT] NewBuffer
              (pending (map Got (bs "hi" ++ [EOT])))) as [_ H].
  apply (H (bs "hi") []).
  - reflexivity.
  - simpl. intuition discriminate.
  - reflexivity.
Defined.

(** Witness of C7: both banners arrive after the write. *)
Lemma SoftReboot_sequence_witness :
  let s1 := bs "MPY: " ++ banner_reboot in
  let s2 := bs "MicroPython" ++ [CR; LF] ++ banner_raw in
  SoftReboot silent (pending (map Got (s1 ++ s2) ++ [Got ">"%byte]))
  = (None, mkWorld [Got ">"%byte] tt no_disk
             (EvWrite [EOT] None :: reads s1 ++ reads s2)).
Proof.
  intros s1 s2.
  destruct (@SoftReboot_sequence unit silent
              (pending (map Got (s1 ++ s2) ++ [Got ">"%byte])))
    as (_ & _ & _ & _ & H).
  apply (H tt [] s1 s2 [Got ">"%byte]).
  - reflexivity.
  - cbn [pending rx]. now rewrite app_nil_r.
  - apply first_hitb_spec. reflexivity.
  - apply first_hitb_spec. reflexivity.
Defined.

(** Witness of C4: the prompt is pending and "OK" follows. *)
Lemma ExecRaw_protocol_witness :
  ExecRaw silent (bs "pass") (pending (map Got (bs ">OK")))
  = (None, mkWorld [] tt no_disk
             (reads (bs ">")
              ++ [EvWrite (bs "pass") None; EvWrite [EOT] None]
              ++ reads (bs "OK"))).
Proof.
  destruct (@ExecRaw_protocol unit silent (bs "pass")
              (pending (map Got (bs ">OK")))) as [H _].
  apply (H [] (map Got (bs "OK")) tt [] tt [] "O"%byte "K"%byte []).
  - reflexivity.
  - intros [].
  - reflexivity.
  - reflexivity.
  - reflexivity.
Defined.

(** Witness of C2: the output "hi" and no error text, without a
    writer. *)
Lemma Exec_outcome_witness :
  fst (fst (Exec silent (bs "print('hi')") None
              (pending (map Got (bs ">OKhi" ++ [EOT; EOT])))))
  = (Some (bs "hi"), None).
Proof.
  destruct (@Exec_outcome unit silent (bs "print('hi')") None
              (pending (map Got (bs ">OKhi" ++ [EOT; EOT])))) as [H _].
  rewrite (H [] (bs "hi") [] tt []).
  - reflexivity.
  - apply (@pending_answers (bs "print('hi')") [] (bs "hi") [] []);
      simpl; intuition discriminate.
  - exact I.
Defined.

(** Witness of C9: an empty listing, and the listing of the one file
    "my file". *)
Lemma Ls_entries_witness :
  fst (Ls silent (pending (map Got (bs ">OK" ++ [EOT; EOT]))))
  = (Some [[]], None) /\
  fst (Ls silent (pending (map Got (bs ">OKmy file " ++ [EOT; EOT]))))
  = (Some [bs "my"; bs "file"], None).
Proof.
  split.
  - destruct (@Ls_entries unit silent
                (pending (map Got (bs ">OK" ++ [EOT; EOT]))))
      as (_ & H & _).
    apply (H [] tt []).
    apply (@pending_answers ls_code [] [] [] []); simpl; intuition.
  - destruct (@Ls_entries unit silent
                (pending (map Got (bs ">OKmy file " ++ [EOT; EOT]))))
      as (_ & _ & H).
    apply (H [] (bs "my") (bs "file") tt []).
    + apply (@pending_answers ls_code [] (bs "my file ") [] []);
        simpl; intuition discriminate.
    + simpl. intuition discriminate.
    + simpl. intuition discriminate.
    + discriminate.
Defined.

(** The base64 text of "hello world", and back. *)
Example EncodeToString_hello :
  EncodeToString (bs "hello world") = bs "aGVsbG8gd29ybGQ=" /\
  DecodeString (bs "aGVsbG8gd29ybGQ=") = (bs "hello world", None) /\
  DecodeString (bs "aGVsbG8") = ([], Some CorruptInputError).
Proof. repeat split. Qed.

(** strings.Split and strings.TrimRight on small inputs. *)
Example Split_TrimRight_small :
  Split [] SP = [[]] /\
  Split (bs "a  b") SP = [bs "a"; []; bs "b"] /\
  TrimRight (bs "a b  ") SP = bs "a b" /\
  TrimRight (bs "  ") SP = [].
Proof. repeat split. Qed.

(** * Further properties of the driver *)

(** ** The framing reader at its edges *)

Lemma no_hit_one (t : byte) (s : bytes) : no_hit [t] s <-> ~ In t s.
Proof.
  split.
  - intros Hmiss Hin. apply in_split in Hin. destruct Hin as (l1 & l2 & ->).
    specialize (Hmiss (S (length l1))).
    replace (S (length l1)) with (length l1 + 1) in Hmiss by lia.
    rewrite firstn_app_2 in Hmiss. cbn [firstn] in Hmiss.
    rewrite HasSuffix_last_byte, byte_eqb_refl in Hmiss.
    assert (true = false); [|discriminate].
    apply Hmiss. rewrite length_app. cbn [length]. lia.
  - intros Hnin k Hk.
    destruct (firstn k s) as [|x l _] eqn:E using rev_ind.
    + reflexivity.
    + rewrite HasSuffix_last_byte. apply byte_eqb_neq. intros ->.
      apply Hnin. rewrite <- (firstn_skipn k s), E.
      apply in_or_app; left. apply in_or_app; right. now left.
Qed.

Lemma ReadUntil_loop_sink_miss (ending s : bytes) (tail q : list rd)
    (e : error) :
  read_fails tail e q ->
  no_byte_hit ending s ->
  forall (wr : Writer) (data : bytes),
  wroom wr = None ->
  ReadUntil_loop ending (Some wr) data (map Got s ++ tail)
  = ((None, Some e), Some (mkWriter (wbuf wr ++ filter not_EOT s) None),
     q, forwarded s ++ [EvRead (Fail e)]).
Proof.
  intros Htail. induction s as [|b s IH]; intros Hmiss wr data Hroom.
  - simpl. rewrite app_nil_r.
    destruct Htail as [-> | (-> & -> & ->)]; destruct wr; simpl in *;
      now subst.
  - assert (Hs : no_byte_hit ending s)
      by (intros x Hx; apply Hmiss; now right).
    simpl. destruct (not_EOT b); simpl.
    + rewrite Writer_Write_accepting by assumption.
      rewrite (Hmiss b) by now left.
      rewrite IH by (simpl; auto). simpl. now rewrite <- app_assoc.
    + rewrite (Hmiss b) by now left. now rewrite IH by auto.
Qed.

Lemma ReadUntil_loop_sink_refuse (ending s : bytes) (b : byte)
    (q : list rd) :
  no_byte_hit ending s ->
  not_EOT b = true ->
  forall (wr : Writer) (data : bytes),
  wroom wr = Some (length (filter not_EOT s)) ->
  ReadUntil_loop ending (Some wr) data (map Got s ++ Got b :: q)
  = ((None, Some (ErrWriter 0)),
     Some (mkWriter (wbuf wr ++ filter not_EOT s) (Some 0)),
     q, forwarded s ++ [EvRead (Got b); EvSink [b] (Some (ErrWriter 0))]).
Proof.
  intros Hmiss Hb. revert Hmiss.
  induction s as [|x s IH]; intros Hmiss wr data Hroom.
  - simpl in *. rewrite Hb. unfold Writer_Write. rewrite Hroom.
    rewrite app_nil_r. destruct wr; simpl in *; now subst.
  - assert (Hs : no_byte_hit ending s)
      by (intros y Hy; apply Hmiss; now right).
    simpl in *. destruct (not_EOT x) eqn:Hx; simpl in *.
    + unfold Writer_Write at 1. rewrite Hroom.
      rewrite (Hmiss x) by now left.
      rewrite IH by (simpl; auto). simpl. now rewrite <- app_assoc.
    + rewrite (Hmiss x) by now left. now rewrite IH by auto.
Qed.

Section FramingEdges.

Context {Device : Type}.
Local Abbreviation World := (@World Device).

(** X1.  With the empty terminator ReadUntil returns after exactly one
    byte, which it returns and, unless it is 0x04, writes to the writer;
    it never returns without reading, so on an idle port it times out. *)
Theorem ReadUntil_empty_ending (w : option Writer) (st : World) :
  accepting w ->
  (forall b q,
     rx st = Got b :: q ->
     ReadUntil [] w st
     = ((Some [b], None), write_to w (filter not_EOT [b]),
        mkWorld q (dev st) (disk st)
          (trace st ++ match w with
                       | None => reads [b]
                       | Some _ => forwarded [b]
                       end)))
  /\
  (rx st = [] ->
   ReadUntil [] w st
   = ((None, Some ErrTimeout), w,
      mkWorld [] (dev st) (disk st)
        (trace st ++ [EvRead (Fail ErrTimeout)]))).
Proof.
  intros Hw. split.
  - intros b q Hrx. unfold ReadUntil. rewrite Hrx.
    destruct w as [wr|]; simpl in *.
    + destruct (not_EOT b); simpl.
      * rewrite Writer_Write_accepting by assumption. simpl.
        now rewrite Hw.
      * rewrite app_nil_r. destruct wr; simpl in *; now subst.
    + reflexivity.
  - intros Hrx. unfold ReadUntil. rewrite Hrx. reflexivity.
Qed.

(** X2.  A read that fails before the terminator has been seen ends
    ReadUntil with that error, unchanged, and a nil slice.  Nothing
    after the failed read is read.  The bytes read before it are dropped
    when there is no writer, and have been written to the writer when
    there is one. *)
Theorem ReadUntil_read_error (ending s : bytes) (tail q : list rd)
    (e : error) (w : option Writer) (st : World) :
  accepting w ->
  rx st = map Got s ++ tail ->
  read_fails tail e q ->
  match w with
  | None => no_hit ending s
  | Some _ => no_byte_hit ending s
  end ->
  ReadUntil ending w st
  = ((None, Some e), write_to w (filter not_EOT s),
     mkWorld q (dev st) (disk st)
       (trace st ++ match w with
                    | None => reads s
                    | Some _ => forwarded s
                    end ++ [EvRead (Fail e)])).
Proof.
  intros Hw Hrx Htail Hmiss. unfold ReadUntil. rewrite Hrx.
  destruct w as [wr|]; simpl in *.
  - rewrite (@ReadUntil_loop_sink_miss ending s tail q e Htail Hmiss wr []
               Hw).
    now rewrite Hw.
  - now rewrite (@ReadUntil_loop_acc_miss ending s tail q e Htail []).
Qed.

(** X3.  When the writer refuses a byte, ReadUntil returns the error of
    the writer.  The refused byte has been taken from the port and is
    not in the writer; the bytes after it stay pending. *)
Theorem ReadUntil_writer_error (ending s : bytes) (b : byte) (q : list rd)
    (wr : Writer) (st : World) :
  rx st = map Got s ++ Got b :: q ->
  no_byte_hit ending s ->
  not_EOT b = true ->
  wroom wr = Some (length (filter not_EOT s)) ->
  ReadUntil ending (Some wr) st
  = ((None, Some (ErrWriter 0)),
     Some (mkWriter (wbuf wr ++ filter not_EOT s) (Some 0)),
     mkWorld q (dev st) (disk st)
       (trace st ++ forwarded s
        ++ [EvRead (Got b); EvSink [b] (Some (ErrWriter 0))])).
Proof.
  intros Hrx Hmiss Hb Hroom. unfold ReadUntil. rewrite Hrx.
  now rewrite (@ReadUntil_loop_sink_refuse ending s b q Hmiss Hb wr []
                 Hroom).
Qed.

(** X4.  With a writer and a terminator of two bytes or more, ReadUntil
    always ends with an error: it compares only the byte read last, so
    it goes on until a read fails or the writer refuses. *)
Theorem ReadUntil_writer_long_ending (ending : bytes) (wr : Writer)
    (st : World) :
  2 <= length ending ->
  exists e, fst (fst (ReadUntil ending (Some wr) st)) = (None, Some e).
Proof.
  intros Hlen. unfold ReadUntil.
  destruct (ReadUntil_loop ending (Some wr) [] (rx st))
    as [[[[d1 e1] w1] q1] evs] eqn:E. cbn [fst].
  apply ReadUntil_loop_sink_inv in E.
  destruct E as (s & wr' & _ & _ & [H | [H | H]]).
  - destruct H as (s0 & b & _ & _ & _ & _ & _ & Hhit & _).
    rewrite HasSuffix_short in Hhit by (simpl; lia). discriminate.
  - destruct H as (err & -> & -> & _). now exists err.
  - destruct H as (b & err & -> & -> & _). now exists err.
Qed.

End FramingEdges.

(** Witness of X1. *)
Lemma ReadUntil_empty_ending_witness :
  ReadUntil [] None (pending (map Got (bs "xy")))
  = ((Some (bs "x"), None), None,
     mkWorld [Got "y"%byte] tt no_disk (reads (bs "x"))).
Proof.
  destruct (@ReadUntil_empty_ending unit None (pending (map Got (bs "xy"))) I)
    as [H _].
  apply (H "x"%byte [Got "y"%byte]). reflexivity.
Defined.

(** Witness of X2: the port fails after "ab", with a writer. *)
Lemma ReadUntil_read_error_witness :
  ReadUntil [EOT] (Some NewBuffer)
    (pending (map Got (bs "ab") ++ [Fail (ErrPort 5); Got EOT]))
  = ((None, Some (ErrPort 5)), Some (mkWriter (bs "ab") None),
     mkWorld [Got EOT] tt no_disk
       (forwarded (bs "ab") ++ [EvRead (Fail (ErrPort 5))])).
Proof.
  apply (@ReadUntil_read_error unit [EOT] (bs "ab")
           [Fail (ErrPort 5); Got EOT] [Got EOT] (ErrPort 5)
           (Some NewBuffer)).
  - reflexivity.
  - reflexivity.
  - left. reflexivity.
  - intros x [<- | [<- | []]]; reflexivity.
Defined.

(** Witness of X3: a writer with room for one write. *)
Lemma ReadUntil_writer_error_witness :
  ReadUntil [EOT] (Some (mkWriter [] (Some 1)))
    (pending (map Got (bs "abc")))
  = ((None, Some (ErrWriter 0)), Some (mkWriter (bs "a") (Some 0)),
     mkWorld [Got "c"%byte] tt no_disk
       (forwarded (bs "a")
        ++ [EvRead (Got "b"%byte); EvSink (bs "b") (Some (ErrWriter 0))])).
Proof.
  apply (@ReadUntil_writer_error unit [EOT] (bs "a") "b"%byte
           [Got "c"%byte] (mkWriter [] (Some 1))).
  - reflexivity.
  - intros x [<- | []]; reflexivity.
  - reflexivity.
  - reflexivity.
Defined.

(** Witness of X4: the terminator "ab" on the input "ab". *)
Lemma ReadUntil_writer_long_ending_witness :
  exists e,
    fst (fst (ReadUntil (bs "ab") (Some NewBuffer)
                (pending (map Got (bs "ab"))))) = (None, Some e).
Proof.
  apply (@ReadUntil_writer_long_ending unit (bs "ab") NewBuffer
           (pending (map Got (bs "ab")))).
  simpl. lia.
Defined.

(** ** The mode controller and the executor when a step fails *)

Section ExecutorEdges.

Context {Device : Type}.
Variable react : Device -> bytes -> option error * Device * list rd.
Local Abbreviation World := (@World Device).

(** X5.  EnterRawMode writes "\r\x01" and then only reads.  A failed
    write ends it before anything is read; a read that fails before the
    banner ends it with that error; and it succeeds when the banner
    "raw REPL; CTRL-B to exit\r\n" is found, having read exactly up to
    its end, so that the prompt after the banner stays pending. *)
Theorem EnterRawMode_sequence (st : World) :
  (forall e d o,
     react (dev st) [CR; x01] = (Some e, d, o) ->
     EnterRawMode react st
     = (Some e, mkWorld (rx st ++ o) d (disk st)
                  (trace st ++ [EvWrite [CR; x01] (Some e)])))
  /\
  (forall d o s tail e q,
     react (dev st) [CR; x01] = (None, d, o) ->
     rx st ++ o = map Got s ++ tail ->
     no_hit banner_raw s -> read_fails tail e q ->
     EnterRawMode react st
     = (Some e, mkWorld q d (disk st)
                  (trace st ++ EvWrite [CR; x01] None
                   :: reads s ++ [EvRead (Fail e)])))
  /\
  (forall d o s q,
     react (dev st) [CR; x01] = (None, d, o) ->
     rx st ++ o = map Got s ++ q ->
     first_hit banner_raw s ->
     EnterRawMode react st
     = (None, mkWorld q d (disk st)
                (trace st ++ EvWrite [CR; x01] None :: reads s))).
Proof.
  split; [|split].
  - intros e d o Hw. unfold EnterRawMode.
    now rewrite (Port_Write_eq react [CR; x01] st Hw).
  - intros d o s tail e q Hw Hrx Hmiss Htail. unfold EnterRawMode.
    rewrite (Port_Write_eq react [CR; x01] st Hw).
    erewrite ReadUntil_acc_miss by eauto.
    cbn [rx dev disk trace]. now rewrite <- app_assoc.
  - intros d o s q Hw Hrx Hhit. unfold EnterRawMode.
    rewrite (Port_Write_eq react [CR; x01] st Hw).
    erewrite ReadUntil_acc_hit by eauto.
    cbn [rx dev disk trace]. now rewrite <- app_assoc.
Qed.


(** X7.  When the two bytes after the snippet are not "OK", Exec fails
    with "could not exec command" and does not read the streams: the
    writer is untouched and what follows the two bytes stays pending on
    the port. *)
Theorem Exec_ack_mismatch (code pre : bytes) (w : option Writer) (st : World)
    q0 d1 o1 d2 o2 b0 b1 q3 :
  rx st = map Got (pre ++ bs ">") ++ q0 ->
  ~ In ">"%byte pre ->
  react (dev st) code = (None, d1, o1) ->
  react d1 [EOT] = (None, d2, o2) ->
  q0 ++ o1 ++ o2 = Got b0 :: Got b1 :: q3 ->
  [b0; b1] <> bs "OK" ->
  Exec react code w st
  = ((None, Some (ErrorsNew (bs "could not exec command"))), w,
     mkWorld q3 d2 (disk st)
       (trace st ++ reads (pre ++ bs ">")
        ++ [EvWrite code None; EvWrite [EOT] None] ++ reads [b0; b1])).
Proof.
  intros Hrx Hpre H1 H2 Hq Hack. unfold Exec.
  rewrite (@ExecRaw_ack Device react code pre st q0 d1 o1 d2 o2 b0 b1 q3);
    auto.
  apply bytes_eqb_neq in Hack. unfold Equal. now rewrite Hack.
Qed.

(** X8.  Follow reads the output stream and then the error stream, each
    up to its 0x04, and returns them without the 0x04; with a writer
    the output goes to the writer and the returned output is empty.
    When a read fails inside the error stream, Follow returns nil for
    both streams, although the output stream was complete. *)
Theorem Follow_two_streams (w : option Writer) (out : bytes) (st : World) :
  accepting w ->
  ~ In EOT out ->
  (forall err q,
     rx st = map Got (out ++ [EOT] ++ err ++ [EOT]) ++ q ->
     ~ In EOT err ->
     Follow w st
     = ((Some match w with None => out | Some _ => [] end, Some err, None),
        write_to w out,
        mkWorld q (dev st) (disk st)
          (trace st
           ++ match w with None => reads out | Some _ => forwarded out end
           ++ reads [EOT] ++ reads (err ++ [EOT]))))
  /\
  (forall s tail e q,
     rx st = map Got (out ++ [EOT] ++ s) ++ tail ->
     ~ In EOT s -> read_fails tail e q ->
     Follow w st
     = ((None, None, Some e), write_to w out,
        mkWorld q (dev st) (disk st)
          (trace st
           ++ match w with None => reads out | Some _ => forwarded out end
           ++ reads [EOT] ++ reads s ++ [EvRead (Fail e)]))).
Proof.
  intros Hw Hout. split.
  - intros err q Hrx Herr. now apply Follow_streams.
  - intros s tail e q Hrx Hs Htail. unfold Follow.
    assert (Hrx1 : rx st = map Got (out ++ [EOT]) ++ (map Got s ++ tail)).
    { rewrite Hrx, !map_app, <- !app_assoc. reflexivity. }
    rewrite (@ReadUntil_byte Device EOT w out _ st Hrx1 Hout Hw).
    erewrite ReadUntil_acc_miss;
      [ | reflexivity | eassumption | now apply no_hit_one ].
    cbn [rx dev disk trace].
    rewrite filter_app, (filter_not_EOT out Hout). simpl.
    rewrite app_nil_r.
    destruct w as [wr|]; simpl.
    + rewrite forwarded_app, <- !app_assoc. reflexivity.
    + rewrite reads_app, <- !app_assoc. reflexivity.
Qed.

(** X9.  Cat hands the writer to Exec: on success the writer has
    received the output of the snippet, in order and without the 0x04,
    and Cat returns no error; an error text of the remote end becomes
    the error of Cat, after the writer has received the output. *)
Theorem Cat_forwards (f pre out err : bytes) (wr : Writer) (st : World)
    (d : Device) (q : list rd) :
  answers react st (cat_code f) pre out err d q ->
  wroom wr = None ->
  Cat react (Some wr) f st
  = (match err with [] => None | _ :: _ => Some (ErrorsNew err) end,
     Some (mkWriter (wbuf wr ++ out) None),
     mkWorld q d (disk st)
       (trace st ++ exec_events pre (cat_code f) (Some wr) out err)).
Proof.
  intros Hans Hw. unfold Cat.
  rewrite (@Exec_answers _ react (cat_code f) pre out err (Some wr) st d q
             Hans Hw).
  cbn [write_to]. rewrite Hw. now destruct err.
Qed.

(** X10.  Cwd returns the output of its snippet as it is, with no
    trimming, when the error stream is empty, and the empty string with
    the error otherwise. *)
Theorem Cwd_returns_output (pre out err : bytes) (st : World) (d : Device)
    (q : list rd) :
  answers react st cwd_code pre out err d q ->
  fst (Cwd react st)
  = match err with
    | [] => (out, None)
    | _ :: _ => ([], Some (ErrorsNew err))
    end.
Proof.
  intros Hans. unfold Cwd.
  rewrite (@Exec_answers _ react cwd_code pre out err (Some NewBuffer) st d q
             Hans eq_refl).
  now destruct err.
Qed.

(** X11.  Cd, Mkdir, Rm and Rmdir each execute one snippet and drop its
    output: they succeed exactly when the error stream is empty, and
    return the error text as the error otherwise. *)
Theorem remote_commands_outcome (p pre out err : bytes) (st : World)
    (d : Device) (q : list rd) :
  let outcome := match err with
                 | [] => None
                 | _ :: _ => Some (ErrorsNew err)
                 end in
  (answers react st (cd_code p) pre out err d q ->
   fst (Cd react p st) = outcome) /\
  (answers react st (mkdir_code p) pre out err d q ->
   fst (Mkdir react p st) = outcome) /\
  (answers react st (rm_code p) pre out err d q ->
   fst (Rm react p st) = outcome) /\
  (answers react st (rmdir_code p) pre out err d q ->
   fst (Rmdir react p st) = outcome).
Proof.
  intros outcome. subst outcome.
  repeat split; intros Hans;
    unfold Cd, Mkdir, Rm, Rmdir;
    rewrite (@Exec_answers _ react _ pre out err None st d q Hans I);
    now destruct err.
Qed.

End ExecutorEdges.

(** Witness of X5: the banner arrives, followed by the prompt. *)
Lemma EnterRawMode_sequence_witness :
  EnterRawMode silent (pending (map Got (banner_raw ++ bs ">")))
  = (None, mkWorld [Got ">"%byte] tt no_disk
             (EvWrite [CR; x01] None :: reads banner_raw)).
Proof.
  destruct (@EnterRawMode_sequence unit silent
              (pending (map Got (banner_raw ++ bs ">")))) as (_ & _ & H).
  apply (H tt [] banner_raw [Got ">"%byte]).
  - reflexivity.
  - reflexivity.
  - apply first_hitb_spec. reflexivity.
Defined.


(** Witness of X7: the remote end answers "no" instead of "OK". *)
Lemma Exec_ack_mismatch_witness :
  Exec silent (bs "pass") (Some NewBuffer)
    (pending (map Got (bs ">no" ++ bs "rest")))
  = ((None, Some (ErrorsNew (bs "could not exec command"))),
     Some NewBuffer,
     mkWorld (map Got (bs "rest")) tt no_disk
       (reads (bs ">")
        ++ [EvWrite (bs "pass") None; EvWrite [EOT] None]
        ++ reads (bs "no"))).
Proof.
  apply (@Exec_ack_mismatch unit silent (bs "pass") [] (Some NewBuffer)
           (pending (map Got (bs ">no" ++ bs "rest")))
           (map Got (bs "no" ++ bs "rest")) tt [] tt []
           "n"%byte "o"%byte (map Got (bs "rest"))).
  - reflexivity.
  - intros [].
  - reflexivity.
  - reflexivity.
  - reflexivity.
  - discriminate.
Defined.

(** Witness of X8: the port fails inside the error stream. *)
Lemma Follow_two_streams_witness :
  Follow None (pending (map Got (bs "hi" ++ [EOT] ++ bs "Tr")))
  = ((None, None, Some ErrTimeout), None,
     mkWorld [] tt no_disk
       (reads (bs "hi") ++ reads [EOT] ++ reads (bs "Tr")
        ++ [EvRead (Fail ErrTimeout)])).
Proof.
  destruct (@Follow_two_streams unit None (bs "hi")
              (pending (map Got (bs "hi" ++ [EOT] ++ bs "Tr"))) I)
    as [_ H].
  - simpl. intuition discriminate.
  - apply (H (bs "Tr") [] ErrTimeout []).
    + cbn [pending rx]. now rewrite app_nil_r.
    + simpl. intuition discriminate.
    + right. auto.
Defined.

(** Witness of X9: the file holds "hi". *)
Lemma Cat_forwards_witness :
  fst (Cat silent (Some NewBuffer) (bs "a.py")
         (pending (map Got (bs ">OKhi" ++ [EOT; EOT]))))
  = (None, Some (mkWriter (bs "hi") None)).
Proof.
  rewrite (@Cat_forwards unit silent (bs "a.py") [] (bs "hi") [] NewBuffer
             (pending (map Got (bs ">OKhi" ++ [EOT; EOT]))) tt []).
  - reflexivity.
  - apply (@pending_answers (cat_code (bs "a.py")) [] (bs "hi") [] []);
      simpl; intuition discriminate.
  - reflexivity.
Defined.

(** Witness of X10: the working directory is "/lib ". *)
Lemma Cwd_returns_output_witness :
  fst (Cwd silent (pending (map Got (bs ">OK/lib " ++ [EOT; EOT]))))
  = (bs "/lib ", None).
Proof.
  apply (@Cwd_returns_output unit silent [] (bs "/lib ") []
           (pending (map Got (bs ">OK/lib " ++ [EOT; EOT]))) tt []).
  apply (@pending_answers cwd_code [] (bs "/lib ") [] []);
    simpl; intuition discriminate.
Defined.

(** Witness of X11: removing a file that is not there. *)
Lemma remote_commands_outcome_witness :
  fst (Rm silent (bs "x")
         (pending (map Got (bs ">OK" ++ [EOT] ++ bs "ENOENT" ++ [EOT]))))
  = Some (ErrorsNew (bs "ENOENT")).
Proof.
  destruct (@remote_commands_outcome unit silent (bs "x") [] []
              (bs "ENOENT")
              (pending (map Got (bs ">OK" ++ [EOT] ++ bs "ENOENT" ++ [EOT])))
              tt []) as (_ & _ & H & _).
  apply H.
  apply (@pending_answers (rm_code (bs "x")) [] [] (bs "ENOENT") []);
    simpl; intuition discriminate.
Defined.

(** ** The entries of Ls *)

Lemma Split_not_nil (s : bytes) (c : byte) : Split s c <> [].
Proof.
  induction s as [|x s IH]; simpl; [discriminate|].
  destruct (Byte.eqb x c); [discriminate|].
  now destruct (Split s c).
Qed.

Lemma Split_pieces_free (s : bytes) (c : byte) :
  forall piece, In piece (Split s c) -> ~ In c piece.
Proof.
  induction s as [|x s IH]; simpl; intros piece Hin.
  - destruct Hin as [<- | []]. intros [].
  - destruct (Byte.eqb x c) eqn:E.
    + destruct Hin as [<- | Hin]; [intros [] | now apply IH].
    + apply byte_eqb_neq in E.
      destruct (Split s c) as [|p ps].
      * destruct Hin as [<- | []]. intros [H | []]. congruence.
      * destruct Hin as [<- | Hin].
        -- intros [H | H]; [congruence|].
           exact (IH p (or_introl eq_refl) H).
        -- apply IH. now right.
Qed.

Lemma Join_Split (s : bytes) (c : byte) : Join (Split s c) c = s.
Proof.
  induction s as [|x s IH]; simpl; [reflexivity|].
  pose proof (Split_not_nil s c) as Hne.
  destruct (Byte.eqb x c) eqn:E.
  - apply byte_eqb_eq in E. subst x.
    destruct (Split s c) as [|p ps]; [congruence|].
    cbn [Join app] in *. now rewrite IH.
  - destruct (Split s c) as [|p ps]; [congruence|].
    destruct ps as [|p' ps]; cbn [Join app] in *; now rewrite <- IH.
Qed.

Lemma TrimRight_repeat (s : bytes) (c : byte) :
  exists k, s = TrimRight s c ++ repeat c k.
Proof.
  induction s as [|x s [k IH]]; simpl.
  - now exists 0.
  - destruct (TrimRight s c) as [|t ts].
    + destruct (Byte.eqb x c) eqn:E.
      * apply byte_eqb_eq in E. subst x. exists (S k).
        simpl in *. now rewrite <- IH.
      * exists k. simpl in *. now rewrite <- IH.
    + exists k. simpl in *. now rewrite <- IH.
Qed.

Section LsShape.

Context {Device : Type}.
Variable react : Device -> bytes -> option error * Device * list rd.
Local Abbreviation World := (@World Device).

(** X12.  When the listing succeeds, Ls returns at least one entry, no
    entry contains a space, and the entries joined by single spaces,
    followed by some spaces, are the output of the listing.  An error
    text of the remote end gives a nil list and the error. *)
Theorem Ls_entries_shape (pre out err : bytes) (st : World) (d : Device)
    (q : list rd) :
  answers react st ls_code pre out err d q ->
  match err with
  | [] =>
      exists entries k,
        fst (Ls react st) = (Some entries, None) /\
        entries <> [] /\
        (forall e, In e entries -> ~ In SP e) /\
        out = Join entries SP ++ repeat SP k
  | _ :: _ => fst (Ls react st) = (None, Some (ErrorsNew err))
  end.
Proof.
  intros Hans. unfold Ls.
  rewrite (@Exec_answers _ react ls_code pre out err (Some NewBuffer)
             st d q Hans eq_refl).
  destruct err as [|e0 err]; [|reflexivity].
  cbn [fst snd write_to NewBuffer wbuf Bytes app].
  destruct (TrimRight_repeat out SP) as [k Hk].
  exists (Split (TrimRight out SP) SP), k. repeat split.
  - apply Split_not_nil.
  - apply Split_pieces_free.
  - now rewrite Join_Split.
Qed.

End LsShape.

(** Witness of X12: two files and two trailing spaces. *)
Lemma Ls_entries_shape_witness :
  exists entries k,
    fst (Ls silent (pending (map Got (bs ">OKboot.py lib/  " ++ [EOT; EOT]))))
    = (Some entries, None) /\
    entries <> [] /\
    (forall e, In e entries -> ~ In SP e) /\
    bs "boot.py lib/  " = Join entries SP ++ repeat SP k.
Proof.
  apply (@Ls_entries_shape unit silent [] (bs "boot.py lib/  ") []
           (pending (map Got (bs ">OKboot.py lib/  " ++ [EOT; EOT]))) tt []).
  apply (@pending_answers ls_code [] (bs "boot.py lib/  ") [] []);
    simpl; intuition discriminate.
Defined.

(** ** The file transfer when a step fails, for any remote end *)

Section TransferEdges.

Context {Device : Type}.
Variable react : Device -> bytes -> option error * Device * list rd.
Local Abbreviation World := (@World Device).

(** What the remote end sends depends on the port only. *)
Lemma answers_same_port (a b : World) code pre out err d q :
  rx a = rx b -> dev a = dev b ->
  answers react a code pre out err d q ->
  answers react b code pre out err d q.
Proof.
  intros Hrx Hdev (q0 & d1 & o1 & o2 & H1 & H2 & H3 & H4 & H5).
  exists q0, d1, o1, o2. rewrite <- Hrx, <- Hdev. auto.
Qed.

Lemma Put_loop_port_only :
  forall fuel f (st : World) r st',
  Put_loop react fuel f st = Some (r, st') -> port_only st st'.
Proof.
  induction fuel as [|fuel IH]; intros f st r st' H; [discriminate|].
  cbn [Put_loop] in H.
  destruct (File_Read 256 f st) as [[b e] f'].
  destruct e as [e|].
  - destruct e; injection H as <- <-; apply port_only_refl.
  - destruct (Exec react (put_chunk_code (EncodeToString b)) None st)
      as [[[d1 e1] w1] s1] eqn:E1.
    apply Exec_port_only in E1.
    destruct e1 as [e|]; [injection H as <- <-; assumption|].
    apply IH in H. eauto using port_only_trans.
Qed.

(** X13.  Put never changes a local file, whatever the remote end does
    and however Put ends; and when the local source cannot be opened,
    Put returns that error without any operation on the port. *)
Theorem Put_local_side (fuel : nat) (dst src : bytes) (st : World) :
  (forall r st',
     Put react fuel dst src st = Some (r, st') ->
     disk st' = disk st /\
     file_writes (trace st') = file_writes (trace st))
  /\
  (disk st src = None ->
   Put react fuel dst src st = Some (Some (PathError src), st)).
Proof.
  split.
  - intros r st' H.
    assert (G : port_only st st').
    { unfold Put, OpenFile_RDONLY in H.
      destruct (disk st src) as [n|];
        [|injection H as <- <-; apply port_only_refl].
      destruct (Exec react (put_open_code dst) None st)
        as [[[d1 e1] w1] s1] eqn:E1.
      apply Exec_port_only in E1.
      destruct e1 as [e|]; [injection H as <- <-; assumption|].
      destruct (Put_loop react fuel (mkOsFile src 0) s1)
        as [[r2 s2]|] eqn:E2; [|discriminate].
      apply Put_loop_port_only in E2.
      destruct r2 as [e|];
        [injection H as <- <-; eauto using port_only_trans|].
      destruct (Exec react put_close_code None s2)
        as [[[d3 e3] w3] s3] eqn:E3.
      apply Exec_port_only in E3. injection H as <- <-.
      eauto using port_only_trans. }
    destruct G as [Hd (evs & Ht & Hf)]. split; [assumption|].
    now rewrite Ht, file_writes_app, Hf, app_nil_r.
  - intros Hsrc. unfold Put, OpenFile_RDONLY. now rewrite Hsrc.
Qed.

(** X14.  When the remote end answers the snippet that opens the
    remote file with an error text, Put returns it as its error and
    executes nothing more: no chunk and no close snippet is written. *)
Theorem Put_open_error (fuel : nat) (dst src pre out err : bytes)
    (n : node) (st : World) (d : Device) (q : list rd) :
  disk st src = Some n ->
  answers react st (put_open_code dst) pre out err d q ->
  err <> [] ->
  Put react fuel dst src st
  = Some (Some (ErrorsNew err),
          mkWorld q d (disk st)
            (trace st ++ exec_events pre (put_open_code dst) None out err)).
Proof.
  intros Hsrc Hans Herr. unfold Put, OpenFile_RDONLY. rewrite Hsrc.
  rewrite (@Exec_answers _ react _ pre out err None st d q Hans I).
  destruct err; [congruence | reflexivity].
Qed.

(** X15.  When the remote end answers a chunk snippet with an error
    text, Put returns it as its error and stops: the close snippet is
    not written, so the remote file stays open. *)
Theorem Put_chunk_error (fuel : nat) (dst src c : bytes)
    (pre1 out1 pre2 out2 err2 : bytes) (st : World)
    (d1 d2 : Device) (q1 q2 : list rd) :
  disk st src = Some (File c) ->
  c <> [] ->
  answers react st (put_open_code dst) pre1 out1 [] d1 q1 ->
  answers react (mkWorld q1 d1 (disk st) (trace st))
    (put_chunk_code (EncodeToString (firstn 256 c))) pre2 out2 err2 d2 q2 ->
  err2 <> [] ->
  exists st',
    Put react (S fuel) dst src st = Some (Some (ErrorsNew err2), st') /\
    rx st' = q2 /\ dev st' = d2 /\
    writes_of (trace st')
    = writes_of (trace st)
      ++ [put_open_code dst; [EOT];
          put_chunk_code (EncodeToString (firstn 256 c)); [EOT]].
Proof.
  intros Hsrc Hc Hans1 Hans2 Herr. unfold Put, OpenFile_RDONLY.
  rewrite Hsrc.
  rewrite (@Exec_answers _ react _ pre1 out1 [] None st d1 q1 Hans1 I).
  cbv iota. cbn [Put_loop]. unfold File_Read.
  cbn [fpath foff disk skipn]. rewrite Hsrc.
  destruct c as [|x c']; [congruence|].
  set (c := x :: c') in *.
  match goal with
  | |- context [Exec react _ None ?s1] => set (st1 := s1)
  end.
  assert (Hans2' : answers react st1
                     (put_chunk_code (EncodeToString (firstn 256 c)))
                     pre2 out2 err2 d2 q2)
    by (eapply answers_same_port; [ | | exact Hans2]; reflexivity).
  rewrite (@Exec_answers _ react _ pre2 out2 err2 None st1 d2 q2 Hans2' I).
  destruct err2 as [|e0 err2]; [congruence|].
  eexists. split; [reflexivity|]. cbn [rx dev trace]. subst st1.
  cbn [trace]. repeat split.
  rewrite !writes_of_app, !writes_of_exec_events, <- app_assoc.
  reflexivity.
Qed.

(** X16.  Get opens its destination before it talks to the remote
    end.  When the destination cannot be opened for writing, Get
    returns that error without any operation on the port.  When the
    destination is missing and the remote end answers the snippet that
    opens the remote file with an error text, Get returns it as its
    error and leaves the destination behind as a new, empty file. *)
Theorem Get_failed_open (fuel : nat) (dst src : bytes) (st : World) :
  (disk st dst = Some Dir ->
   Get react fuel dst src st = Some (Some (PathError dst), st))
  /\
  (forall pre out err d q,
     disk st dst = None ->
     answers react st (get_open_code src) pre out err d q ->
     err <> [] ->
     Get react fuel dst src st
     = Some (Some (ErrorsNew err),
             mkWorld q d (disk_set (disk st) dst (File []))
               (trace st
                ++ exec_events pre (get_open_code src) None out err))).
Proof.
  split.
  - intros Hdst. unfold Get, OpenFile_WRONLY_CREATE. now rewrite Hdst.
  - intros pre out err d q Hdst Hans Herr.
    unfold Get, OpenFile_WRONLY_CREATE. rewrite Hdst.
    match goal with
    | |- context [Exec react _ None ?s1] => set (st1 := s1)
    end.
    assert (Hans' : answers react st1 (get_open_code src) pre out err d q)
      by (eapply answers_same_port; [ | | exact Hans]; reflexivity).
    rewrite (@Exec_answers _ react _ pre out err None st1 d q Hans' I).
    destruct err; [congruence | reflexivity].
Qed.

End TransferEdges.

(** Witness of X13: Put of "a.py" against a port that answers
    nothing. *)
Lemma Put_local_side_witness :
  exists (r : option error) (st' : @World unit),
    Put silent 3 (bs "r.py") (bs "a.py")
      (mkWorld [] tt two_files []) = Some (r, st') /\
    disk st' = two_files.
Proof.
  destruct (Put silent 3 (bs "r.py") (bs "a.py") (mkWorld [] tt two_files []))
    as [[r st']|] eqn:E; [|vm_compute in E; discriminate].
  destruct (@Put_local_side unit silent 3 (bs "r.py") (bs "a.py")
              (mkWorld [] tt two_files [])) as [H _].
  destruct (H r st' E) as [Hd _].
  exists r, st'. split; [reflexivity | exact Hd].
Defined.

(** Witness of X14: the remote file system is read-only. *)
Lemma Put_open_error_witness :
  exists st',
    Put silent 0 (bs "r.py") (bs "a.py")
      (mkWorld (map Got (bs ">OK" ++ [EOT] ++ bs "EROFS" ++ [EOT])) tt
         two_files [])
    = Some (Some (ErrorsNew (bs "EROFS")), st') /\
    writes_of (trace st') = [put_open_code (bs "r.py"); [EOT]].
Proof.
  rewrite (@Put_open_error unit silent 0 (bs "r.py") (bs "a.py") [] []
             (bs "EROFS") (File (bs "hi"))
             (mkWorld (map Got (bs ">OK" ++ [EOT] ++ bs "EROFS" ++ [EOT])) tt
                two_files []) tt []).
  - eexists. split; [reflexivity|]. reflexivity.
  - reflexivity.
  - eapply (@answers_same_port unit silent
              (pending (map Got ([] ++ bs ">" ++ bs "OK" ++ [] ++ [EOT]
                                 ++ bs "EROFS" ++ [EOT]) ++ [])));
      [ apply app_nil_r | reflexivity | ].
    apply (@pending_answers (put_open_code (bs "r.py")) [] [] (bs "EROFS") []);
      simpl; intuition discriminate.
  - discriminate.
Defined.

(** Witness of X15: the device is full when the chunk arrives. *)
Lemma Put_chunk_error_witness :
  exists st',
    Put silent 1 (bs "r.py") (bs "a.py")
      (mkWorld (map Got (bs ">OK" ++ [EOT; EOT]
                         ++ bs ">OK" ++ [EOT] ++ bs "ENOSPC" ++ [EOT]))
         tt two_files [])
    = Some (Some (ErrorsNew (bs "ENOSPC")), st') /\
    writes_of (trace st')
    = [put_open_code (bs "r.py"); [EOT];
       put_chunk_code (EncodeToString (bs "hi")); [EOT]].
Proof.
  destruct (@Put_chunk_error unit silent 0 (bs "r.py") (bs "a.py") (bs "hi")
              [] [] [] [] (bs "ENOSPC")
              (mkWorld (map Got (bs ">OK" ++ [EOT; EOT]
                                 ++ bs ">OK" ++ [EOT] ++ bs "ENOSPC" ++ [EOT]))
                 tt two_files [])
              tt tt
              (map Got (bs ">OK" ++ [EOT] ++ bs "ENOSPC" ++ [EOT])) [])
    as (st' & HP & _ & _ & Hw).
  - reflexivity.
  - discriminate.
  - exists (map Got (bs "OK" ++ [EOT; EOT]
                     ++ bs ">OK" ++ [EOT] ++ bs "ENOSPC" ++ [EOT])),
           tt, [], [].
    repeat split; try reflexivity; simpl; intuition discriminate.
  - exists (map Got (bs "OK" ++ [EOT] ++ bs "ENOSPC" ++ [EOT])), tt, [], [].
    repeat split; try reflexivity; simpl; intuition discriminate.
  - discriminate.
  - exists st'. split; assumption.
Defined.

(** Witness of X16: the remote file is missing. *)
Lemma Get_failed_open_witness :
  Get silent 0 (bs "c.py") (bs "r.py")
    (mkWorld (map Got (bs ">OK" ++ [EOT] ++ bs "ENOENT" ++ [EOT])) tt
       two_files [])
  = Some (Some (ErrorsNew (bs "ENOENT")),
          mkWorld [] tt (disk_set two_files (bs "c.py") (File []))
            (exec_events [] (get_open_code (bs "r.py")) None []
               (bs "ENOENT"))).
Proof.
  destruct (@Get_failed_open unit silent 0 (bs "c.py") (bs "r.py")
              (mkWorld (map Got (bs ">OK" ++ [EOT] ++ bs "ENOENT" ++ [EOT]))
                 tt two_files [])) as [_ H].
  apply (H [] [] (bs "ENOENT") tt []).
  - reflexivity.
  - exists (map Got (bs "OK" ++ [EOT] ++ bs "ENOENT" ++ [EOT])), tt, [], [].
    repeat split; try reflexivity; simpl; intuition discriminate.
  - discriminate.
Defined.

(** ** Chunks and their snippets *)

From Stdlib Require Import ZifyNat.

Lemma chunks_fuel_facts :
  forall fuel l, length l <= fuel ->
  concat (chunks_fuel fuel 256 l) = l /\
  Forall (fun ch => 1 <= length ch <= 256) (chunks_fuel fuel 256 l) /\
  length (chunks_fuel fuel 256 l) = (length l + 255) / 256.
Proof.
  induction fuel as [|fuel IH]; intros l Hl.
  - destruct l; [|simpl in Hl; lia]. repeat split; constructor.
  - destruct l as [|x l]; [repeat split; constructor|].
    cbn [chunks_fuel].
    assert (Hs : length (skipn 256 (x :: l)) = length (x :: l) - 256)
      by apply length_skipn.
    assert (Hf : length (firstn 256 (x :: l)) = Nat.min 256 (length (x :: l)))
      by apply length_firstn.
    cbn [length] in *.
    destruct (IH (skipn 256 (x :: l))) as (Hc & Hall & Hlen); [lia|].
    split; [|split].
    + cbn [concat]. rewrite Hc. apply firstn_skipn.
    + constructor; [lia | exact Hall].
    + cbn [length]. rewrite Hlen, Hs. clear.
      generalize (length l). intros n. div_mod_lia.
Qed.

Lemma chunks_facts (l : bytes) :
  concat (chunks 256 l) = l /\
  Forall (fun ch => 1 <= length ch <= 256) (chunks 256 l) /\
  length (chunks 256 l) = (length l + 255) / 256.
Proof. apply chunks_fuel_facts. lia. Qed.

Lemma length_EncodeToString (x : bytes) :
  length (EncodeToString x) = 4 * ((length x + 2) / 3).
Proof.
  induction x as [|a|a b|a b c l IH] using list_ind3; try reflexivity.
  cbn [EncodeToString length app]. rewrite IH. clear.
  generalize (length l). intros n. div_mod_lia.
Qed.

(** X17.  A chunk of at most 256 bytes gives a chunk snippet of at most
    350 bytes; the encoded text has no quote, no backslash, no line
    break and no 0x04, so the snippet needs no escaping, reaches the
    remote end as one snippet, and is read there as the call of the
    write helper with that text. *)
Theorem put_chunk_code_shape (ch : bytes) :
  length ch <= 256 ->
  length (put_chunk_code (EncodeToString ch)) <= 350 /\
  forallb wire_char (EncodeToString ch) = true /\
  forallb not_EOT (put_chunk_code (EncodeToString ch)) = true /\
  MicroPython.parse (put_chunk_code (EncodeToString ch))
  = MicroPython.SPutChunk (EncodeToString ch).
Proof.
  intros Hlen.
  assert (Hwire := EncodeToString_wire ch).
  assert (Hplain := MicroPythonFacts.wire_plain _ Hwire).
  repeat split; auto.
  - change (put_chunk_code (EncodeToString ch))
      with ("w"%byte :: "("%byte :: DQ
            :: EncodeToString ch ++ [DQ; ")"%byte; LF]).
    cbn [length]. rewrite length_app, length_EncodeToString. cbn [length].
    assert ((length ch + 2) / 3 <= 86) by div_mod_lia. lia.
  - now apply MicroPythonFacts.put_chunk_code_not_EOT.
  - now apply MicroPythonFacts.parse_put_chunk.
Qed.

(** Witness of X17: the first chunk of a file of 300 bytes. *)
Lemma put_chunk_code_shape_witness :
  length (put_chunk_code (EncodeToString (firstn 256 bytes_300))) <= 350.
Proof.
  destruct (@put_chunk_code_shape (firstn 256 bytes_300)) as [H _].
  - rewrite length_firstn. apply Nat.le_min_l.
  - exact H.
Defined.

(** ** The file transfer against the remote interpreter, in general *)

Module TransferInGeneral.
Import MicroPython MicroPythonFacts TransferFacts.

Local Abbreviation World := (@World Interp).

Lemma writes_of_put_chunks (chs : list bytes) :
  writes_of (flat_map put_chunk_events chs)
  = flat_map (fun ch => [put_chunk_code (EncodeToString ch); [EOT]]) chs.
Proof.
  induction chs as [|ch chs IH]; [reflexivity|].
  cbn [flat_map]. rewrite writes_of_app, IH. unfold put_chunk_events.
  now rewrite writes_of_exec_events.
Qed.

Lemma writes_of_get_chunks (dst : bytes) (chs : list bytes) :
  writes_of (flat_map (get_chunk_events dst) chs)
  = flat_map (fun _ => [get_chunk_code; [EOT]]) chs.
Proof.
  induction chs as [|ch chs IH]; [reflexivity|].
  cbn [flat_map]. rewrite writes_of_app, IH. unfold get_chunk_events.
  now rewrite writes_of_app, writes_of_exec_events.
Qed.

Lemma file_writes_get_chunks (dst : bytes) (chs : list bytes) :
  file_writes (flat_map (get_chunk_events dst) chs) = chs.
Proof.
  induction chs as [|ch chs IH]; [reflexivity|].
  cbn [flat_map]. rewrite file_writes_app, IH. unfold get_chunk_events.
  now rewrite file_writes_app, file_writes_exec_events.
Qed.

(** X18.  Put of a local file of any size succeeds against the remote
    interpreter.  It executes the open snippet, one chunk snippet for
    each piece of 256 bytes of the file, in order, the last piece being
    shorter when the size is no multiple of 256, and the close snippet:
    none for an empty file.  Afterwards the remote file holds exactly
    the bytes of the local file, whatever it held before; no other
    remote file and no local file has changed, and the remote end waits
    at its prompt. *)
Theorem Put_in_general (dst src c : bytes) (fuel : nat) (st : World) :
  ready st ->
  forallb plain dst = true ->
  disk st src = Some (File c) ->
  length c < fuel ->
  exists st',
    Put react fuel dst src st = Some (None, st') /\
    ready st' /\ disk st' = disk st /\
    files (dev st') dst = Some c /\
    (forall p, p <> dst -> files (dev st') p = files (dev st) p) /\
    writes_of (trace st')
    = writes_of (trace st) ++ [put_open_code dst; [EOT]]
      ++ put_chunk_writes c ++ [put_close_code; [EOT]] /\
    concat (chunks 256 c) = c /\
    Forall (fun ch => 1 <= length ch <= 256) (chunks 256 c) /\
    length (chunks 256 c) = (length c + 255) / 256.
Proof.
  intros Hr Hdst Hdisk Hfuel.
  destruct (@Put_ready dst src c fuel st Hr Hdst Hdisk Hfuel)
    as (st' & Hput & Hr' & Hd & Hf & Hother & Htr).
  destruct (chunks_facts c) as (Hc & Hall & Hlen).
  exists st'. repeat split; auto; try apply Hr'.
  rewrite Htr. unfold put_events, put_chunk_writes.
  rewrite !writes_of_app, !writes_of_exec_events, writes_of_put_chunks.
  reflexivity.
Qed.

(** X19.  Get of a remote file of any size succeeds against the remote
    interpreter.  It executes the open snippet and one read-chunk
    snippet more than the file has pieces of 256 bytes: one for each
    piece, which it writes to the local file in order, and a last one
    that delivers nothing.  It never writes the close snippet, and the
    remote files are as before. *)
Theorem Get_in_general (dst src c old : bytes) (fuel : nat) (st : World) :
  ready st ->
  forallb plain src = true ->
  files (dev st) src = Some c ->
  (disk st dst = None /\ old = [] \/ disk st dst = Some (File old)) ->
  length c < fuel ->
  exists st' ws,
    Get react fuel dst src st = Some (None, st') /\
    ready st' /\
    files (dev st') = files (dev st) /\
    writes_of (trace st') = writes_of (trace st) ++ ws /\
    ws = [get_open_code src; [EOT]] ++ get_chunk_writes c
         ++ [get_chunk_code; [EOT]] /\
    ~ In put_close_code ws /\
    length ws = 2 * ((length c + 255) / 256 + 2) /\
    file_writes (trace st') = file_writes (trace st) ++ chunks 256 c.
Proof.
  intros Hr Hsrc Hfiles Hdst Hfuel.
  destruct (@Get_ready dst src c old fuel st Hr Hsrc Hfiles Hdst Hfuel)
    as (st' & Hget & Hr' & _ & _ & Hfs & Htr).
  destruct (chunks_facts c) as (_ & _ & Hlen).
  exists st', ([get_open_code src; [EOT]] ++ get_chunk_writes c
               ++ [get_chunk_code; [EOT]]).
  split; [assumption|]. split; [assumption|]. split; [assumption|].
  split; [|split; [reflexivity|split; [|split]]].
  - rewrite Htr. unfold get_events, get_last_events, get_chunk_writes.
    rewrite !writes_of_app, !writes_of_exec_events, writes_of_get_chunks.
    reflexivity.
  - intros Hin. apply in_app_or in Hin. destruct Hin as [Hin | Hin].
    + destruct Hin as [H | [H | []]]; discriminate H.
    + apply in_app_or in Hin. destruct Hin as [Hin | Hin].
      * unfold get_chunk_writes in Hin. apply in_flat_map in Hin.
        destruct Hin as (ch & _ & [H | [H | []]]); discriminate H.
      * destruct Hin as [H | [H | []]]; discriminate H.
  - rewrite !length_app. unfold get_chunk_writes.
    rewrite <- Hlen. clear.
    induction (chunks 256 c) as [|ch chs IH]; cbn [flat_map length app] in *;
      lia.
  - rewrite Htr. unfold get_events, get_last_events.
    rewrite !file_writes_app, !file_writes_exec_events,
      file_writes_get_chunks.
    now rewrite app_nil_r.
Qed.

Lemma run_well_formed (s : stmt) (m : Interp) :
  inbuf (fst (fst (run s m))) = [] /\
  ~ In EOT (snd (fst (run s m))) /\ ~ In EOT (snd (run s m)).
Proof.
  assert (Ht : ~ In EOT traceback)
    by (apply not_EOT_notin; reflexivity).
  destruct s; cbn [run].
  - repeat split; try (intros []).
  - destruct (wvar m), (fvar m) as [[name | rest |]|],
      (decode_quanta e); repeat split; auto; try (intros []).
  - destruct (fvar m); repeat split; auto; try (intros []).
  - destruct (files m name); repeat split; auto; try (intros []).
  - destruct (fvar m) as [[name | rest |]|]; repeat split; auto;
      try (intros []).
    apply not_EOT_notin, forallb_plain_not_EOT, wire_plain,
      EncodeToString_wire.
  - repeat split; auto; try (intros []).
Qed.

(** X20.  The conversation stays in step: after Exec of any snippet
    without a 0x04, on a remote interpreter that waits at its prompt,
    the remote interpreter waits at its prompt again, with nothing else
    pending; this holds whether the snippet succeeded or not, and Exec
    fails exactly when the snippet left an error text. *)
Theorem Exec_keeps_ready (code : bytes) (w : option Writer) (st : World) :
  ready st ->
  forallb not_EOT code = true ->
  accepting w ->
  ready (snd (Exec react code w st)) /\
  disk (snd (Exec react code w st)) = disk st /\
  (snd (fst (fst (Exec react code w st))) = None
   <-> snd (run (parse code) (dev st)) = []).
Proof.
  intros Hr Hcode Hw.
  destruct (run (parse code) (dev st)) as [[m out] err] eqn:Hrun.
  destruct (run_well_formed (parse code) (dev st)) as (Hbuf & Hout & Herr).
  rewrite Hrun in Hbuf, Hout, Herr. cbn [fst snd] in *.
  rewrite (@Exec_ready st code out err m w Hr Hcode Hrun Hout Herr Hw).
  cbn [fst snd rx dev disk]. repeat split; auto.
  - now destruct err.
  - intros ->. reflexivity.
Qed.

(** Witness of X18: "hi" is sent. *)
Lemma Put_in_general_witness :
  exists st',
    Put react 3 (bs "r.py") (bs "a.py") (world (fun _ => None) two_files)
    = Some (None, st') /\
    files (dev st') (bs "r.py") = Some (bs "hi").
Proof.
  destruct (@Put_in_general (bs "r.py") (bs "a.py") (bs "hi") 3
              (world (fun _ => None) two_files))
    as (st' & Hput & _ & _ & Hf & _).
  - split; reflexivity.
  - reflexivity.
  - reflexivity.
  - simpl. lia.
  - exists st'. split; assumption.
Defined.

(** Witness of X19: "hi" is fetched into a new file. *)
Lemma Get_in_general_witness :
  exists st',
    Get react 3 (bs "c.py") (bs "r.py")
      (world (fun q => if bytes_eqb q (bs "r.py") then Some (bs "hi")
                       else None) two_files) = Some (None, st') /\
    file_writes (trace st') = [bs "hi"].
Proof.
  destruct (@Get_in_general (bs "c.py") (bs "r.py") (bs "hi") [] 3
              (world (fun q => if bytes_eqb q (bs "r.py") then Some (bs "hi")
                               else None) two_files))
    as (st' & ws & Hget & _ & _ & _ & _ & _ & _ & Hfw).
  - split; reflexivity.
  - reflexivity.
  - reflexivity.
  - left. split; reflexivity.
  - simpl. lia.
  - exists st'. split; assumption.
Defined.

(** Witness of X20: a snippet the remote interpreter does not know. *)
Lemma Exec_keeps_ready_witness :
  ready (snd (Exec react (bs "1/0") None
                (world (fun _ => None) no_disk))).
Proof.
  apply (@Exec_keeps_ready (bs "1/0") None (world (fun _ => None) no_disk)).
  - split; reflexivity.
  - reflexivity.
  - exact I.
Defined.

End TransferInGeneral.

(** ** Upload *)

Module UploadFacts.
Import MicroPython MicroPythonFacts TransferFacts.

Local Abbreviation World := (@World Interp).

Lemma uploaded_cons (f : FileInfo) (fs : list FileInfo) (p : bytes) :
  uploaded (f :: fs) p
  = negb (IsDir f) && bytes_eqb (Name f) p || uploaded fs p.
Proof. reflexivity. Qed.

Lemma Upload_loop_ready (fuel : nat) (fs : list FileInfo) :
  forall (st : World) (out : list bytes),
  ready st ->
  (forall f, In f fs -> IsDir f = false ->
     forallb plain (Name f) = true /\
     exists c, disk st (Name f) = Some (File c) /\ length c < fuel) ->
  exists st',
    Upload_loop react fuel fs out st
    = Some (None,
            out ++ map (fun f => uploading_line (Name f))
                     (filter (fun f => negb (IsDir f)) fs),
            st') /\
    ready st' /\ disk st' = disk st /\
    (forall p c, uploaded fs p = true -> disk st p = Some (File c) ->
                 files (dev st') p = Some c) /\
    (forall p, uploaded fs p = false ->
               files (dev st') p = files (dev st) p).
Proof.
  induction fs as [|f fs IH]; intros st out Hr Hfs.
  - exists st. cbn. rewrite app_nil_r. repeat split; auto; try apply Hr.
    discriminate.
  - cbn [Upload_loop filter].
    destruct (IsDir f) eqn:Edir; cbn [negb].
    + destruct (IH st out Hr) as (st' & Hup & Hr' & Hd & Hin & Hout).
      { intros g Hg. apply Hfs. now right. }
      exists st'. repeat split; auto; try apply Hr';
        intros p; rewrite uploaded_cons, Edir; cbn [negb andb orb]; auto.
    + destruct (Hfs f (or_introl eq_refl) Edir) as (Hplain & c & Hc & Hlen).
      destruct (@Put_ready (Name f) (Name f) c fuel st Hr Hplain Hc Hlen)
        as (st1 & Hput & Hr1 & Hd1 & Hf1 & Hother1 & _).
      rewrite Hput.
      destruct (IH st1 (out ++ [uploading_line (Name f)]) Hr1)
        as (st' & Hup & Hr' & Hd & Hin & Hout).
      { intros g Hg Hgd. rewrite Hd1. apply Hfs; auto. now right. }
      exists st'. rewrite Hup, <- app_assoc. cbn [map app].
      split; [reflexivity|]. split; [assumption|].
      split; [congruence|]. split.
      * intros p c0 Hp Hc0. rewrite uploaded_cons, Edir in Hp.
        cbn [negb andb] in Hp.
        destruct (uploaded fs p) eqn:Eup.
        -- apply Hin; [exact Eup | now rewrite Hd1].
        -- rewrite orb_false_r in Hp. apply bytes_eqb_eq in Hp. subst p.
           rewrite (Hout _ Eup), Hf1. congruence.
      * intros p Hp. rewrite uploaded_cons, Edir in Hp.
        cbn [negb andb] in Hp.
        apply orb_false_iff in Hp. destruct Hp as [Hn Hup'].
        rewrite (Hout _ Hup'). apply Hother1.
        apply bytes_eqb_neq in Hn. congruence.
Qed.

(** X21.  Upload, against the remote interpreter, with a listing in
    which every regular file has a name that fits a string literal:
    it succeeds, prints one line for each regular file, in the order
    of the listing, and skips the directories.  Afterwards each regular
    file of the listing is on the remote end under its own name with
    the bytes of the local file; the other remote files and the local
    files are as before. *)
Theorem Upload_all (fuel : nat) (fs : list FileInfo) (st : World) :
  ready st ->
  (forall f, In f fs -> IsDir f = false ->
     forallb plain (Name f) = true /\
     exists c, disk st (Name f) = Some (File c) /\ length c < fuel) ->
  exists st',
    Upload react fuel (fs, None) st
    = Some (None,
            map (fun f => uploading_line (Name f))
              (filter (fun f => negb (IsDir f)) fs),
            st') /\
    ready st' /\ disk st' = disk st /\
    (forall p c, uploaded fs p = true -> disk st p = Some (File c) ->
                 files (dev st') p = Some c) /\
    (forall p, uploaded fs p = false ->
               files (dev st') p = files (dev st) p).
Proof.
  intros Hr Hfs. unfold Upload.
  apply (@Upload_loop_ready fuel fs st [] Hr Hfs).
Qed.

(** Witness of X21: a directory and the two files of the examples. *)
Lemma Upload_all_witness :
  exists st',
    Upload react 11
      ([mkFileInfo (bs "a.py") false; mkFileInfo (bs "lib") true;
        mkFileInfo (bs "b.py") false], None)
      (world (fun _ => None) two_files)
    = Some (None,
            [uploading_line (bs "a.py"); uploading_line (bs "b.py")], st') /\
    files (dev st') (bs "b.py") = Some (bs "0123456789").
Proof.
  destruct (@Upload_all 11
              [mkFileInfo (bs "a.py") false; mkFileInfo (bs "lib") true;
               mkFileInfo (bs "b.py") false]
              (world (fun _ => None) two_files))
    as (st' & Hup & _ & _ & Hin & _).
  - split; reflexivity.
  - intros f [<- | [<- | [<- | []]]] Hd; try discriminate;
      (split; [reflexivity|]); eexists; (split; [reflexivity|]);
      simpl; lia.
  - exists st'. split; [exact Hup|].
    apply (Hin (bs "b.py") (bs "0123456789")); reflexivity.
Defined.

End UploadFacts.

(** ** The reboot command *)

Section RebootSession.

Context {Device : Type}.
Variable react : Device -> bytes -> option error * Device * list rd.
Local Abbreviation World := (@World Device).

(** X22.  The reboot command sends the two interrupts, enters raw
    mode, reboots and, last of all, leaves raw mode.  When the port
    cannot be opened nothing is written.  When raw mode is not entered,
    because the write of the interrupts or of ctrl-A fails or because a
    read fails before the banner, ctrl-B is not sent.  Once raw mode is
    entered, ctrl-B is sent last whether the reboot succeeds or fails,
    by its write or by a read before either of its two banners, and the
    result is that of the reboot, whatever the write of ctrl-B
    returns. *)
Theorem cmdReboot_session (st : World) :
  (forall e, cmdReboot react (Some e) st = (Some e, st))
  /\
  (forall e d1 o1,
     react (dev st) [CR; x03; x03] = (Some e, d1, o1) ->
     cmdReboot react None st
     = (Some e,
        mkWorld (rx st ++ o1) d1 (disk st)
          (trace st ++ [EvWrite [CR; x03; x03] (Some e)])))
  /\
  (forall d1 o1 e d2 o2,
     react (dev st) [CR; x03; x03] = (None, d1, o1) ->
     react d1 [CR; x01] = (Some e, d2, o2) ->
     cmdReboot react None st
     = (Some e,
        mkWorld ((rx st ++ o1) ++ o2) d2 (disk st)
          (trace st
           ++ [EvWrite [CR; x03; x03] None; EvWrite [CR; x01] (Some e)])))
  /\
  (forall d1 o1 d2 o2 s tail e q,
     react (dev st) [CR; x03; x03] = (None, d1, o1) ->
     react d1 [CR; x01] = (None, d2, o2) ->
     (rx st ++ o1) ++ o2 = map Got s ++ tail ->
     no_hit banner_raw s -> read_fails tail e q ->
     cmdReboot react None st
     = (Some e,
        mkWorld q d2 (disk st)
          (trace st
           ++ [EvWrite [CR; x03; x03] None; EvWrite [CR; x01] None]
           ++ reads s ++ [EvRead (Fail e)])))
  /\
  (forall d1 o1 d2 o2 s1 q1 e d3 o3 r4 d4 o4,
     react (dev st) [CR; x03; x03] = (None, d1, o1) ->
     react d1 [CR; x01] = (None, d2, o2) ->
     (rx st ++ o1) ++ o2 = map Got s1 ++ q1 ->
     first_hit banner_raw s1 ->
     react d2 [EOT] = (Some e, d3, o3) ->
     react d3 [CR; x02] = (r4, d4, o4) ->
     cmdReboot react None st
     = (Some e,
        mkWorld ((q1 ++ o3) ++ o4) d4 (disk st)
          (trace st
           ++ [EvWrite [CR; x03; x03] None; EvWrite [CR; x01] None]
           ++ reads s1
           ++ [EvWrite [EOT] (Some e); EvWrite [CR; x02] r4])))
  /\
  (forall d1 o1 d2 o2 s1 q1 d3 o3 s2 tail e q r4 d4 o4,
     react (dev st) [CR; x03; x03] = (None, d1, o1) ->
     react d1 [CR; x01] = (None, d2, o2) ->
     (rx st ++ o1) ++ o2 = map Got s1 ++ q1 ->
     first_hit banner_raw s1 ->
     react d2 [EOT] = (None, d3, o3) ->
     q1 ++ o3 = map Got s2 ++ tail ->
     no_hit banner_reboot s2 -> read_fails tail e q ->
     react d3 [CR; x02] = (r4, d4, o4) ->
     cmdReboot react None st
     = (Some e,
        mkWorld (q ++ o4) d4 (disk st)
          (trace st
           ++ [EvWrite [CR; x03; x03] None; EvWrite [CR; x01] None]
           ++ reads s1 ++ [EvWrite [EOT] None]
           ++ reads s2 ++ [EvRead (Fail e); EvWrite [CR; x02] r4])))
  /\
  (forall d1 o1 d2 o2 s1 q1 d3 o3 s2 s3 tail e q r4 d4 o4,
     react (dev st) [CR; x03; x03] = (None, d1, o1) ->
     react d1 [CR; x01] = (None, d2, o2) ->
     (rx st ++ o1) ++ o2 = map Got s1 ++ q1 ->
     first_hit banner_raw s1 ->
     react d2 [EOT] = (None, d3, o3) ->
     q1 ++ o3 = map Got (s2 ++ s3) ++ tail ->
     first_hit banner_reboot s2 ->
     no_hit banner_raw s3 -> read_fails tail e q ->
     react d3 [CR; x02] = (r4, d4, o4) ->
     cmdReboot react None st
     = (Some e,
        mkWorld (q ++ o4) d4 (disk st)
          (trace st
           ++ [EvWrite [CR; x03; x03] None; EvWrite [CR; x01] None]
           ++ reads s1 ++ [EvWrite [EOT] None]
           ++ reads s2 ++ reads s3
           ++ [EvRead (Fail e); EvWrite [CR; x02] r4])))
  /\
  (forall d1 o1 d2 o2 s1 q1 d3 o3 s2 s3 q3 r4 d4 o4,
     react (dev st) [CR; x03; x03] = (None, d1, o1) ->
     react d1 [CR; x01] = (None, d2, o2) ->
     (rx st ++ o1) ++ o2 = map Got s1 ++ q1 ->
     first_hit banner_raw s1 ->
     react d2 [EOT] = (None, d3, o3) ->
     q1 ++ o3 = map Got (s2 ++ s3) ++ q3 ->
     first_hit banner_reboot s2 -> first_hit banner_raw s3 ->
     react d3 [CR; x02] = (r4, d4, o4) ->
     cmdReboot react None st
     = (None,
        mkWorld (q3 ++ o4) d4 (disk st)
          (trace st
           ++ [EvWrite [CR; x03; x03] None; EvWrite [CR; x01] None]
           ++ reads s1 ++ [EvWrite [EOT] None]
           ++ reads s2 ++ reads s3 ++ [EvWrite [CR; x02] r4]))).
Proof.
  split; [|split; [|split; [|split; [|split; [|split; [|split]]]]]].
  - reflexivity.
  - intros e d1 o1 H1. unfold cmdReboot, Connect. cbv beta iota.
    now rewrite (Port_Write_eq react _ st H1).
  - intros d1 o1 e d2 o2 H1 H2.
    unfold cmdReboot, Connect, EnterRawMode. cbv beta iota.
    rewrite (Port_Write_eq react _ st H1). cbv beta iota.
    erewrite Port_Write_eq by (cbn [dev]; eassumption). cbv beta iota.
    cbn [rx dev disk trace]. now rewrite <- !app_assoc.
  - intros d1 o1 d2 o2 s tail e q H1 H2 Hrx Hmiss Htail.
    unfold cmdReboot, Connect, EnterRawMode. cbv beta iota.
    rewrite (Port_Write_eq react _ st H1). cbv beta iota.
    erewrite Port_Write_eq by (cbn [dev]; eassumption). cbv beta iota.
    erewrite ReadUntil_acc_miss by (cbn [rx]; eauto).
    cbn [rx dev disk trace]. now rewrite <- !app_assoc.
  - intros d1 o1 d2 o2 s1 q1 e d3 o3 r4 d4 o4 H1 H2 Hrx Hhit H3 H4.
    unfold cmdReboot, Connect, EnterRawMode, SoftReboot, ExitRawMode.
    cbv beta iota.
    rewrite (Port_Write_eq react _ st H1). cbv beta iota.
    erewrite Port_Write_eq by (cbn [dev]; eassumption). cbv beta iota.
    erewrite ReadUntil_acc_hit by (cbn [rx]; eauto). cbv beta iota.
    erewrite Port_Write_eq by (cbn [dev]; eassumption). cbv beta iota.
    erewrite Port_Write_eq by (cbn [dev]; eassumption). cbv beta iota.
    cbn [rx dev disk trace]. now rewrite <- !app_assoc.
  - intros d1 o1 d2 o2 s1 q1 d3 o3 s2 tail e q r4 d4 o4
      H1 H2 Hrx Hhit1 H3 Hq Hmiss Htail H4.
    unfold cmdReboot, Connect, EnterRawMode, SoftReboot, ExitRawMode.
    cbv beta iota.
    rewrite (Port_Write_eq react _ st H1). cbv beta iota.
    erewrite Port_Write_eq by (cbn [dev]; eassumption). cbv beta iota.
    erewrite ReadUntil_acc_hit by (cbn [rx]; eauto). cbv beta iota.
    erewrite Port_Write_eq by (cbn [dev]; eassumption). cbv beta iota.
    erewrite ReadUntil_acc_miss by (cbn [rx]; eauto). cbv beta iota.
    erewrite Port_Write_eq by (cbn [dev]; eassumption). cbv beta iota.
    cbn [rx dev disk trace]. now rewrite <- !app_assoc.
  - intros d1 o1 d2 o2 s1 q1 d3 o3 s2 s3 tail e q r4 d4 o4
      H1 H2 Hrx Hhit1 H3 Hq Hhit2 Hmiss Htail H4.
    unfold cmdReboot, Connect, EnterRawMode, SoftReboot, ExitRawMode.
    cbv beta iota.
    rewrite (Port_Write_eq react _ st H1). cbv beta iota.
    erewrite Port_Write_eq by (cbn [dev]; eassumption). cbv beta iota.
    erewrite ReadUntil_acc_hit by (cbn [rx]; eauto). cbv beta iota.
    erewrite Port_Write_eq by (cbn [dev]; eassumption). cbv beta iota.
    rewrite map_app, <- app_assoc in Hq.
    erewrite ReadUntil_acc_hit by (cbn [rx]; eauto). cbv beta iota.
    erewrite ReadUntil_acc_miss by (cbn [rx]; eauto). cbv beta iota.
    erewrite Port_Write_eq by (cbn [dev]; eassumption). cbv beta iota.
    cbn [rx dev disk trace]. now rewrite <- !app_assoc.
  - intros d1 o1 d2 o2 s1 q1 d3 o3 s2 s3 q3 r4 d4 o4
      H1 H2 Hrx Hhit1 H3 Hq Hhit2 Hhit3 H4.
    unfold cmdReboot, Connect, EnterRawMode, SoftReboot, ExitRawMode.
    cbv beta iota.
    rewrite (Port_Write_eq react _ st H1). cbv beta iota.
    erewrite Port_Write_eq by (cbn [dev]; eassumption). cbv beta iota.
    erewrite ReadUntil_acc_hit by (cbn [rx]; eauto). cbv beta iota.
    erewrite Port_Write_eq by (cbn [dev]; eassumption). cbv beta iota.
    rewrite map_app, <- app_assoc in Hq.
    erewrite ReadUntil_acc_hit by (cbn [rx]; eauto). cbv beta iota.
    erewrite ReadUntil_acc_hit by (cbn [rx]; eauto). cbv beta iota.
    erewrite Port_Write_eq by (cbn [dev]; eassumption). cbv beta iota.
    cbn [rx dev disk trace]. now rewrite <- !app_assoc.
Qed.

End RebootSession.

(** Witness of X22: the banners arrive in order. *)
Lemma cmdReboot_session_witness :
  writes_of (trace (snd (cmdReboot silent None
      (pending (map Got (banner_raw ++ bs ">" ++ banner_reboot
                         ++ banner_raw ++ bs ">"))))))
  = [[CR; x03; x03]; [CR; x01]; [EOT]; [CR; x02]].
Proof.
  destruct (@cmdReboot_session unit silent
              (pending (map Got (banner_raw ++ bs ">" ++ banner_reboot
                                 ++ banner_raw ++ bs ">"))))
    as (_ & _ & _ & _ & _ & _ & _ & H).
  rewrite (H tt [] tt [] banner_raw
             (map Got (bs ">" ++ banner_reboot ++ banner_raw ++ bs ">"))
             tt [] (bs ">" ++ banner_reboot) banner_raw [Got ">"%byte]
             None tt []).
  - cbn [snd trace]. rewrite !writes_of_app, !writes_of_reads. reflexivity.
  - reflexivity.
  - reflexivity.
  - reflexivity.
  - apply first_hitb_spec. reflexivity.
  - reflexivity.
  - reflexivity.
  - apply first_hitb_spec. reflexivity.
  - apply first_hitb_spec. reflexivity.
  - reflexivity.
Defined.

(** ** A chunk that is no base64 text *)

Section CorruptChunk.

Context {Device : Type}.
Variable react : Device -> bytes -> option error * Device * list rd.
Local Abbreviation World := (@World Device).

(** X23.  When the output of the first read-chunk snippet is no base64
    text, Get returns the error of the decoder and writes nothing: the
    destination, which it has opened and created if it was missing,
    keeps the content it had then. *)
Theorem Get_corrupt_chunk (fuel : nat) (dst src old : bytes)
    (pre1 out1 pre2 out2 : bytes) (st : World)
    (d1 d2 : Device) (q1 q2 : list rd) :
  (disk st dst = None /\ old = [] \/ disk st dst = Some (File old)) ->
  answers react st (get_open_code src) pre1 out1 [] d1 q1 ->
  answers react (mkWorld q1 d1 (disk st) (trace st))
    get_chunk_code pre2 out2 [] d2 q2 ->
  DecodeString out2 = ([], Some CorruptInputError) ->
  exists st',
    Get react (S fuel) dst src st = Some (Some CorruptInputError, st') /\
    rx st' = q2 /\ dev st' = d2 /\
    disk st' dst = Some (File old) /\
    (forall p, p <> dst -> disk st' p = disk st p) /\
    file_writes (trace st') = file_writes (trace st).
Proof.
  intros Hdst Hans1 Hans2 Hdec. unfold Get, OpenFile_WRONLY_CREATE.
  set (st0 := match disk st dst with
              | Some _ => st
              | None => mkWorld (rx st) (dev st)
                          (disk_set (disk st) dst (File [])) (trace st)
              end).
  assert (E : (match disk st dst with
               | Some (File _) => (Some (mkOsFile dst 0), @None error, st)
               | Some Dir => (None, Some (PathError dst), st)
               | None => (Some (mkOsFile dst 0), None,
                          mkWorld (rx st) (dev st)
                            (disk_set (disk st) dst (File [])) (trace st))
               end) = (Some (mkOsFile dst 0), None, st0)).
  { subst st0. destruct Hdst as [[-> _] | ->]; reflexivity. }
  rewrite E. clear E.
  assert (H0 : rx st0 = rx st /\ dev st0 = dev st /\ trace st0 = trace st /\
               disk st0 dst = Some (File old) /\
               forall p, p <> dst -> disk st0 p = disk st p).
  { subst st0. destruct Hdst as [[E ->] | E]; rewrite E;
      cbn [rx dev disk trace]; repeat split; auto.
    - unfold disk_set. now rewrite bytes_eqb_refl.
    - intros p Hp. unfold disk_set. apply bytes_eqb_neq in Hp.
      now rewrite Hp. }
  clearbody st0. destruct H0 as (Hrx0 & Hdev0 & Htr0 & Hd0 & Hother0).
  assert (Hans1' : answers react st0 (get_open_code src) pre1 out1 [] d1 q1)
    by (eapply answers_same_port; [ | | exact Hans1]; auto).
  rewrite (@Exec_answers _ react _ pre1 out1 [] None st0 d1 q1 Hans1' I).
  cbv iota. cbn [Get_loop].
  match goal with
  | |- context [Exec react get_chunk_code _ ?s1] => set (st1 := s1)
  end.
  assert (Hans2' : answers react st1 get_chunk_code pre2 out2 [] d2 q2)
    by (eapply answers_same_port; [ | | exact Hans2]; reflexivity).
  rewrite (@Exec_answers _ react _ pre2 out2 [] (Some NewBuffer) st1 d2 q2
             Hans2' eq_refl).
  cbv iota. cbn [write_to NewBuffer wbuf wroom Bytes app]. rewrite Hdec.
  eexists. split; [reflexivity|]. subst st1.
  cbn [rx dev disk trace]. repeat split; auto.
  rewrite !file_writes_app, !file_writes_exec_events, Htr0.
  now rewrite !app_nil_r.
Qed.

End CorruptChunk.

(** Witness of X23: the remote end prints "???" for the chunk. *)
Lemma Get_corrupt_chunk_witness :
  exists st',
    Get silent 1 (bs "b.py") (bs "r.py")
      (mkWorld (map Got (bs ">OK" ++ [EOT; EOT]
                         ++ bs ">OK???" ++ [EOT; EOT])) tt two_files [])
    = Some (Some CorruptInputError, st') /\
    disk st' (bs "b.py") = Some (File (bs "0123456789")).
Proof.
  destruct (@Get_corrupt_chunk unit silent 0 (bs "b.py") (bs "r.py")
              (bs "0123456789") [] [] [] (bs "???")
              (mkWorld (map Got (bs ">OK" ++ [EOT; EOT]
                                 ++ bs ">OK???" ++ [EOT; EOT]))
                 tt two_files [])
              tt tt (map Got (bs ">OK???" ++ [EOT; EOT])) [])
    as (st' & HG & _ & _ & Hd & _).
  - right. reflexivity.
  - exists (map Got (bs "OK" ++ [EOT; EOT] ++ bs ">OK???" ++ [EOT; EOT])),
           tt, [], [].
    repeat split; try reflexivity; simpl; intuition discriminate.
  - exists (map Got (bs "OK???" ++ [EOT; EOT])), tt, [], [].
    repeat split; try reflexivity; simpl; intuition discriminate.
  - reflexivity.
  - exists st'. split; assumption.
Defined.
